(** * Beam search decoding for Token-and-Duration Transducer models

    A shallow embedding of
    [nemo/collections/asr/parts/submodules/tdt_beam_decoding.py]
    (class [BeamTDTInfer]) and the properties of its search procedures.

    Conventions of the embedding.
    - Python integers are [Z]; list positions produced by [topk] are [nat].
    - A Python call that raises is [None] (searches) or [inl e] (constructor).
    - Scores are Python floats.  The development is generic in the score
      type through the class [Score]: any type with the arithmetic the code
      uses and a total comparison (NaN-free floats).  Two instances are
      given, the real numbers and an executable integer grid.
    - The neural modules (prediction network, joint network, N-gram model)
      are opaque: they are parameters of the searches. *)

From Stdlib Require Import String.
From Stdlib Require Import ZArith List Bool Lia Permutation Sorted.
From Stdlib Require Import Reals Lra.
Import ListNotations.

Set Implicit Arguments.
Local Open Scope Z_scope.

(** ** The error monad of a call that may raise *)

Notation "x <- e ;; k" :=
  (match e with Some x => k | None => None end)
  (at level 61, e at next level, right associativity, only parsing).
Notation "' p <- e ;; k" :=
  (match e with Some p => k | None => None end)
  (at level 61, p pattern, e at next level, right associativity, only parsing).

Fixpoint mapM {A B : Type} (f : A -> option B) (l : list A) : option (list B) :=
  match l with
  | [] => Some []
  | x :: r => y <- f x ;; ys <- mapM f r ;; Some (y :: ys)
  end.

(** ** Scores *)

Class Score (S : Type) := {
  s_zero : S;
  s_add : S -> S -> S;
  s_sub : S -> S -> S;
  s_mul : S -> S -> S;
  (* a float divided by an integer *)
  s_divn : S -> Z -> S;
  s_leb : S -> S -> bool;
  (* [np.logaddexp] *)
  s_logaddexp : S -> S -> S;
  s_leb_total : forall a b, s_leb a b = true \/ s_leb b a = true;
  s_leb_trans : forall a b c, s_leb a b = true -> s_leb b c = true -> s_leb a c = true;
  s_sub_le : forall a g, s_leb s_zero g = true -> s_leb (s_sub a g) a = true;
  s_logaddexp_ge : forall a b, s_leb a (s_logaddexp a b) = true
}.

(** [a < b], the negation of [b <= a] in a total order. *)
Definition s_ltb {S} `{Score S} (a b : S) : bool := negb (s_leb b a).

(** *** Real scores: [np.logaddexp a b = ln (exp a + exp b)] *)

Definition Rleb (a b : R) : bool := if Rle_dec a b then true else false.

Definition Rlogaddexp (a b : R) : R := ln (exp a + exp b).

Lemma Rleb_true a b : Rleb a b = true <-> (a <= b)%R.
Proof. unfold Rleb; destruct (Rle_dec a b); split; intros; auto; discriminate. Qed.

Lemma Rlogaddexp_ge a b : (a <= Rlogaddexp a b)%R.
Proof.
  unfold Rlogaddexp.
  pose proof (exp_pos a) as Ha. pose proof (exp_pos b) as Hb.
  rewrite <- (ln_exp a) at 1.
  destruct (Rle_lt_or_eq_dec (exp a) (exp a + exp b)) as [Hlt | Heq]; [lra | | ].
  - left. apply ln_increasing; lra.
  - lra.
Qed.

Lemma Rleb_total a b : Rleb a b = true \/ Rleb b a = true.
Proof. rewrite !Rleb_true; lra. Qed.

Lemma Rleb_trans a b c : Rleb a b = true -> Rleb b c = true -> Rleb a c = true.
Proof. rewrite !Rleb_true; lra. Qed.

Lemma Rsub_le a g : Rleb 0 g = true -> Rleb (a - g) a = true.
Proof. rewrite !Rleb_true; lra. Qed.

Lemma Rleb_logaddexp a b : Rleb a (Rlogaddexp a b) = true.
Proof. rewrite Rleb_true; apply Rlogaddexp_ge. Qed.

#[export] Instance Score_R : Score R := {|
  s_zero := 0%R; s_add := Rplus; s_sub := Rminus; s_mul := Rmult;
  s_divn := fun a n => (a / IZR n)%R;
  s_leb := Rleb; s_logaddexp := Rlogaddexp;
  s_leb_total := Rleb_total; s_leb_trans := Rleb_trans;
  s_sub_le := Rsub_le; s_logaddexp_ge := Rleb_logaddexp |}.

(** *** Integer scores: log-probabilities on a unit grid.

    For grid points [a], [b] the value [ln (exp a + exp b)] lies in
    [[max a b, max a b + ln 2]], so rounded down to the grid it is
    [max a b]. *)

Lemma Zleb_total a b : (a <=? b) = true \/ (b <=? a) = true.
Proof. rewrite !Z.leb_le; lia. Qed.

Lemma Zleb_trans a b c : (a <=? b) = true -> (b <=? c) = true -> (a <=? c) = true.
Proof. rewrite !Z.leb_le; lia. Qed.

Lemma Zsub_le a g : (0 <=? g) = true -> (a - g <=? a) = true.
Proof. rewrite !Z.leb_le; lia. Qed.

Lemma Zleb_max a b : (a <=? Z.max a b) = true.
Proof. rewrite Z.leb_le; lia. Qed.

#[export] Instance Score_Z : Score Z := {|
  s_zero := 0; s_add := Z.add; s_sub := Z.sub; s_mul := Z.mul;
  s_divn := Z.div;
  s_leb := Z.leb; s_logaddexp := Z.max;
  s_leb_total := Zleb_total; s_leb_trans := Zleb_trans;
  s_sub_le := Zsub_le; s_logaddexp_ge := Zleb_max |}.

(** ** Python and torch list primitives *)

Section Lists.
Context {A : Type}.

(** [l[i]] with Python's negative positions; [None] is [IndexError]. *)
Definition py_index (l : list A) (i : Z) : option A :=
  let n := Z.of_nat (length l) in
  if (0 <=? i) && (i <? n) then nth_error l (Z.to_nat i)
  else if (- n <=? i) && (i <? 0) then nth_error l (Z.to_nat (n + i))
  else None.

(** [l[:n]], for any integer [n]. *)
Definition py_take (n : Z) (l : list A) : list A :=
  if 0 <=? n then firstn (Z.to_nat n) l
  else firstn (length l - Z.to_nat (- n)) l.

(** [l[-1]]. *)
Definition py_last (l : list A) : option A := py_index l (-1).

(** [sorted(l, key=...)] is stable.  [le x y] says that [x] may stand
    before [y]; an element is inserted in front of the sorted rest, before
    the first element it may stand before, so equal keys keep their
    order.  [reverse=True] is the same sort with the comparison
    flipped (Python keeps the original order of equal keys there too). *)
Fixpoint insert_by (le : A -> A -> bool) (x : A) (l : list A) : list A :=
  match l with
  | [] => [x]
  | y :: r => if le x y then x :: y :: r else y :: insert_by le x r
  end.

Fixpoint sorted_by (le : A -> A -> bool) (l : list A) : list A :=
  match l with
  | [] => []
  | x :: r => insert_by le x (sorted_by le r)
  end.

(** [max(l, key=...)]: the first maximal element; [None] is the
    [ValueError] of an empty sequence.  [le x y] compares keys. *)
Fixpoint max_by (le : A -> A -> bool) (l : list A) : option A :=
  match l with
  | [] => None
  | x :: r =>
      match max_by le r with
      | None => Some x
      | Some m => if le m x then Some x else Some m
      end
  end.

(** [l.remove(max(l, key=...))]: the list without its first maximal
    element. *)
Fixpoint remove_max (le : A -> A -> bool) (l : list A) : list A :=
  match l with
  | [] => []
  | x :: r =>
      match max_by le r with
      | None => []
      | Some m => if le m x then r else x :: remove_max le r
      end
  end.
End Lists.

Section Topk.
Context {S : Type} `{Score S}.

Definition key_asc {A} (key : A -> S) (x y : A) : bool := s_leb (key x) (key y).
Definition key_desc {A} (key : A -> S) (x y : A) : bool := s_leb (key y) (key x).

(** [torch.topk(k)]: the [k] largest values, largest first, with their
    positions; [None] when [k] is out of range.  Ties are taken in
    position order (torch leaves the order of ties open). *)
Definition topk (k : Z) (l : list S) : option (list S * list nat) :=
  if (0 <=? k) && (k <=? Z.of_nat (length l)) then
    let best := firstn (Z.to_nat k)
                  (sorted_by (key_desc fst) (combine l (seq 0 (length l)))) in
    Some (map fst best, map snd best)
  else None.

(** [torch.max(v, dim=-1)]: a largest value and its position. *)
Definition argmax (l : list S) : option (S * nat) :=
  max_by (key_asc fst) (combine l (seq 0 (length l))).
End Topk.

(** Equality of token sequences, [==] on Python lists of integers. *)
Fixpoint seq_eqb (a b : list Z) : bool :=
  match a, b with
  | [], [] => true
  | x :: a', y :: b' => (x =? y) && seq_eqb a' b'
  | _, _ => false
  end.

(** Modelled from the spec: [is_prefix] of [rnnt_utils], which is imported
    by the decoder and not part of the sources at hand.  [pref] is a strict
    prefix of [x]. *)
Definition is_prefix (x pref : list Z) : bool :=
  (length pref <? length x)%nat && seq_eqb (firstn (length pref) x) pref.

(** ** The duration table *)

(** [durations.index(0)], [None] when [0] does not occur. *)
Fixpoint index_of_zero (durations : list Z) : option nat :=
  match durations with
  | [] => None
  | d :: r => if d =? 0 then Some 0%nat
              else match index_of_zero r with
                   | Some i => Some (Datatypes.S i)
                   | None => None
                   end
  end.

(** The range of numpy's [int64], the element type of an array made of
    Python integers. *)
Definition int64_min : Z := -9223372036854775808.
Definition int64_max : Z := 9223372036854775807.

(** A duration table numpy holds as an [int64] array. *)
Definition int64_table (durations : list Z) : Prop :=
  Forall (fun d => int64_min <= d <= int64_max) durations.

(** The value [argmin] sees for an entry of the masked table: a masked
    entry (a zero) is filled with the largest [int64]. *)
Definition masked_fill (d : Z) : Z := if d =? 0 then int64_max else d.

(** [np.argmin(np.ma.masked_where(durations == 0, durations))] over an
    [int64] table: the first position of the least filled value, with
    that value.  It is the position of the least non-zero duration, unless
    that duration is the largest [int64] and a zero stands before it; a
    table of zeros only answers position 0.  [None] is the [ValueError]
    on an empty table. *)
Fixpoint argmin_nonzero (durations : list Z) : option (nat * Z) :=
  match durations with
  | [] => None
  | d :: r =>
      match argmin_nonzero r with
      | None => Some (0%nat, masked_fill d)
      | Some (i, best) =>
          if masked_fill d <=? best then Some (0%nat, masked_fill d)
          else Some (Datatypes.S i, best)
      end
  end.

(** ** The decoder object and its constructor *)

(** [ModelLoadError] stands for what [kenlm.Model] raises on a file it
    cannot load. *)
Inductive PyError :=
  | ValueError
  | NotImplementedError
  | ImportError
  | ModelLoadError.

(** The method bound to [self.search_algorithm]. *)
Inductive SearchAlgorithm :=
  | GreedySearch
  | DefaultBeamSearch
  | ModifiedAdaptiveExpansionSearch.

(** The attributes [__init__] sets on [self] and the searches read.  The
    four [maes_...] attributes exist only on a maes decoder; only the maes
    search reads them.  [softmax_temperature] is part of the joint network
    as the searches see it. *)
Record BeamTDTInfer (S : Type) := mkBeamTDTInfer {
  durations : list Z;
  search_type : string;
  blank : Z;
  vocab_size : Z;
  return_best_hypothesis : bool;
  beam_size : Z;
  score_norm : bool;
  max_candidates : Z;
  tdt_duration_beam_size : Z;
  search_algorithm : SearchAlgorithm;
  maes_num_steps : Z;
  maes_prefix_alpha : Z;
  maes_expansion_beta : Z;
  maes_expansion_gamma : S;
  zero_duration_idx : option nat;
  min_non_zero_duration_idx : nat;
  (* [self.ngram_lm] is a loaded model or [None]; only its presence is read *)
  ngram_lm : bool;
  ngram_lm_alpha : S
}.

(** The arguments of [__init__]; [blank_idx] and [arg_vocab_size] are read
    from [decoder_model]. *)
Record InitArgs (S : Type) := mkInitArgs {
  arg_blank_idx : Z;
  arg_vocab_size : Z;
  arg_durations : list Z;
  arg_beam_size : Z;
  arg_search_type : string;
  arg_score_norm : bool;
  arg_return_best_hypothesis : bool;
  arg_maes_num_steps : Z;
  arg_maes_prefix_alpha : Z;
  arg_maes_expansion_gamma : S;
  arg_maes_expansion_beta : Z;
  arg_preserve_alignments : bool;
  arg_ngram_lm_model : option string;
  arg_ngram_lm_alpha : S
}.

(** Truth value of [ngram_lm_model]: [None] and the empty path are false. *)
Definition lm_given (p : option string) : bool :=
  match p with
  | None => false
  | Some s => negb (String.eqb s "")
  end.

(** The chain [if beam_size == 1 ... elif search_type == ... else raise]. *)
Definition choose_search (beam_size : Z) (search_type : string)
  : PyError + SearchAlgorithm :=
  if beam_size =? 1 then inr GreedySearch
  else if String.eqb search_type "default" then inr DefaultBeamSearch
  else if String.eqb search_type "tsd" then inl NotImplementedError
  else if String.eqb search_type "alsd" then inl NotImplementedError
  else if String.eqb search_type "nsc" then inl NotImplementedError
  else if String.eqb search_type "maes" then inr ModifiedAdaptiveExpansionSearch
  else inl NotImplementedError.

(** The checks under [if self.search_type == 'maes'], in their order. *)
Definition maes_checks {S} (a : InitArgs S) : option PyError :=
  if String.eqb (arg_search_type a) "maes" then
    if arg_maes_prefix_alpha a <? 0 then Some ValueError
    else if arg_vocab_size a <? arg_beam_size a + arg_maes_expansion_beta a
         then Some ValueError
    else if arg_maes_num_steps a <? 2 then Some ValueError
    else None
  else None.

(** The path handed to [kenlm.Model]. *)
Definition model_path (p : option string) : string :=
  match p with
  | Some s => s
  | None => ""
  end.

(** [__init__].  [KENLM_AVAILABLE] is the module flag set by the import of
    the LM library; [model_loads path] tells whether [kenlm.Model(path)]
    returns a model, and it raises otherwise.  The duration table is an
    [int64] table. *)
Definition init {S} (KENLM_AVAILABLE : bool) (model_loads : string -> bool)
           (a : InitArgs S)
  : PyError + BeamTDTInfer S :=
  if arg_preserve_alignments a then inl ValueError
  else if arg_beam_size a <? 1 then inl ValueError
  else
    match choose_search (arg_beam_size a) (arg_search_type a) with
    | inl e => inl e
    | inr alg =>
        match maes_checks a with
        | Some e => inl e
        | None =>
            match argmin_nonzero (arg_durations a) with
            | None => inl ValueError
            | Some (m, _) =>
                let lm := lm_given (arg_ngram_lm_model a) in
                if lm && negb (String.eqb (arg_search_type a) "maes")
                then inl ValueError
                else if lm && negb KENLM_AVAILABLE then inl ImportError
                else if lm && negb (model_loads
                                      (model_path (arg_ngram_lm_model a)))
                then inl ModelLoadError
                else inr {|
                  durations := arg_durations a;
                  search_type := arg_search_type a;
                  blank := arg_blank_idx a;
                  vocab_size := arg_vocab_size a;
                  return_best_hypothesis := arg_return_best_hypothesis a;
                  beam_size := arg_beam_size a;
                  score_norm := arg_score_norm a;
                  max_candidates :=
                    if String.eqb (arg_search_type a) "maes"
                    then arg_beam_size a + arg_maes_expansion_beta a
                    else arg_beam_size a;
                  tdt_duration_beam_size := 2;
                  search_algorithm := alg;
                  maes_num_steps := arg_maes_num_steps a;
                  maes_prefix_alpha := arg_maes_prefix_alpha a;
                  maes_expansion_beta := arg_maes_expansion_beta a;
                  maes_expansion_gamma := arg_maes_expansion_gamma a;
                  zero_duration_idx := index_of_zero (arg_durations a);
                  min_non_zero_duration_idx := m;
                  ngram_lm := lm;
                  ngram_lm_alpha := arg_ngram_lm_alpha a |}
            end
        end
    end.

(** The specification's list of fatal configurations: [beam_size < 1],
    [maes_num_steps < 2], [maes_prefix_alpha < 0], [V < beam + beta], a
    model path with a search other than maes, a model path without the
    library; and alignment preservation or a search type outside
    default/maes. *)
Definition listed_fatal {S} (KENLM_AVAILABLE : bool) (a : InitArgs S) : Prop :=
  arg_beam_size a < 1
  \/ arg_maes_num_steps a < 2
  \/ arg_maes_prefix_alpha a < 0
  \/ arg_vocab_size a < arg_beam_size a + arg_maes_expansion_beta a
  \/ (lm_given (arg_ngram_lm_model a) = true /\ arg_search_type a <> "maes"%string)
  \/ (lm_given (arg_ngram_lm_model a) = true /\ KENLM_AVAILABLE = false)
  \/ arg_preserve_alignments a = true
  \/ (arg_search_type a <> "default"%string /\ arg_search_type a <> "maes"%string).

(** What the constructor tests: the maes ranges only under [maes], the
    search type only when the beam is wider than one; and the model file
    has to load. *)
Definition fatal {S} (KENLM_AVAILABLE : bool) (model_loads : string -> bool)
           (a : InitArgs S) : Prop :=
  arg_preserve_alignments a = true
  \/ arg_beam_size a < 1
  \/ (arg_beam_size a <> 1
      /\ arg_search_type a <> "default"%string /\ arg_search_type a <> "maes"%string)
  \/ (arg_search_type a = "maes"%string
      /\ (arg_maes_prefix_alpha a < 0
          \/ arg_vocab_size a < arg_beam_size a + arg_maes_expansion_beta a
          \/ arg_maes_num_steps a < 2))
  \/ (lm_given (arg_ngram_lm_model a) = true
      /\ (arg_search_type a <> "maes"%string
          \/ KENLM_AVAILABLE = false
          \/ model_loads (model_path (arg_ngram_lm_model a)) = false)).

Definition raises {E A} (r : E + A) : Prop := exists e, r = inl e.

(** ** Hypotheses and the search procedures *)

(** What a search either gives back, raises, or fails to reach within the
    allotted number of iterations of its [while] loop. *)
Inductive Outcome (A : Type) :=
  | Returns (a : A)
  | Raises
  | OutOfFuel.
Arguments Raises {A}.
Arguments OutOfFuel {A}.

Definition outcome_map {A B} (f : A -> B) (o : Outcome A) : Outcome B :=
  match o with
  | Returns a => Returns (f a)
  | Raises => Raises
  | OutOfFuel => OutOfFuel
  end.

Section Decoding.
Context {S : Type} {SC : Score S}.

(** Opaque values of the neural modules: predictor state, predictor
    output, N-gram model state. *)
Variables DecState DecOut LMState : Type.

(** Modelled from the spec: the record [Hypothesis] of [rnnt_utils], which
    is imported by the decoder and not part of the sources at hand.  The
    fields are those the searches set: score, tokens, predictor state,
    cached predictor outputs, timesteps, length, last advanced frame and
    N-gram state. *)
Record Hyp := mkHyp {
  score : S;
  y_sequence : list Z;
  dec_state : DecState;
  dec_out : list DecOut;
  timestep : list Z;
  length_ : Z;
  last_frame : Z;
  ngram_lm_state : option LMState
}.

Definition set_score (h : Hyp) (s : S) : Hyp :=
  mkHyp s (y_sequence h) (dec_state h) (dec_out h) (timestep h)
        (length_ h) (last_frame h) (ngram_lm_state h).

Variable self : BeamTDTInfer S.

(** [decoder.initialize_state]. *)
Variable initialize_state : DecState.
(** [decoder.score_hypothesis(hyp, cache)]: predictor output and new
    state.  The cache only saves recomputation.  The batched form scores
    each hypothesis of the batch the same way. *)
Variable score_hypothesis : Hyp -> DecOut * DecState.
(** [joint.joint(encoder_outputs[:, t], dec_out) / softmax_temperature]
    followed by the two [log_softmax]: token log-probabilities (blank
    included) and duration log-probabilities at frame [t]. *)
Variable joint : Z -> DecOut -> list S * list S.
(** [compute_ngram_score] over the loaded N-gram model. *)
Variable compute_ngram_score : LMState -> Z -> S * LMState.
(** The state written by [BeginSentenceWrite]. *)
Variable init_lm_state : LMState.

(** *** [remove_duplicate_hypotheses] *)

Definition same_key (a b : Hyp) : bool :=
  seq_eqb (y_sequence a) (y_sequence b) && (last_frame a =? last_frame b).

Definition is_present (kept_hyps : list Hyp) (hyp : Hyp) : bool :=
  existsb (fun kept_hyp => same_key kept_hyp hyp) kept_hyps.

Definition remove_duplicate_hypotheses (hypotheses : list Hyp) : list Hyp :=
  let sorted_hyps := sorted_by (key_desc score) hypotheses in
  fold_left
    (fun kept_hyps hyp =>
       if is_present kept_hyps hyp then kept_hyps else kept_hyps ++ [hyp])
    sorted_hyps [].

(** The key two duplicates share. *)
Definition hyp_key (h : Hyp) : list Z * Z := (y_sequence h, last_frame h).

(** The resolution in the words of the specification: going down the
    list, a hypothesis is retained when none of those [seen] so far has
    its key. *)
Fixpoint retain_first (seen l : list Hyp) : list Hyp :=
  match l with
  | [] => []
  | hyp :: r =>
      if is_present seen hyp then retain_first seen r
      else hyp :: retain_first (seen ++ [hyp]) r
  end.

(** The shape of a token sequence: the sentinel blank first and no blank
    after it. *)
Definition tokens_ok (y : list Z) : Prop :=
  exists tokens, y = blank self :: tokens /\ ~ In (blank self) tokens.

Definition hyp_ok (h : Hyp) : Prop := tokens_ok (y_sequence h).

(** *** [sort_nbest] *)

Definition sort_nbest (hyps : list Hyp) : list Hyp :=
  if score_norm self then
    sorted_by
      (key_desc (fun x => s_divn (score x) (Z.of_nat (length (y_sequence x)))))
      hyps
  else sorted_by (key_desc score) hyps.

(** *** [select_k_expansions_durations] *)

(** A candidate [(token, duration index, score)]. *)
Definition Expansion : Type := nat * nat * S.
Definition exp_score (x : Expansion) : S := snd x.

(** The two nested [for ... in zip(...)] loops filling [hyp_i]. *)
Definition candidates (hyp : Hyp) (idxs : list nat) (logps : list S)
           (duration_idxs : list nat) (duration_logps : list S)
  : list Expansion :=
  flat_map
    (fun il =>
       map (fun dl =>
              (fst il, fst dl, s_add (score hyp) (s_add (snd il) (snd dl))))
           (combine duration_idxs duration_logps))
    (combine idxs logps).

Definition within (gamma best_score : S) (x : Expansion) : bool :=
  s_leb (s_sub best_score gamma) (exp_score x).

(** The body of the loop over [hyps]. *)
Definition select_expansions (gamma : S) (hyp_i : list Expansion)
  : option (list Expansion) :=
  best_hyp_i <- max_by (key_asc exp_score) hyp_i ;;
  let best_score := exp_score best_hyp_i in
  Some (sorted_by (key_asc exp_score) (filter (within gamma best_score) hyp_i)).

Fixpoint select_k_expansions_durations
         (hyps : list Hyp) (topk_idxs : list (list nat))
         (topk_logps : list (list S)) (topk_duration_idxs : list (list nat))
         (topk_duration_logps : list (list S)) (gamma : S)
  : option (list (list Expansion)) :=
  match hyps with
  | [] => Some []
  | hyp :: hyps' =>
      match topk_idxs, topk_logps, topk_duration_idxs, topk_duration_logps with
      | idxs :: ti, logps :: tl, didxs :: tdi, dlogps :: tdl =>
          expansions <-
            select_expansions gamma (candidates hyp idxs logps didxs dlogps) ;;
          rest <- select_k_expansions_durations hyps' ti tl tdi tdl gamma ;;
          Some (expansions :: rest)
      | _, _, _, _ => None
      end
  end.

(** The candidate list of every hypothesis, row by row. *)
Fixpoint candidate_rows
         (hyps : list Hyp) (topk_idxs : list (list nat))
         (topk_logps : list (list S)) (topk_duration_idxs : list (list nat))
         (topk_duration_logps : list (list S))
  : list (list Expansion) :=
  match hyps, topk_idxs, topk_logps, topk_duration_idxs, topk_duration_logps with
  | hyp :: hyps', idxs :: ti, logps :: tl, didxs :: tdi, dlogps :: tdl =>
      candidates hyp idxs logps didxs dlogps :: candidate_rows hyps' ti tl tdi tdl
  | _, _, _, _, _ => []
  end.

(** The selection in the words of the specification: [out] holds the
    candidates of [cands] whose score is at least [M - gamma], for [M] the
    greatest score of a candidate, in ascending order of score. *)
Definition pruned_by_value (gamma : S) (cands out : list Expansion) : Prop :=
  exists best,
    In best cands
    /\ (forall c, In c cands -> s_leb (exp_score c) (exp_score best) = true)
    /\ Permutation out (filter (within gamma (exp_score best)) cands)
    /\ (forall c, In c out <->
                  In c cands
                  /\ s_leb (s_sub (exp_score best) gamma) (exp_score c) = true)
    /\ StronglySorted
         (fun a b => s_leb (exp_score a) (exp_score b) = true) out
    /\ (s_ltb s_zero gamma = true -> In best out).

(** *** [prefix_search] *)

(** Score of one token under the zero-duration assumption:
    [logp[token] + duration_logp[zero_duration_idx]] for the joint output
    of [d] at frame [t]. *)
Definition zero_duration_logp (t : Z) (d : DecOut) (token : Z) : option S :=
  let (logp, duration_logp) := joint t d in
  lp <- py_index logp token ;;
  z <- zero_duration_idx self ;;
  dz <- nth_error duration_logp z ;;
  Some (s_add lp dz).

(** The loop [for k in range(pref_hyp_length, curr_hyp_length - 1)],
    started at [k] for [n] rounds; it threads the running score and the
    N-gram state (used only with a model). *)
Fixpoint prefix_tail (t : Z) (curr_hyp : Hyp) (k : Z) (n : nat)
         (curr_score : S) (next_state : option LMState)
  : option S :=
  match n with
  | O => Some curr_score
  | Datatypes.S n' =>
      d <- py_index (dec_out curr_hyp) k ;;
      token <- py_index (y_sequence curr_hyp) (k + 1) ;;
      delta <- zero_duration_logp t d token ;;
      let curr_score := s_add curr_score delta in
      if ngram_lm self then
        st <- next_state ;;
        let (lm_score, st') := compute_ngram_score st token in
        prefix_tail t curr_hyp (k + 1) n'
                    (s_add curr_score (s_mul (ngram_lm_alpha self) lm_score))
                    (Some st')
      else prefix_tail t curr_hyp (k + 1) n' curr_score next_state
  end.

(** What the maes search maintains for the hypotheses it passes to the
    corrector: one predictor output per token, and tokens that are
    positions of the token log-probabilities. *)
Definition well_formed (h : Hyp) : Prop :=
  length (dec_out h) = length (y_sequence h)
  /\ y_sequence h <> []
  /\ forall token t d,
       In token (y_sequence h) -> py_index (fst (joint t d)) token <> None.

(** One pass of the inner loop body: [curr_hyp] against [pref_hyp]. *)
Definition prefix_update (t : Z) (prefix_alpha : Z) (curr_hyp pref_hyp : Hyp)
  : option Hyp :=
  let curr_hyp_length := Z.of_nat (length (y_sequence curr_hyp)) in
  let pref_hyp_length := Z.of_nat (length (y_sequence pref_hyp)) in
  if is_prefix (y_sequence curr_hyp) (y_sequence pref_hyp)
     && (curr_hyp_length - pref_hyp_length <=? prefix_alpha)
  then
    d <- py_last (dec_out pref_hyp) ;;
    token <- py_index (y_sequence curr_hyp) pref_hyp_length ;;
    delta <- zero_duration_logp t d token ;;
    let curr_score := s_add (score pref_hyp) delta in
    let rounds := Z.to_nat (curr_hyp_length - 1 - pref_hyp_length) in
    total <-
      (if ngram_lm self then
         st <- ngram_lm_state pref_hyp ;;
         let (lm_score, next_state) := compute_ngram_score st token in
         prefix_tail t curr_hyp pref_hyp_length rounds
                     (s_add curr_score (s_mul (ngram_lm_alpha self) lm_score))
                     (Some next_state)
       else prefix_tail t curr_hyp pref_hyp_length rounds curr_score None) ;;
    Some (set_score curr_hyp (s_logaddexp (score curr_hyp) total))
  else Some curr_hyp.

(** The inner loop [for pref_hyp in hypotheses[(curr_idx + 1):]]. *)
Fixpoint prefix_inner (t : Z) (prefix_alpha : Z) (curr_hyp : Hyp)
         (prefs : list Hyp) : option Hyp :=
  match prefs with
  | [] => Some curr_hyp
  | pref_hyp :: prefs' =>
      curr_hyp' <- prefix_update t prefix_alpha curr_hyp pref_hyp ;;
      prefix_inner t prefix_alpha curr_hyp' prefs'
  end.

(** The outer loop.  The list holds distinct objects; the scores are
    updated in place, each from the hypotheses after it, which the loop
    has not yet touched.  The last hypothesis has nothing after it. *)
Fixpoint prefix_search (hypotheses : list Hyp) (t : Z) (prefix_alpha : Z)
  : option (list Hyp) :=
  match hypotheses with
  | [] => Some []
  | curr_hyp :: rest =>
      curr_hyp' <- prefix_inner t prefix_alpha curr_hyp rest ;;
      rest' <- prefix_search rest t prefix_alpha ;;
      Some (curr_hyp' :: rest')
  end.

(** *** [default_beam_search] *)

Definition beam : Z := Z.min (beam_size self) (vocab_size self).
Definition beam_k : Z := Z.min beam (vocab_size self - 1).
Definition durations_beam_k : Z := Z.min beam (Z.of_nat (length (durations self))).

(** [logp[:-1]]. *)
Definition without_last (l : list S) : list S := removelast l.

(** [torch.cartesian_prod(a, b).sum(dim=-1)]. *)
Definition cartesian_sums (a b : list S) : list S :=
  flat_map (fun x => map (fun y => s_add x y) b) a.

(** The child of [max_hyp] for one selected (token, duration) pair: the
    body of the loop over [zip(sum_logp_topks, sum_logp_topk_idxs)]. *)
Definition nonblank_child (time_idx encoded_lengths : Z) (max_hyp : Hyp)
           (decoder_state : DecState)
           (logp_topk_idxs durations_logp_topk_idxs : list nat)
           (sum_logp_topk : S) (sum_logp_topk_idx : nat)
  : option (Hyp * Z) :=
  let token_idx := (sum_logp_topk_idx mod Z.to_nat beam_k)%nat in
  let duration_idx := (sum_logp_topk_idx / Z.to_nat beam_k)%nat in
  didx <- nth_error durations_logp_topk_idxs duration_idx ;;
  duration <- nth_error (durations self) didx ;;
  token <- nth_error logp_topk_idxs token_idx ;;
  Some (mkHyp (s_add (score max_hyp) sum_logp_topk)
              (y_sequence max_hyp ++ [Z.of_nat token])
              decoder_state
              (dec_out max_hyp)
              (timestep max_hyp ++ [time_idx + duration])
              encoded_lengths
              (last_frame max_hyp + duration)
              (ngram_lm_state max_hyp),
        duration).

Fixpoint nonblank_loop (time_idx encoded_lengths : Z) (max_hyp : Hyp)
         (decoder_state : DecState)
         (logp_topk_idxs durations_logp_topk_idxs : list nat)
         (pairs : list (S * nat)) (hyps kept_hyps : list Hyp)
  : option (list Hyp * list Hyp) :=
  match pairs with
  | [] => Some (hyps, kept_hyps)
  | (sum_logp_topk, sum_logp_topk_idx) :: pairs' =>
      '(new_hyp, duration) <-
        nonblank_child time_idx encoded_lengths max_hyp decoder_state
                       logp_topk_idxs durations_logp_topk_idxs
                       sum_logp_topk sum_logp_topk_idx ;;
      if duration =? 0 then
        nonblank_loop time_idx encoded_lengths max_hyp decoder_state
                      logp_topk_idxs durations_logp_topk_idxs pairs'
                      (hyps ++ [new_hyp]) kept_hyps
      else
        nonblank_loop time_idx encoded_lengths max_hyp decoder_state
                      logp_topk_idxs durations_logp_topk_idxs pairs'
                      hyps (kept_hyps ++ [new_hyp])
  end.

Definition is_zero_idx (duration_idx : nat) : bool :=
  match zero_duration_idx self with
  | Some z => Nat.eqb duration_idx z
  | None => false
  end.

(** The duration index a blank child of the default search is built
    with: [None] is the [continue]. *)
Definition blank_duration_idx (topk_size : nat) (duration_idx : nat)
  : option nat :=
  if is_zero_idx duration_idx then
    if Nat.eqb topk_size 1 then Some (min_non_zero_duration_idx self)
    else None
  else Some duration_idx.

Definition blank_child (encoded_lengths : Z) (max_hyp : Hyp)
           (logp durations_logp : list S) (duration_idx : nat)
  : option Hyp :=
  duration <- nth_error (durations self) duration_idx ;;
  lb <- py_index logp (blank self) ;;
  ld <- nth_error durations_logp duration_idx ;;
  Some (mkHyp (s_add (s_add (score max_hyp) lb) ld)
              (y_sequence max_hyp)
              (dec_state max_hyp)
              (dec_out max_hyp)
              (timestep max_hyp)
              encoded_lengths
              (last_frame max_hyp + duration)
              (ngram_lm_state max_hyp)).

(** The loop [for duration_idx in durations_logp_topk_idxs]. *)
Fixpoint blank_loop (encoded_lengths : Z) (max_hyp : Hyp)
         (logp durations_logp : list S) (topk_size : nat)
         (idxs : list nat) (kept_hyps : list Hyp) : option (list Hyp) :=
  match idxs with
  | [] => Some kept_hyps
  | duration_idx :: idxs' =>
      match blank_duration_idx topk_size duration_idx with
      | None =>
          blank_loop encoded_lengths max_hyp logp durations_logp topk_size
                     idxs' kept_hyps
      | Some duration_idx' =>
          new_hyp <- blank_child encoded_lengths max_hyp logp durations_logp
                                 duration_idx' ;;
          blank_loop encoded_lengths max_hyp logp durations_logp topk_size
                     idxs' (kept_hyps ++ [new_hyp])
      end
  end.

(** The end of the [while] body, from [if (len(hyps) > 0)]: the new
    [kept_hyps] and whether the loop is left by [break]. *)
Definition termination_check (hyps kept_hyps : list Hyp) : list Hyp * bool :=
  match max_by (key_asc score) hyps with
  | Some best =>
      let hyps_max := score best in
      let kept_most_prob :=
        sorted_by (key_asc score)
                  (filter (fun hyp => s_ltb hyps_max (score hyp)) kept_hyps) in
      if beam <=? Z.of_nat (length kept_most_prob)
      then (kept_most_prob, true)
      else (kept_hyps, false)
  | None => (py_take beam (sorted_by (key_desc score) kept_hyps), false)
  end.

(** One round of [while len(hyps) > 0]. *)
Definition default_expand (time_idx encoded_lengths : Z)
           (hyps kept_hyps : list Hyp)
  : option (list Hyp * list Hyp * bool) :=
  max_hyp <- max_by (key_asc score) hyps ;;
  let hyps := remove_max (key_asc score) hyps in
  let (decoder_output, decoder_state) := score_hypothesis max_hyp in
  let (logp, durations_logp) := joint time_idx decoder_output in
  '(logp_topks, logp_topk_idxs) <- topk beam_k (without_last logp) ;;
  '(durations_logp_topks, durations_logp_topk_idxs) <-
    topk durations_beam_k durations_logp ;;
  '(sum_logp_topks, sum_logp_topk_idxs) <-
    topk beam_k (cartesian_sums durations_logp_topks logp_topks) ;;
  '(hyps, kept_hyps) <-
    nonblank_loop time_idx encoded_lengths max_hyp decoder_state
                  logp_topk_idxs durations_logp_topk_idxs
                  (combine sum_logp_topks sum_logp_topk_idxs)
                  hyps kept_hyps ;;
  kept_hyps <-
    blank_loop encoded_lengths max_hyp logp durations_logp
               (length durations_logp_topk_idxs)
               durations_logp_topk_idxs kept_hyps ;;
  let kept_hyps := remove_duplicate_hypotheses kept_hyps in
  let (kept_hyps, stop) := termination_check hyps kept_hyps in
  Some (hyps, kept_hyps, stop).

(** The [while] loop; the flag tells whether it was left by [break]. *)
Fixpoint default_while (fuel : nat) (time_idx encoded_lengths : Z)
         (hyps kept_hyps : list Hyp) : Outcome (list Hyp * bool) :=
  match hyps with
  | [] => Returns (kept_hyps, false)
  | _ :: _ =>
      match fuel with
      | O => OutOfFuel
      | Datatypes.S fuel' =>
          match default_expand time_idx encoded_lengths hyps kept_hyps with
          | None => Raises
          | Some (hyps', kept_hyps', stop) =>
              if stop then Returns (kept_hyps', true)
              else default_while fuel' time_idx encoded_lengths hyps' kept_hyps'
          end
      end
  end.

(** The body of [for time_idx in range(int(encoded_lengths))]. *)
Definition default_frame (fuel : nat) (encoded_lengths : Z)
           (kept_hyps : list Hyp) (time_idx : Z) : Outcome (list Hyp) :=
  let hyps := filter (fun hyp => last_frame hyp =? time_idx) kept_hyps in
  let kept_hyps := filter (fun hyp => time_idx <? last_frame hyp) kept_hyps in
  outcome_map fst (default_while fuel time_idx encoded_lengths hyps kept_hyps).

(** A [for] loop over frames whose body may raise or run out of fuel. *)
Fixpoint frames (body : list Hyp -> Z -> Outcome (list Hyp))
         (ts : list Z) (kept_hyps : list Hyp) : Outcome (list Hyp) :=
  match ts with
  | [] => Returns kept_hyps
  | t :: ts' =>
      match body kept_hyps t with
      | Returns kept_hyps' => frames body ts' kept_hyps'
      | Raises => Raises
      | OutOfFuel => OutOfFuel
      end
  end.

(** [range(n)]. *)
Definition range (n : Z) : list Z := map Z.of_nat (seq 0 (Z.to_nat n)).

Definition default_start_hyp : Hyp :=
  mkHyp s_zero [blank self] initialize_state [] [-1] 0 0 None.

Definition default_beam_search (fuel : nat) (encoded_lengths : Z)
  : Outcome (list Hyp) :=
  outcome_map sort_nbest
    (frames (default_frame fuel encoded_lengths) (range encoded_lengths)
            [default_start_hyp]).

(** *** [modified_adaptive_expansion_search] *)

(** Truth value of [self.zero_duration_idx]: [None] and [0] are false. *)
Definition zero_duration_idx_truthy : bool :=
  match zero_duration_idx self with
  | Some (Datatypes.S _) => true
  | _ => false
  end.

(** The duration index an expansion of round [n] is built with. *)
Definition maes_duration_idx (k duration_idx : nat) : nat :=
  if (Z.of_nat k =? blank self) && zero_duration_idx_truthy
     && is_zero_idx duration_idx
  then min_non_zero_duration_idx self
  else duration_idx.

(** The three lists an expansion is appended to. *)
Record Buckets := mkBuckets {
  list_b : list Hyp;
  list_nb : list Hyp;
  list_exp : list Hyp
}.

Definition buckets_ok (b : Buckets) : Prop :=
  Forall hyp_ok (list_b b)
  /\ Forall hyp_ok (list_nb b)
  /\ Forall hyp_ok (list_exp b).

(** [x in l] for a list of token sequences. *)
Definition seq_in (x : list Z) (l : list (list Z)) : bool :=
  existsb (seq_eqb x) l.

(** The body of [for k, duration_idx, new_score in k_expansions[i]];
    [beam_logp_i] and [beam_duration_logp_i] are row [i] of the
    log-probabilities. *)
Definition maes_expand_one (t : Z) (duplication_check : list (list Z))
           (hyp : Hyp) (beam_logp_i beam_duration_logp_i : list S)
           (x : Expansion) (b : Buckets) : option Buckets :=
  let '(k, duration_idx, new_score) := x in
  let duration_idx := maes_duration_idx k duration_idx in
  duration <- nth_error (durations self) duration_idx ;;
  let new_hyp :=
    mkHyp new_score (y_sequence hyp) (dec_state hyp) (dec_out hyp)
          (timestep hyp) t (last_frame hyp + duration)
          (if ngram_lm self then ngram_lm_state hyp else None) in
  if Z.of_nat k =? blank self then
    if ngram_lm self then
      lb <- py_index beam_logp_i (blank self) ;;
      ld <- nth_error beam_duration_logp_i duration_idx ;;
      let new_hyp :=
        set_score new_hyp
          (s_add (score new_hyp) (s_mul (ngram_lm_alpha self) (s_add lb ld))) in
      Some (mkBuckets (list_b b ++ [new_hyp]) (list_nb b) (list_exp b))
    else Some (mkBuckets (list_b b ++ [new_hyp]) (list_nb b) (list_exp b))
  else
    let appended :=
      mkHyp (score new_hyp) (y_sequence new_hyp ++ [Z.of_nat k])
            (dec_state new_hyp) (dec_out new_hyp) (timestep new_hyp ++ [t])
            (length_ new_hyp) (last_frame new_hyp) (ngram_lm_state new_hyp) in
    new_hyp <-
      (if ngram_lm self then
         st <- ngram_lm_state hyp ;;
         let (lm_score, st') := compute_ngram_score st (Z.of_nat k) in
         Some (mkHyp (s_add (score appended)
                            (s_mul (ngram_lm_alpha self) lm_score))
                     (y_sequence appended) (dec_state appended)
                     (dec_out appended) (timestep appended)
                     (length_ appended) (last_frame appended) (Some st'))
       else Some appended) ;;
    if (duration =? 0)
       && negb (seq_in (y_sequence new_hyp ++ [Z.of_nat k]) duplication_check)
    then Some (mkBuckets (list_b b) (list_nb b) (list_exp b ++ [new_hyp]))
    else Some (mkBuckets (list_b b) (list_nb b ++ [new_hyp]) (list_exp b)).

Fixpoint maes_expand_hyp (t : Z) (duplication_check : list (list Z))
         (hyp : Hyp) (beam_logp_i beam_duration_logp_i : list S)
         (xs : list Expansion) (b : Buckets) : option Buckets :=
  match xs with
  | [] => Some b
  | x :: xs' =>
      b' <- maes_expand_one t duplication_check hyp beam_logp_i
                            beam_duration_logp_i x b ;;
      maes_expand_hyp t duplication_check hyp beam_logp_i
                      beam_duration_logp_i xs' b'
  end.

(** The loop [for i, hyp in enumerate(hyps)] over the rows. *)
Fixpoint maes_expand_all (t : Z) (duplication_check : list (list Z))
         (rows : list (Hyp * (list S * list S) * list Expansion))
         (b : Buckets) : option Buckets :=
  match rows with
  | [] => Some b
  | (hyp, (beam_logp_i, beam_duration_logp_i), xs) :: rows' =>
      b' <- maes_expand_hyp t duplication_check hyp beam_logp_i
                            beam_duration_logp_i xs b ;;
      maes_expand_all t duplication_check rows' b'
  end.

(** [torch.stack] of a list of tensors; it raises on an empty list. *)
Definition stack {A : Type} (l : list A) : option (list A) :=
  match l with
  | [] => None
  | _ :: _ => Some l
  end.

(** Row of the joint output for one hypothesis: [h.dec_out[-1]] through
    the joint network. *)
Definition joint_row (t : Z) (h : Hyp) : option (list S * list S) :=
  d <- py_last (dec_out h) ;;
  Some (joint t d).

(** The refresh of [hyps_to_update]: the new predictor output is appended
    and the state replaced, in place. *)
Definition update_hyp (hyp : Hyp) : Hyp :=
  let (out, st) := score_hypothesis hyp in
  mkHyp (score hyp) (y_sequence hyp) st (dec_out hyp ++ [out]) (timestep hyp)
        (length_ hyp) (last_frame hyp) (ngram_lm_state hyp).

(** The blank score added to an expansion left over by the last round. *)
Definition close_expansion (t : Z) (hyp : Hyp) : option Hyp :=
  '(beam_logp_i, beam_duration_logp_i) <- joint_row t hyp ;;
  '(_, beam_max_duration_idx) <- argmax beam_duration_logp_i ;;
  let duration_idx :=
    if is_zero_idx beam_max_duration_idx then min_non_zero_duration_idx self
    else beam_max_duration_idx in
  lb <- py_index beam_logp_i (blank self) ;;
  ld <- nth_error beam_duration_logp_i duration_idx ;;
  duration <- nth_error (durations self) duration_idx ;;
  Some (mkHyp (s_add (score hyp) (s_add lb ld)) (y_sequence hyp)
              (dec_state hyp) (dec_out hyp) (timestep hyp) (length_ hyp)
              (last_frame hyp + duration) (ngram_lm_state hyp)).

(** [sorted(remove_duplicate_hypotheses(l), key=score, reverse=True)[:beam]]. *)
Definition keep_best (l : list Hyp) : list Hyp :=
  py_take beam (sorted_by (key_desc score) (remove_duplicate_hypotheses l)).

(** The loop [for n in range(self.maes_num_steps)], with [left] rounds to
    go from round [n]. *)
Fixpoint maes_rounds (left : nat) (n : Z) (t : Z)
         (duplication_check : list (list Z))
         (hyps list_b0 list_nb0 kept_hyps : list Hyp) : option (list Hyp) :=
  match left with
  | O => Some kept_hyps
  | Datatypes.S left' =>
      _ <- stack hyps ;;
      beam_rows <- mapM (joint_row t) hyps ;;
      tok <- mapM (fun r => topk (max_candidates self) (fst r)) beam_rows ;;
      dur <- mapM (fun r => topk (tdt_duration_beam_size self) (snd r))
                  beam_rows ;;
      k_expansions <-
        select_k_expansions_durations hyps (map snd tok) (map fst tok)
          (map snd dur) (map fst dur) (maes_expansion_gamma self) ;;
      b <- maes_expand_all t duplication_check
             (combine (combine hyps beam_rows) k_expansions)
             (mkBuckets list_b0 list_nb0 []) ;;
      let list_nb1 := map update_hyp (list_nb b) in
      let list_exp1 := map update_hyp (list_exp b) in
      match list_exp1 with
      | [] => Some (keep_best (kept_hyps ++ list_b b ++ list_nb1))
      | _ :: _ =>
          if n <? maes_num_steps self - 1 then
            maes_rounds left' (n + 1) t duplication_check
                        (remove_duplicate_hypotheses list_exp1)
                        (list_b b) list_nb1 kept_hyps
          else
            (* the last round: [range] is exhausted after it *)
            closed <- mapM (close_expansion t) list_exp1 ;;
            Some (keep_best (kept_hyps ++ list_b b ++ closed ++ list_nb1))
      end
  end.

(** [key=lambda x: len(x.y_sequence), reverse=True]. *)
Definition longer_first (x y : Hyp) : bool :=
  (length (y_sequence y) <=? length (y_sequence x))%nat.

(** The body of [for t in range(encoded_lengths)]. *)
Definition maes_frame (kept_hyps : list Hyp) (t : Z) : option (list Hyp) :=
  let hyps := filter (fun x => last_frame x =? t) kept_hyps in
  let kept_hyps := filter (fun x => t <? last_frame x) kept_hyps in
  match hyps with
  | [] => Some kept_hyps
  | _ :: _ =>
      hyps <-
        (match zero_duration_idx self with
         | Some _ =>
             prefix_search
               (sorted_by longer_first hyps) t (maes_prefix_alpha self)
         | None => Some hyps
         end) ;;
      let duplication_check := map y_sequence hyps in
      maes_rounds (Z.to_nat (maes_num_steps self)) 0 t duplication_check
                  hyps [] [] kept_hyps
  end.

Definition maes_start_hyp : Hyp :=
  let start_hyp :=
    mkHyp s_zero [blank self] initialize_state [] [-1] 0 0 None in
  let (beam_decoder_output, state) := score_hypothesis start_hyp in
  mkHyp s_zero [blank self] state [beam_decoder_output] [-1] 0 0
        (if ngram_lm self then Some init_lm_state else None).

Definition modified_adaptive_expansion_search (encoded_lengths : Z)
  : Outcome (list Hyp) :=
  outcome_map sort_nbest
    (frames (fun kept_hyps t =>
               match maes_frame kept_hyps t with
               | Some kept_hyps' => Returns kept_hyps'
               | None => Raises
               end)
            (range encoded_lengths) [maes_start_hyp]).

(** [greedy_search] raises [NotImplementedError]. *)
Definition greedy_search (encoded_lengths : Z) : Outcome (list Hyp) := Raises.

(** The call [self.search_algorithm(inseq, logitlen, ...)]. *)
Definition run_search (fuel : nat) (encoded_lengths : Z) : Outcome (list Hyp) :=
  match search_algorithm self with
  | GreedySearch => greedy_search encoded_lengths
  | DefaultBeamSearch => default_beam_search fuel encoded_lengths
  | ModifiedAdaptiveExpansionSearch =>
      modified_adaptive_expansion_search encoded_lengths
  end.
End Decoding.

Arguments Hyp : clear implicits.
Arguments score {S DecState DecOut LMState} h.
Arguments y_sequence {S DecState DecOut LMState} h.
Arguments dec_state {S DecState DecOut LMState} h.
Arguments dec_out {S DecState DecOut LMState} h.
Arguments timestep {S DecState DecOut LMState} h.
Arguments length_ {S DecState DecOut LMState} h.
Arguments last_frame {S DecState DecOut LMState} h.
Arguments ngram_lm_state {S DecState DecOut LMState} h.
Arguments Expansion : clear implicits.
Arguments Buckets : clear implicits.
Arguments exp_score {S} x.
Arguments hyp_key {S DecState DecOut LMState} h.
Arguments same_key {S DecState DecOut LMState} a b.

(** ** The corrected score in the words of the specification *)

Section PrefixSpec.
Variables DecState DecOut LMState : Type.
Variable self : BeamTDTInfer R.
Variable joint : Z -> DecOut -> list R * list R.
Variable compute_ngram_score : LMState -> Z -> R * LMState.







End PrefixSpec.

(** ** The entry point [__call__] *)

(** The [training] flags of the two modules. *)
Record Modules := mkModules {
  decoder_training : bool;
  joint_training : bool
}.

(** [module.train(mode)] and [module.eval()] on the two modules. *)
Definition decoder_train (mode : bool) (m : Modules) : Modules :=
  mkModules mode (joint_training m).
Definition joint_train (mode : bool) (m : Modules) : Modules :=
  mkModules (decoder_training m) mode.
Definition decoder_eval : Modules -> Modules := decoder_train false.
Definition joint_eval : Modules -> Modules := joint_train false.

Section Call.
Context {S : Type} {SC : Score S}.
Variables DecState DecOut LMState : Type.
Variable self : BeamTDTInfer S.
Variable initialize_state : DecState.
Variable score_hypothesis : @Hyp S DecState DecOut LMState -> DecOut * DecState.
Variable compute_ngram_score : LMState -> Z -> S * LMState.
Variable init_lm_state : LMState.
(** [pack_hypotheses] of [rnnt_beam_decoding], imported by the decoder. *)
Variable pack_hypotheses :
  list (@Hyp S DecState DecOut LMState) -> list (@Hyp S DecState DecOut LMState).

(** One utterance of the batch: its encoder output, seen through the
    joint network, and its length. *)
Record Sample := mkSample {
  sample_joint : Z -> DecOut -> list S * list S;
  logitlen : Z
}.

Inductive Packed :=
  | Best (h : @Hyp S DecState DecOut LMState)
  | NBestHypotheses (l : list (@Hyp S DecState DecOut LMState)).

(** The body of [for batch_idx in idx_gen]. *)
Definition decode_sample (fuel : nat) (x : Sample) : Outcome Packed :=
  match run_search self initialize_state score_hypothesis (sample_joint x)
                   compute_ngram_score init_lm_state fuel (logitlen x) with
  | Returns nbest_hyps =>
      let nbest_hyps := pack_hypotheses nbest_hyps in
      if return_best_hypothesis self then
        match nbest_hyps with
        | best_hypothesis :: _ => Returns (Best best_hypothesis)
        | [] => Raises
        end
      else Returns (NBestHypotheses nbest_hyps)
  | Raises => Raises
  | OutOfFuel => OutOfFuel
  end.

Fixpoint decode_batch (fuel : nat) (batch : list Sample)
  : Outcome (list Packed) :=
  match batch with
  | [] => Returns []
  | x :: batch' =>
      match decode_sample fuel x with
      | Returns best_hypothesis =>
          outcome_map (cons best_hypothesis) (decode_batch fuel batch')
      | Raises => Raises
      | OutOfFuel => OutOfFuel
      end
  end.

(** [__call__]: the result and the flags it leaves behind.  An exception
    leaves the method at the point where it is raised, so the two
    restoring calls after the [with] block are not reached. *)
Definition call (fuel : nat) (m : Modules) (batch : list Sample)
  : Outcome (list Packed) * Modules :=
  let decoder_training_state := decoder_training m in
  let joint_training_state := joint_training m in
  let m := joint_eval (decoder_eval m) in
  match decode_batch fuel batch with
  | Returns hypotheses =>
      (Returns hypotheses,
       joint_train joint_training_state
                   (decoder_train decoder_training_state m))
  | Raises => (Raises, m)
  | OutOfFuel => (OutOfFuel, m)
  end.
End Call.

(** ** Duration tables *)

(** A table of distinct non-negative durations below the largest [int64],
    with a non-zero one, as the tables of TDT models are
    ([0, 1, 2, 3, 4]). *)
Definition plain_durations (D : list Z) : Prop :=
  Forall (fun d => 0 <= d < int64_max) D
  /\ NoDup D /\ exists d, In d D /\ d <> 0.

(** ** The N-gram scorer *)

Module NgramLM.
(** The word a label is scored as: [chr(label + token_offset)], a string
    of one character, or [str(label)], the decimal numeral. *)
Inductive Word :=
  | Chr (codepoint : Z)
  | Str (n : Z).

(** [set_decoding_type]: only ['subword'] changes the offset.
    [DEFAULT_TOKEN_OFFSET] is a constant of [ctc_beam_decoding]. *)
Definition set_decoding_type (DEFAULT_TOKEN_OFFSET token_offset : Z)
           (decoding_type : string) : Z :=
  if String.eqb decoding_type "subword" then DEFAULT_TOKEN_OFFSET
  else token_offset.

(** The label of [compute_ngram_score]; [chr] raises [ValueError] outside
    [range(0x110000)]. *)
Definition word_of (token_offset label : Z) : option Word :=
  if token_offset =? 0 then Some (Str label)
  else if (0 <=? label + token_offset) && (label + token_offset <? 1114112)
       then Some (Chr (label + token_offset))
       else None.

(** [np.log10]. *)
Definition log10 (x : R) : R := (ln x / ln 10)%R.

(** [compute_ngram_score] over real scores.  [BaseScore] is the method of
    the loaded model: the log10 score of the word and the state after
    it. *)
Definition compute_ngram_score {LMState : Type}
           (BaseScore : LMState -> Word -> R * LMState)
           (token_offset : Z) (current_lm_state : LMState) (label : Z)
  : option (R * LMState) :=
  word <- word_of token_offset label ;;
  let (lm_score, next_state) := BaseScore current_lm_state word in
  Some ((lm_score * (1 / log10 (exp 1)))%R, next_state).
End NgramLM.

(** ** Shapes of a hypothesis *)

(** One timestep per token. *)
Definition aligned {S DecState DecOut LMState : Type}
           (h : Hyp S DecState DecOut LMState) : Prop :=
  length (timestep h) = length (y_sequence h).

(** At least one token, and at least one cached predictor output per
    token. *)
Definition cached {S DecState DecOut LMState : Type}
           (h : Hyp S DecState DecOut LMState) : Prop :=
  (1 <= length (y_sequence h) <= length (dec_out h))%nat.

(** What the maes search indexes by: cached outputs as above, and tokens
    that are positions of a vector of [n] token log-probabilities. *)
Definition indexable {S DecState DecOut LMState : Type} (n : nat)
           (h : Hyp S DecState DecOut LMState) : Prop :=
  cached h
  /\ Forall (fun token => - Z.of_nat n <= token < Z.of_nat n) (y_sequence h).

(** The same for a non-blank expansion whose predictor output is still to
    be appended. *)
Definition indexable_pending {S DecState DecOut LMState : Type} (n : nat)
           (h : Hyp S DecState DecOut LMState) : Prop :=
  (1 <= length (y_sequence h) <= length (dec_out h) + 1)%nat
  /\ Forall (fun token => - Z.of_nat n <= token < Z.of_nat n) (y_sequence h).

(** ** Concrete decoders and inputs *)

Module Examples.
(** [BeamTDTInfer(decoder, joint, durations=[0, 1, 2], beam_size=4,
    search_type='default', maes_num_steps=1)] over a vocabulary of 1024
    tokens, the other arguments at their defaults. *)
Definition args_default_one_step : InitArgs Z :=
  mkInitArgs 1024 1024 [0; 1; 2] 4 "default" true true 1 1 2 2 false None 0.

(** The same call with [search_type='maes']. *)
Definition args_maes_one_step : InitArgs Z :=
  mkInitArgs 1024 1024 [0; 1; 2] 4 "maes" true true 1 1 2 2 false None 0.

(** A file system where every model file loads, and one where none
    does. *)
Definition every_model_loads (path : string) : bool := true.
Definition no_model_loads (path : string) : bool := false.

(** [BeamTDTInfer(..., search_type='maes', ngram_lm_model='lm.bin')] with
    the library present. *)
Definition args_unreadable_model : InitArgs Z :=
  mkInitArgs 1024 1024 [0; 1; 2] 4 "maes" true true 2 1 2 2 false
             (Some "lm.bin"%string) 0.

(** Hypotheses over integer scores, with trivial module values. *)
Definition ZHyp : Type := @Hyp Z unit unit unit.
Definition no_decoder (h : ZHyp) : unit * unit := (tt, tt).
Definition no_lm (st : unit) (token : Z) : Z * unit := (0, tt).

(** What is compared when a run is checked: score, tokens, frame. *)
Definition view (h : ZHyp) : Z * list Z * Z :=
  (score h, y_sequence h, last_frame h).

(** A decoder as [__init__] leaves it: four tokens [0..3], blank id 4,
    durations [0, 1, 2], beam of three. *)
Definition decoder3 (search : string) (alg : SearchAlgorithm)
  : BeamTDTInfer Z :=
  {| durations := [0; 1; 2]; search_type := search; blank := 4;
     vocab_size := 4; return_best_hypothesis := true; beam_size := 3;
     score_norm := false;
     max_candidates := 3; tdt_duration_beam_size := 2;
     search_algorithm := alg;
     maes_num_steps := 2; maes_prefix_alpha := 1; maes_expansion_beta := 0;
     maes_expansion_gamma := 2;
     zero_duration_idx := Some 0%nat; min_non_zero_duration_idx := 1%nat;
     ngram_lm := false; ngram_lm_alpha := 0 |}.

Definition default3 : BeamTDTInfer Z := decoder3 "default" DefaultBeamSearch.
Definition maes3 : BeamTDTInfer Z :=
  decoder3 "maes" ModifiedAdaptiveExpansionSearch.

(** The same parameters with a beam of one: [__init__] binds
    [greedy_search]. *)
Definition greedy1 : BeamTDTInfer Z :=
  {| durations := [0; 1; 2]; search_type := "default"; blank := 4;
     vocab_size := 4; return_best_hypothesis := true; beam_size := 1;
     score_norm := false;
     max_candidates := 1; tdt_duration_beam_size := 2;
     search_algorithm := GreedySearch;
     maes_num_steps := 2; maes_prefix_alpha := 1; maes_expansion_beta := 2;
     maes_expansion_gamma := 2;
     zero_duration_idx := Some 0%nat; min_non_zero_duration_idx := 1%nat;
     ngram_lm := false; ngram_lm_alpha := 0 |}.

(** A joint network that answers the same at every frame: token 0 and
    the blank are likely, duration 1 is preferred to 2 and 2 to 0. *)
Definition joint_flat (t : Z) (d : unit) : list Z * list Z :=
  ([-1; -10; -10; -10; -1], [-3; -1; -2]).

(** An utterance of one frame. *)
Definition one_frame : @Sample Z unit := mkSample joint_flat 1.

Definition both_training : Modules := mkModules true true.

(** A hypothesis of score 0 with five candidate tokens of scores -10,
    -12, -14, -17, -20 and one duration; the margin is 5. *)
Definition start : ZHyp := mkHyp 0 [4] tt [tt] [-1] 0 0 None.
Definition five_idxs : list nat := [0; 1; 2; 3; 4]%nat.
Definition five_logps : list Z := [-10; -12; -14; -17; -20].

(** Real scores: the decoder of [maes3], a joint network that gives every
    token and every duration the log-probability -1, and two hypotheses
    of the same frame, the second a prefix of the first. *)
Definition maesR : BeamTDTInfer R :=
  {| durations := [0; 1; 2]; search_type := "maes"; blank := 4;
     vocab_size := 4; return_best_hypothesis := true; beam_size := 3;
     score_norm := false;
     max_candidates := 3; tdt_duration_beam_size := 2;
     search_algorithm := ModifiedAdaptiveExpansionSearch;
     maes_num_steps := 2; maes_prefix_alpha := 1; maes_expansion_beta := 0;
     maes_expansion_gamma := 2%R;
     zero_duration_idx := Some 0%nat; min_non_zero_duration_idx := 1%nat;
     ngram_lm := false; ngram_lm_alpha := 0%R |}.
Definition joint_even (t : Z) (d : unit) : list R * list R :=
  ([-1; -1; -1; -1; -1]%R, [-1; -1; -1]%R).
Definition no_lmR (st : unit) (token : Z) : R * unit := (0%R, tt).
Definition shorter : Hyp R unit unit unit :=
  mkHyp (-2)%R [4; 1] tt [tt; tt] [-1; 0] 0 0 None.

(** A hypothesis two tokens longer than [shorter], and a joint network
    whose log-probabilities differ from token to token. *)
Definition longest : Hyp R unit unit unit :=
  mkHyp (-1)%R [4; 1; 2; 3] tt [tt; tt; tt; tt] [-1; 0; 0; 0] 0 0 None.
Definition joint_steps (t : Z) (d : unit) : list R * list R :=
  ([-1; -2; -3; -4; -5]%R, [-6; -7; -8]%R).


(** A joint network that prefers the blank and duration 0 at every
    frame. *)
Definition joint_blank (t : Z) (d : unit) : list Z * list Z :=
  ([-10; -10; -10; -10; -1], [-1; -2; -3]).

(** The start hypothesis of the maes search for [maes3]. *)
Definition maes_start : ZHyp := maes_start_hyp maes3 tt no_decoder tt.

(** Two hypotheses of frame 0, [[blank, 1]] and [[blank]], and their
    token sequences. *)
Definition hyp_b1 : ZHyp := mkHyp (-1) [4; 1] tt [tt; tt] [-1; 0] 0 0 None.
Definition hyp_b : ZHyp := mkHyp (-2) [4] tt [tt] [-1] 0 0 None.
Definition dup_check01 : list (list Z) := [[4; 1]; [4]].

(** A decoder whose blank id is 0, over two tokens, and a joint network
    that prefers position 0 and duration 1. *)
Definition blank_first : BeamTDTInfer Z :=
  {| durations := [0; 1]; search_type := "default"; blank := 0;
     vocab_size := 2; return_best_hypothesis := true; beam_size := 2;
     score_norm := false;
     max_candidates := 2; tdt_duration_beam_size := 2;
     search_algorithm := DefaultBeamSearch;
     maes_num_steps := 2; maes_prefix_alpha := 1; maes_expansion_beta := 2;
     maes_expansion_gamma := 2;
     zero_duration_idx := Some 0%nat; min_non_zero_duration_idx := 1%nat;
     ngram_lm := false; ngram_lm_alpha := 0 |}.
Definition joint_first (t : Z) (d : unit) : list Z * list Z :=
  ([-1; -2; -3], [-3; -1]).

(** A hypothesis given by score, tokens and frame. *)
Definition hyp_of (s : Z) (y : list Z) (frame : Z) : ZHyp :=
  mkHyp s y tt [] [] 1 frame None.

(** The two lists of the default search at frame 0 after the start
    hypothesis has been expanded under [joint_flat]: token 0 with duration
    0 stays in the current frame; token 0 and the blank, each with
    durations 1 and 2, wait for later frames. *)
Definition now3 : list ZHyp := [hyp_of (-4) [4; 0] 0].
Definition future3 : list ZHyp :=
  [hyp_of (-2) [4; 0] 1; hyp_of (-2) [4] 1;
   hyp_of (-3) [4; 0] 2; hyp_of (-3) [4] 2].

(** The constructor calls that build [default3], [maes3] and [greedy1]. *)
Definition args_default3 : InitArgs Z :=
  mkInitArgs 4 4 [0; 1; 2] 3 "default" false true 2 1 2 0 false None 0.
Definition args_maes3 : InitArgs Z :=
  mkInitArgs 4 4 [0; 1; 2] 3 "maes" false true 2 1 2 0 false None 0.
Definition args_greedy1 : InitArgs Z :=
  mkInitArgs 4 4 [0; 1; 2] 1 "default" false true 2 1 2 2 false None 0.

(** A maes decoder over the single duration 1, and a joint network for
    it. *)
Definition args_single_duration : InitArgs Z :=
  mkInitArgs 4 4 [1] 3 "maes" false true 2 1 2 0 false None 0.
Definition joint_single (t : Z) (d : unit) : list Z * list Z :=
  ([-1; -10; -10; -10; -1], [-1]).

(** An N-gram model that gives every word the log10 score -1. *)
Definition flat_lm (st : unit) (word : NgramLM.Word) : R * unit :=
  ((-1)%R, tt).
End Examples.

(** * Properties *)

(** ** Stable sorting, first maxima and filters *)

Section SortFacts.
Context {A : Type}.
Variable le : A -> A -> bool.

Lemma insert_by_perm (x : A) (l : list A) :
  Permutation (insert_by le x l) (x :: l).
Proof.
  induction l as [| y r IH]; simpl; [reflexivity |].
  destruct (le x y); [reflexivity |].
  rewrite IH. apply perm_swap.
Qed.

Lemma sorted_by_perm (l : list A) : Permutation (sorted_by le l) l.
Proof.
  induction l as [| x r IH]; simpl; [reflexivity |].
  rewrite insert_by_perm. now constructor.
Qed.

Lemma sorted_by_In (l : list A) (x : A) : In x (sorted_by le l) <-> In x l.
Proof.
  split; apply Permutation_in;
    [apply sorted_by_perm | symmetry; apply sorted_by_perm].
Qed.

Lemma sorted_by_length (l : list A) : length (sorted_by le l) = length l.
Proof. apply Permutation_length, sorted_by_perm. Qed.

Lemma sorted_by_Forall (P : A -> Prop) (l : list A) :
  Forall P l -> Forall P (sorted_by le l).
Proof.
  intros H. eapply Permutation_Forall; [symmetry; apply sorted_by_perm | exact H].
Qed.

(** An element that may stand before all of [l] is put in front. *)
Lemma insert_by_front (x : A) (l : list A) :
  (forall y, In y l -> le x y = true) -> insert_by le x l = x :: l.
Proof.
  destruct l as [| y r]; simpl; [reflexivity |].
  intros H. now rewrite (H y (or_introl eq_refl)).
Qed.

(** The head of the sorted list is the element [max] picks, for the
    comparison read the other way round. *)
Lemma hd_sorted_by_max_by (l : list A) :
  hd_error (sorted_by le l) = max_by (fun m x => le x m) l.
Proof.
  induction l as [| x r IH]; simpl; [reflexivity |].
  rewrite <- IH.
  destruct (sorted_by le r) as [| m s]; simpl; [reflexivity |].
  now destruct (le x m).
Qed.

Hypothesis le_total : forall x y, le x y = true \/ le y x = true.
Hypothesis le_trans : forall x y z, le x y = true -> le y z = true -> le x z = true.

Lemma insert_by_sorted (x : A) (l : list A) :
  StronglySorted (fun a b => le a b = true) l ->
  StronglySorted (fun a b => le a b = true) (insert_by le x l).
Proof.
  induction 1 as [| y r Hs IH Hy]; simpl.
  - constructor; constructor.
  - destruct (le x y) eqn:Hxy.
    + constructor; [now constructor |].
      constructor; [exact Hxy |].
      rewrite Forall_forall in *. intros z Hz. eauto.
    + constructor; [exact IH |].
      rewrite Forall_forall in *. intros z Hz.
      apply (Permutation_in _ (insert_by_perm x r)) in Hz.
      destruct Hz as [<- | Hz]; [| auto].
      destruct (le_total x y) as [Hc | Hc]; congruence.
Qed.

Lemma sorted_by_sorted (l : list A) :
  StronglySorted (fun a b => le a b = true) (sorted_by le l).
Proof.
  induction l as [| x r IH]; simpl; [constructor | now apply insert_by_sorted].
Qed.

(** Sorting is stable: it commutes with every filter. *)
Lemma filter_insert_by (p : A -> bool) (x : A) (l : list A) :
  StronglySorted (fun a b => le a b = true) l ->
  filter p (insert_by le x l)
  = if p x then insert_by le x (filter p l) else filter p l.
Proof.
  induction 1 as [| y r Hs IH Hy]; simpl.
  - now destruct (p x).
  - destruct (le x y) eqn:Hxy; simpl.
    + destruct (p x) eqn:Hpx; [| reflexivity].
      destruct (p y) eqn:Hpy; simpl; [now rewrite Hxy |].
      symmetry. apply insert_by_front.
      intros z Hz. apply filter_In in Hz. destruct Hz as [Hz _].
      rewrite Forall_forall in Hy. eauto.
    + rewrite IH. destruct (p y) eqn:Hpy; destruct (p x); simpl;
        try rewrite Hxy; reflexivity.
Qed.

Lemma filter_sorted_by (p : A -> bool) (l : list A) :
  filter p (sorted_by le l) = sorted_by le (filter p l).
Proof.
  induction l as [| x r IH]; simpl; [reflexivity |].
  rewrite filter_insert_by by apply sorted_by_sorted.
  rewrite IH. now destruct (p x).
Qed.
End SortFacts.

Section MaxFacts.
Context {A : Type}.
Variable cmp : A -> A -> bool.

Lemma max_by_none (l : list A) : max_by cmp l = None <-> l = [].
Proof.
  destruct l as [| x r]; simpl; [tauto |].
  split; [| discriminate].
  destruct (max_by cmp r) as [m |]; [destruct (cmp m x) |]; discriminate.
Qed.

Lemma max_by_some (l : list A) : l <> [] -> exists m, max_by cmp l = Some m.
Proof.
  intros Hl. destruct (max_by cmp l) as [m |] eqn:E; [eauto |].
  apply max_by_none in E. contradiction.
Qed.

(** [max] answers the first of the maximal elements: nothing before it
    reaches it. *)
Lemma max_by_first (l : list A) (m : A) :
  max_by cmp l = Some m ->
  exists l1 l2, l = l1 ++ m :: l2 /\ forall x, In x l1 -> cmp m x = false.
Proof.
  revert m. induction l as [| x r IH]; simpl; intros m Hm; [discriminate |].
  destruct (max_by cmp r) as [m' |] eqn:E.
  - destruct (cmp m' x) eqn:Hc; inversion Hm; subst.
    + exists [], r. split; [reflexivity | intros ? []].
    + destruct (IH m eq_refl) as (l1 & l2 & -> & Hlt).
      exists (x :: l1), l2. split; [reflexivity |].
      intros y [<- | Hy]; auto.
  - inversion Hm; subst. exists [], r. split; [reflexivity | intros ? []].
Qed.

Lemma max_by_In (l : list A) (m : A) : max_by cmp l = Some m -> In m l.
Proof.
  intros H. destruct (max_by_first _ H) as (l1 & l2 & -> & _).
  apply in_elt.
Qed.

Hypothesis cmp_total : forall x y, cmp x y = true \/ cmp y x = true.
Hypothesis cmp_trans :
  forall x y z, cmp x y = true -> cmp y z = true -> cmp x z = true.

Lemma max_by_upper (l : list A) (m : A) :
  max_by cmp l = Some m -> forall x, In x l -> cmp x m = true.
Proof.
  revert m. induction l as [| x r IH]; simpl; intros m Hm y Hy; [contradiction |].
  destruct (max_by cmp r) as [m' |] eqn:E.
  - destruct (cmp m' x) eqn:Hc; inversion Hm; subst.
    + destruct Hy as [Hy | Hy].
      * subst y. destruct (cmp_total m m); assumption.
      * eapply cmp_trans; [apply (IH m' eq_refl y Hy) | exact Hc].
    + destruct Hy as [Hy | Hy]; [subst y | now apply IH].
      destruct (cmp_total m x) as [Hd | Hd]; congruence.
  - apply max_by_none in E. subst r. inversion Hm; subst.
    destruct Hy as [Hy | []]. subst y. destruct (cmp_total m m); assumption.
Qed.

Lemma remove_max_perm (l : list A) (m : A) :
  max_by cmp l = Some m -> Permutation l (m :: remove_max cmp l).
Proof.
  revert m. induction l as [| x r IH]; simpl; intros m Hm; [discriminate |].
  destruct (max_by cmp r) as [m' |] eqn:E.
  - destruct (cmp m' x); inversion Hm; subst; [reflexivity |].
    rewrite (IH m eq_refl) at 1. apply perm_swap.
  - apply max_by_none in E. subst r. inversion Hm; subst. reflexivity.
Qed.
End MaxFacts.

Lemma filter_split {A} (p : A -> bool) (l f1 f2 : list A) (r : A) :
  filter p l = f1 ++ r :: f2 ->
  exists l1 l2, l = l1 ++ r :: l2 /\ filter p l1 = f1.
Proof.
  revert f1. induction l as [| x l' IH]; simpl; intros f1 H.
  - destruct f1; discriminate.
  - destruct (p x) eqn:Hp.
    + destruct f1 as [| y f1']; simpl in H; inversion H as [[Hx Hr]].
      * exists [], l'. auto.
      * destruct (IH _ Hr) as (l1 & l2 & -> & Hf).
        exists (x :: l1), l2. simpl. rewrite Hp. split; congruence.
    + destruct (IH _ H) as (l1 & l2 & -> & Hf).
      exists (x :: l1), l2. simpl. rewrite Hp. auto.
Qed.

Lemma filter_none {A} (p : A -> bool) (l : list A) :
  (forall x, In x l -> p x = false) -> filter p l = [].
Proof.
  induction l as [| x r IH]; simpl; intros H; [reflexivity |].
  rewrite (H x (or_introl eq_refl)). apply IH. intros y Hy. apply H. now right.
Qed.

Lemma seq_eqb_eq (a b : list Z) : seq_eqb a b = true <-> a = b.
Proof.
  revert b. induction a as [| x a IH]; intros [| y b]; simpl;
    try (split; [discriminate | congruence]); [tauto |].
  rewrite andb_true_iff, Z.eqb_eq, IH.
  split; [intros [-> ->]; reflexivity | intros H; inversion H; auto].
Qed.

Lemma py_take_length {A} (n : Z) (l : list A) :
  0 <= n -> Z.of_nat (length (py_take n l)) <= n.
Proof.
  intros Hn. unfold py_take.
  destruct (Z.leb_spec 0 n); [| lia].
  rewrite length_firstn. lia.
Qed.

Lemma firstn_incl {A} (n : nat) (l : list A) (x : A) :
  In x (firstn n l) -> In x l.
Proof.
  intros H. rewrite <- (firstn_skipn n l). apply in_or_app. now left.
Qed.

Lemma py_take_incl {A} (n : Z) (l : list A) (x : A) :
  In x (py_take n l) -> In x l.
Proof.
  unfold py_take. destruct (0 <=? n); apply firstn_incl.
Qed.

Section ScoreOrder.
Context {S : Type} {SC : Score S} {A : Type}.
Variable key : A -> S.

Lemma key_asc_total (x y : A) : key_asc key x y = true \/ key_asc key y x = true.
Proof. apply s_leb_total. Qed.

Lemma key_asc_trans (x y z : A) :
  key_asc key x y = true -> key_asc key y z = true -> key_asc key x z = true.
Proof. apply s_leb_trans. Qed.

Lemma key_desc_total (x y : A) :
  key_desc key x y = true \/ key_desc key y x = true.
Proof. apply s_leb_total. Qed.

Lemma key_desc_trans (x y z : A) :
  key_desc key x y = true -> key_desc key y z = true -> key_desc key x z = true.
Proof. unfold key_desc. intros H1 H2. eapply s_leb_trans; eassumption. Qed.
End ScoreOrder.

(** ** The constructor *)

Lemma choose_search_raises (b : Z) (st : string) :
  raises (choose_search b st)
  <-> b <> 1 /\ st <> "default"%string /\ st <> "maes"%string.
Proof.
  unfold choose_search, raises.
  destruct (Z.eqb_spec b 1) as [Hb | Hb].
  { split; [intros [e He]; discriminate | intros [Hn _]; contradiction]. }
  destruct (String.eqb_spec st "default") as [Hd | Hd].
  { split; [intros [e He]; discriminate | intros (_ & Hn & _); contradiction]. }
  destruct (String.eqb_spec st "tsd") as [-> | H1].
  { split; [intros _ | eexists; reflexivity]. repeat split; auto; discriminate. }
  destruct (String.eqb_spec st "alsd") as [-> | H2].
  { split; [intros _ | eexists; reflexivity]. repeat split; auto; discriminate. }
  destruct (String.eqb_spec st "nsc") as [-> | H3].
  { split; [intros _ | eexists; reflexivity]. repeat split; auto; discriminate. }
  destruct (String.eqb_spec st "maes") as [Hm | Hm].
  { split; [intros [e He]; discriminate | intros (_ & _ & Hn); contradiction]. }
  split; [intros _; auto | eexists; reflexivity].
Qed.

Lemma maes_checks_some {S} (a : InitArgs S) :
  (exists e, maes_checks a = Some e)
  <-> arg_search_type a = "maes"%string
      /\ (arg_maes_prefix_alpha a < 0
          \/ arg_vocab_size a < arg_beam_size a + arg_maes_expansion_beta a
          \/ arg_maes_num_steps a < 2).
Proof.
  unfold maes_checks.
  destruct (String.eqb_spec (arg_search_type a) "maes") as [Hm | Hm].
  - destruct (Z.ltb_spec (arg_maes_prefix_alpha a) 0).
    { split; [intros _; auto | eexists; reflexivity]. }
    destruct (Z.ltb_spec (arg_vocab_size a)
                         (arg_beam_size a + arg_maes_expansion_beta a)).
    { split; [intros _; auto | eexists; reflexivity]. }
    destruct (Z.ltb_spec (arg_maes_num_steps a) 2).
    { split; [intros _; auto | eexists; reflexivity]. }
    split; [intros [e He]; discriminate | intros [_ Hc]; lia].
  - split; [intros [e He]; discriminate | intros [Hc _]; contradiction].
Qed.

Lemma argmin_nonzero_some (d : list Z) :
  d <> [] -> exists m v, argmin_nonzero d = Some (m, v).
Proof.
  destruct d as [| x r]; [congruence | intros _].
  simpl. destruct (argmin_nonzero r) as [[i best] |].
  - destruct (masked_fill x <=? best); eauto.
  - eauto.
Qed.

(** C9, as the code has it: for a non-empty [int64] duration table the
    constructor raises exactly when alignment preservation is asked for,
    or [beam_size < 1], or the beam is wider than one and the search type
    is neither default nor maes, or the search type is maes and one of
    [maes_prefix_alpha < 0], [V < beam_size + maes_expansion_beta],
    [maes_num_steps < 2] holds, or a model path is given and the search is
    not maes, or the LM library is missing, or the library cannot load
    the model file. *)
Theorem init_raises_iff :
  forall (S : Type) (KENLM_AVAILABLE : bool) (model_loads : string -> bool)
         (a : InitArgs S),
    arg_durations a <> [] ->
    int64_table (arg_durations a) ->
    (raises (init KENLM_AVAILABLE model_loads a)
     <-> fatal KENLM_AVAILABLE model_loads a).
Proof.
  intros S K loads a Hd _. unfold init, fatal.
  destruct (arg_preserve_alignments a) eqn:Hpa.
  { split; [auto | intros _; eexists; reflexivity]. }
  destruct (Z.ltb_spec (arg_beam_size a) 1) as [Hb | Hb].
  { split; [auto | intros _; eexists; reflexivity]. }
  pose proof (choose_search_raises (arg_beam_size a) (arg_search_type a)) as Hcs.
  destruct (choose_search (arg_beam_size a) (arg_search_type a)) as [e | alg].
  { split; [intros _ | intros _; eexists; reflexivity].
    right; right; left. apply Hcs. eexists; reflexivity. }
  assert (Hncs : ~ (arg_beam_size a <> 1
                    /\ arg_search_type a <> "default"%string
                    /\ arg_search_type a <> "maes"%string)).
  { intros Hc. apply Hcs in Hc. destruct Hc as [e He]. discriminate. }
  pose proof (maes_checks_some a) as Hmc.
  destruct (maes_checks a) as [e |].
  { split; [intros _ | intros _; eexists; reflexivity].
    right; right; right; left. apply Hmc. eexists; reflexivity. }
  assert (Hnmc : ~ (arg_search_type a = "maes"%string
      /\ (arg_maes_prefix_alpha a < 0
          \/ arg_vocab_size a < arg_beam_size a + arg_maes_expansion_beta a
          \/ arg_maes_num_steps a < 2))).
  { intros Hc. apply Hmc in Hc. destruct Hc as [e He]. discriminate. }
  destruct (argmin_nonzero_some Hd) as (m & v & Hm). rewrite Hm.
  destruct (lm_given (arg_ngram_lm_model a)) eqn:Hlm; simpl.
  - destruct (String.eqb_spec (arg_search_type a) "maes") as [Hs | Hs]; simpl.
    + destruct K; simpl.
      * destruct (loads (model_path (arg_ngram_lm_model a))) eqn:Hl; simpl.
        -- split; [intros [e He]; discriminate | ].
           intros [Hc | [Hc | [Hc | [Hc | [_ [Hc | [Hc | Hc]]]]]]];
             try discriminate; try lia; try contradiction.
        -- split; [intros _ | intros _; eexists; reflexivity].
           right; right; right; right. auto.
      * split; [intros _ | intros _; eexists; reflexivity].
        right; right; right; right. auto.
    + split; [intros _ | intros _; eexists; reflexivity].
      right; right; right; right. auto.
  - split; [intros [e He]; discriminate | ].
    intros [Hc | [Hc | [Hc | [Hc | [Hc _]]]]];
      try discriminate; try lia; try contradiction.
Qed.

Lemma init_raises_iff_witness :
  arg_durations Examples.args_unreadable_model <> []
  /\ int64_table (arg_durations Examples.args_unreadable_model)
  /\ raises (init true Examples.no_model_loads Examples.args_unreadable_model)
  /\ fatal true Examples.no_model_loads Examples.args_unreadable_model.
Proof.
  assert (H : arg_durations Examples.args_unreadable_model <> [])
    by (simpl; discriminate).
  assert (Hi : int64_table (arg_durations Examples.args_unreadable_model)).
  { apply Forall_forall. intros d Hd. simpl in Hd.
    unfold int64_min, int64_max. lia. }
  assert (Hr : raises (init true Examples.no_model_loads
                            Examples.args_unreadable_model))
    by (eexists; reflexivity).
  split; [exact H |]. split; [exact Hi |]. split; [exact Hr |].
  exact (proj1 (init_raises_iff true Examples.no_model_loads
                                Examples.args_unreadable_model H Hi) Hr).
Defined.

(** C9 as stated fails: with the default search a value
    [maes_num_steps = 1] is on the list of fatal configurations, and the
    decoder is constructed; this with a non-empty [int64] table and every
    model file loading. *)
Lemma init_listed_fatal_counterexample :
  ~ (forall (KENLM_AVAILABLE : bool) (model_loads : string -> bool)
            (a : InitArgs Z),
       arg_durations a <> [] ->
       int64_table (arg_durations a) ->
       (forall path, model_loads path = true) ->
       (raises (init KENLM_AVAILABLE model_loads a)
        <-> listed_fatal KENLM_AVAILABLE a)).
Proof.
  intros H.
  destruct (proj2 (H true Examples.every_model_loads
                     Examples.args_default_one_step
                     ltac:(simpl; discriminate)
                     ltac:(apply Forall_forall; intros d Hd; simpl in Hd;
                           unfold int64_min, int64_max; lia)
                     (fun _ => eq_refl))) as [e He].
  - right; left. simpl. lia.
  - vm_compute in He. discriminate.
Qed.

(** ** The entry point *)

(** C10, as the code has it: a call that returns leaves both training flags
    as it found them. *)
Theorem call_restores_training_flags :
  forall (S : Type) (SC : Score S) (DecState DecOut LMState : Type)
         (self : BeamTDTInfer S) (initialize_state : DecState)
         (score_hypothesis : @Hyp S DecState DecOut LMState -> DecOut * DecState)
         (compute_ngram_score : LMState -> Z -> S * LMState)
         (init_lm_state : LMState) pack_hypotheses
         (fuel : nat) (m m' : Modules) (batch : list (@Sample S DecOut))
         hypotheses,
    call self initialize_state score_hypothesis compute_ngram_score
         init_lm_state pack_hypotheses fuel m batch = (Returns hypotheses, m') ->
    m' = m.
Proof.
  intros until hypotheses. unfold call.
  destruct (decode_batch _ _ _ _ _ _ _ _) as [r | |]; intros Heq;
    inversion Heq; subst.
  destruct m as [d j]. reflexivity.
Qed.

Lemma call_restores_training_flags_witness :
  exists hypotheses m',
    call Examples.default3 tt Examples.no_decoder Examples.no_lm tt
         (fun l => l) 5 Examples.both_training [Examples.one_frame]
    = (Returns hypotheses, m')
    /\ m' = Examples.both_training.
Proof.
  eexists. eexists. split.
  - vm_compute. reflexivity.
  - eapply call_restores_training_flags with
      (self := Examples.default3) (initialize_state := tt)
      (score_hypothesis := Examples.no_decoder)
      (compute_ngram_score := Examples.no_lm) (init_lm_state := tt)
      (pack_hypotheses := fun l : list Examples.ZHyp => l) (fuel := 5%nat)
      (batch := [Examples.one_frame]).
    vm_compute. reflexivity.
Defined.

(** C10 as stated fails: a decoder of beam size one runs [greedy_search],
    which raises; the call leaves both modules in eval mode. *)
Lemma call_raising_leaves_eval_mode :
  ~ (forall (self : BeamTDTInfer Z) (fuel : nat) (m : Modules)
            (batch : list (@Sample Z unit)),
       snd (call self tt Examples.no_decoder Examples.no_lm tt (fun l => l)
                 fuel m batch) = m).
Proof.
  intros H.
  specialize (H Examples.greedy1 5%nat Examples.both_training
                [Examples.one_frame]).
  vm_compute in H. discriminate.
Qed.

(** ** Duplicate suppression *)

Section DedupFacts.
Context {S : Type} {SC : Score S}.
Variables DecState DecOut LMState : Type.

Lemma same_key_eq (a b : Hyp S DecState DecOut LMState) :
  same_key a b = true <-> hyp_key a = hyp_key b.
Proof.
  unfold same_key, hyp_key.
  rewrite andb_true_iff, seq_eqb_eq, Z.eqb_eq.
  split; [intros [-> ->]; reflexivity | intros H; inversion H; auto].
Qed.

Lemma same_key_refl (a : Hyp S DecState DecOut LMState) : same_key a a = true.
Proof. now apply same_key_eq. Qed.

Lemma is_present_iff (seen : list (Hyp S DecState DecOut LMState))
      (h : Hyp S DecState DecOut LMState) :
  is_present seen h = true <-> exists k, In k seen /\ hyp_key k = hyp_key h.
Proof.
  unfold is_present. rewrite existsb_exists.
  split; intros (k & Hk & He); exists k; split; auto; now apply same_key_eq.
Qed.

Lemma is_present_app (seen : list (Hyp S DecState DecOut LMState))
      (x h : Hyp S DecState DecOut LMState) :
  is_present (seen ++ [x]) h = is_present seen h || same_key x h.
Proof.
  unfold is_present. rewrite existsb_app. simpl. now rewrite orb_false_r.
Qed.

(** The loop of the code builds what the specification describes. *)
Lemma fold_retain_first (l acc : list (Hyp S DecState DecOut LMState)) :
  fold_left
    (fun kept_hyps hyp =>
       if is_present kept_hyps hyp then kept_hyps else kept_hyps ++ [hyp])
    l acc
  = acc ++ retain_first acc l.
Proof.
  revert acc. induction l as [| x r IH]; intros acc; simpl.
  - now rewrite app_nil_r.
  - destruct (is_present acc x); rewrite IH; [reflexivity |].
    now rewrite <- app_assoc.
Qed.

Lemma remove_duplicate_hypotheses_retain
      (l : list (Hyp S DecState DecOut LMState)) :
  remove_duplicate_hypotheses l = retain_first [] (sorted_by (key_desc score) l).
Proof. unfold remove_duplicate_hypotheses. now rewrite fold_retain_first. Qed.

(** A retained hypothesis is new to [seen] and is the first of its key. *)
Lemma retain_first_first (l seen : list (Hyp S DecState DecOut LMState))
      (r : Hyp S DecState DecOut LMState) :
  In r (retain_first seen l) ->
  is_present seen r = false
  /\ exists l1 l2, l = l1 ++ r :: l2
                   /\ forall h, In h l1 -> same_key r h = false.
Proof.
  revert seen. induction l as [| x l' IH]; simpl; intros seen Hr; [contradiction |].
  destruct (is_present seen x) eqn:Hx.
  - destruct (IH _ Hr) as (Hn & l1 & l2 & -> & Hl1).
    split; [exact Hn |]. exists (x :: l1), l2. split; [reflexivity |].
    intros h [<- | Hh]; [| auto].
    destruct (same_key r x) eqn:E; [| reflexivity].
    apply same_key_eq in E.
    apply is_present_iff in Hx. destruct Hx as (k & Hk & He).
    assert (Hp : is_present seen r = true).
    { apply is_present_iff. exists k. split; congruence. }
    congruence.
  - destruct Hr as [<- | Hr].
    + split; [exact Hx |]. exists [], l'. split; [reflexivity | intros ? []].
    + destruct (IH _ Hr) as (Hn & l1 & l2 & -> & Hl1).
      rewrite is_present_app in Hn. apply orb_false_iff in Hn.
      destruct Hn as [Hn Hxr].
      split; [exact Hn |]. exists (x :: l1), l2. split; [reflexivity |].
      intros h [<- | Hh]; [| auto].
      destruct (same_key r x) eqn:E; [| reflexivity].
      apply same_key_eq in E. symmetry in E. apply same_key_eq in E. congruence.
Qed.

Lemma retain_first_NoDup (l seen : list (Hyp S DecState DecOut LMState)) :
  NoDup (map hyp_key (retain_first seen l)).
Proof.
  revert seen. induction l as [| x l' IH]; simpl; intros seen; [constructor |].
  destruct (is_present seen x) eqn:Hx; [apply IH |].
  simpl. constructor; [| apply IH].
  intros Hin. apply in_map_iff in Hin. destruct Hin as (r & Hk & Hr).
  apply retain_first_first in Hr. destruct Hr as [Hn _].
  rewrite is_present_app in Hn. apply orb_false_iff in Hn.
  destruct Hn as [_ Hn].
  symmetry in Hk. apply same_key_eq in Hk. congruence.
Qed.

Lemma retain_first_covers (l seen : list (Hyp S DecState DecOut LMState))
      (h : Hyp S DecState DecOut LMState) :
  In h l ->
  exists r, In r (seen ++ retain_first seen l) /\ hyp_key r = hyp_key h.
Proof.
  revert seen. induction l as [| x l' IH]; simpl; intros seen Hh; [contradiction |].
  destruct (is_present seen x) eqn:Hx.
  - destruct Hh as [<- | Hh]; [| now apply IH].
    apply is_present_iff in Hx. destruct Hx as (k & Hk & He).
    exists k. split; [apply in_or_app; now left | exact He].
  - destruct Hh as [<- | Hh].
    + exists x. split; [apply in_or_app; right; now left | reflexivity].
    + destruct (IH (seen ++ [x]) Hh) as (r & Hr & He).
      exists r. split; [| exact He].
      rewrite <- app_assoc in Hr. exact Hr.
Qed.

(** The survivor of a key is what [max] picks among the hypotheses of
    that key. *)
Lemma remove_duplicate_hypotheses_max (l : list (Hyp S DecState DecOut LMState))
      (r : Hyp S DecState DecOut LMState) :
  In r (remove_duplicate_hypotheses l) ->
  max_by (key_asc score) (filter (same_key r) l) = Some r.
Proof.
  rewrite remove_duplicate_hypotheses_retain. intros Hr.
  apply retain_first_first in Hr. destruct Hr as (_ & s1 & s2 & Hs & Hs1).
  assert (Hhd : hd_error (filter (same_key r) (sorted_by (key_desc score) l))
                = Some r).
  { rewrite Hs, filter_app. simpl. rewrite same_key_refl.
    now rewrite (filter_none _ _ Hs1). }
  rewrite (filter_sorted_by (key_desc score)) in Hhd.
  - rewrite hd_sorted_by_max_by in Hhd. exact Hhd.
  - apply key_desc_total.
  - apply key_desc_trans.
Qed.

(** C6: duplicate suppression keeps exactly one hypothesis per key
    (token sequence, last frame): the keys of the result are pairwise
    distinct and every key of the input has its representative.  The
    representative is a hypothesis of the input of that key with the
    greatest score, the one [max] picks: among those of greatest score the
    first of the input.  The result is obtained by sorting by descending
    score and retaining the first occurrence of each key. *)
Theorem remove_duplicate_hypotheses_spec :
  forall l : list (Hyp S DecState DecOut LMState),
    let out := remove_duplicate_hypotheses l in
    out = retain_first [] (sorted_by (key_desc score) l)
    /\ NoDup (map hyp_key out)
    /\ (forall h, In h l -> exists r, In r out /\ hyp_key r = hyp_key h)
    /\ (forall r, In r out ->
          max_by (key_asc score) (filter (same_key r) l) = Some r
          /\ In r l
          /\ (forall h, In h l -> hyp_key h = hyp_key r ->
                        s_leb (score h) (score r) = true)
          /\ exists l1 l2,
               l = l1 ++ r :: l2
               /\ forall h, In h l1 -> hyp_key h = hyp_key r ->
                             s_ltb (score h) (score r) = true).
Proof.
  intros l out. subst out.
  split; [apply remove_duplicate_hypotheses_retain |].
  split; [rewrite remove_duplicate_hypotheses_retain; apply retain_first_NoDup |].
  split.
  - intros h Hh. rewrite remove_duplicate_hypotheses_retain.
    apply (retain_first_covers _ []). now apply sorted_by_In.
  - intros r Hr. pose proof (remove_duplicate_hypotheses_max _ _ Hr) as Hmax.
    split; [exact Hmax |].
    pose proof (max_by_In _ _ Hmax) as Hin. apply filter_In in Hin.
    split; [tauto |]. split.
    + intros h Hh Hk.
      change (key_asc score h r = true).
      eapply max_by_upper;
        [apply key_asc_total | apply key_asc_trans | exact Hmax |].
      apply filter_In. split; [exact Hh |]. apply same_key_eq. congruence.
    + destruct (max_by_first _ _ Hmax) as (f1 & f2 & Hf & Hlt).
      apply filter_split in Hf. destruct Hf as (l1 & l2 & Hl & Hf1).
      exists l1, l2. split; [exact Hl |].
      intros h Hh Hk. unfold s_ltb.
      assert (Hc : key_asc score r h = false).
      { apply Hlt. rewrite <- Hf1. apply filter_In. split; [exact Hh |].
        apply same_key_eq. congruence. }
      unfold key_asc in Hc. now rewrite Hc.
Qed.
End DedupFacts.

(** ** The expansion selector *)

Section SelectFacts.
Context {S : Type} {SC : Score S}.
Variables DecState DecOut LMState : Type.

Lemma s_ltb_leb (a b : S) : s_ltb a b = true -> s_leb a b = true.
Proof.
  unfold s_ltb. intros H. apply negb_true_iff in H.
  destruct (s_leb_total a b) as [Hc | Hc]; congruence.
Qed.

Lemma s_leb_refl (a : S) : s_leb a a = true.
Proof. destruct (s_leb_total a a); assumption. Qed.

(** The candidates are the full product of the token and the duration
    entries. *)
Lemma candidates_In (hyp : Hyp S DecState DecOut LMState)
      (idxs : list nat) (logps : list S) (didxs : list nat) (dlogps : list S)
      (k d : nat) (s : S) :
  In (k, d, s) (candidates hyp idxs logps didxs dlogps)
  <-> exists lp dlp,
        In (k, lp) (combine idxs logps)
        /\ In (d, dlp) (combine didxs dlogps)
        /\ s = s_add (score hyp) (s_add lp dlp).
Proof.
  unfold candidates. rewrite in_flat_map. split.
  - intros ([k' lp] & Hk & Hin). apply in_map_iff in Hin.
    destruct Hin as ([d' dlp] & He & Hd). simpl in He. inversion He; subst.
    exists lp, dlp. auto.
  - intros (lp & dlp & Hk & Hd & ->). exists (k, lp). split; [exact Hk |].
    apply in_map_iff. exists (d, dlp). auto.
Qed.

Lemma select_expansions_spec (gamma : S) (cands : list (Expansion S)) :
  cands <> [] ->
  exists out, select_expansions gamma cands = Some out
              /\ pruned_by_value gamma cands out.
Proof.
  intros Hne. unfold select_expansions.
  destruct (max_by_some (key_asc exp_score) Hne) as (best & Hbest).
  rewrite Hbest. eexists. split; [reflexivity |].
  assert (Hup : forall c, In c cands ->
                          s_leb (exp_score c) (exp_score best) = true).
  { intros c Hc. change (key_asc exp_score c best = true).
    eapply max_by_upper;
      [apply key_asc_total | apply key_asc_trans | exact Hbest | exact Hc]. }
  exists best. split; [eapply max_by_In; exact Hbest |].
  split; [exact Hup |].
  split; [apply sorted_by_perm |].
  split.
  { intros c. rewrite sorted_by_In, filter_In. reflexivity. }
  split.
  { apply (sorted_by_sorted (key_asc exp_score));
      [apply key_asc_total | apply key_asc_trans]. }
  intros Hg. apply sorted_by_In, filter_In.
  split; [eapply max_by_In; exact Hbest |].
  unfold within. apply s_sub_le. now apply s_ltb_leb.
Qed.

(** C5: for every hypothesis the selector forms the product of the token
    and duration candidates with score [h.score + (token_logp +
    duration_logp)] and returns those whose score is at least [M - gamma],
    [M] the greatest candidate score, in ascending order of score; for
    [gamma > 0] the candidate of greatest score is among them. *)
Theorem select_k_expansions_durations_spec :
  forall (hyps : list (Hyp S DecState DecOut LMState))
         (topk_idxs : list (list nat)) (topk_logps : list (list S))
         (topk_duration_idxs : list (list nat))
         (topk_duration_logps : list (list S)) (gamma : S),
    length topk_idxs = length hyps ->
    length topk_logps = length hyps ->
    length topk_duration_idxs = length hyps ->
    length topk_duration_logps = length hyps ->
    Forall (fun cands => cands <> [])
           (candidate_rows hyps topk_idxs topk_logps topk_duration_idxs
                           topk_duration_logps) ->
    (exists k_expansions,
        select_k_expansions_durations hyps topk_idxs topk_logps
          topk_duration_idxs topk_duration_logps gamma = Some k_expansions
        /\ Forall2 (pruned_by_value gamma)
                   (candidate_rows hyps topk_idxs topk_logps
                                   topk_duration_idxs topk_duration_logps)
                   k_expansions
        /\ length k_expansions = length hyps)
    /\ (forall hyp idxs logps didxs dlogps k d s,
          In (k, d, s) (candidates hyp idxs logps didxs dlogps)
          <-> exists lp dlp,
                In (k, lp) (combine idxs logps)
                /\ In (d, dlp) (combine didxs dlogps)
                /\ s = s_add (score (hyp : Hyp S DecState DecOut LMState))
                              (s_add lp dlp)).
Proof.
  intros hyps ti tl tdi tdl gamma H1 H2 H3 H4 Hne.
  split; [| intros; apply candidates_In].
  revert ti tl tdi tdl H1 H2 H3 H4 Hne.
  induction hyps as [| hyp hyps' IH]; intros ti tl tdi tdl H1 H2 H3 H4 Hne.
  - exists []. simpl. repeat split. constructor.
  - destruct ti as [| idxs ti]; [discriminate |].
    destruct tl as [| logps tl]; [discriminate |].
    destruct tdi as [| didxs tdi]; [discriminate |].
    destruct tdl as [| dlogps tdl]; [discriminate |].
    simpl in *. inversion Hne as [| c cs Hc Hcs]; subst.
    destruct (select_expansions_spec gamma Hc) as (out & Hout & Hp).
    destruct (IH ti tl tdi tdl) as (outs & Houts & Hf & Hl); try lia; auto.
    exists (out :: outs). rewrite Hout, Houts.
    repeat split; [constructor; assumption | simpl; lia].
Qed.
End SelectFacts.

Lemma select_k_expansions_durations_witness :
  exists k_expansions,
    select_k_expansions_durations
      [Examples.start] [Examples.five_idxs] [Examples.five_logps]
      [[0%nat]] [[0]] 5
    = Some k_expansions.
Proof.
  destruct (@select_k_expansions_durations_spec Z _ unit unit unit
              [Examples.start] [Examples.five_idxs] [Examples.five_logps]
              [[0%nat]] [[0]] 5 eq_refl eq_refl eq_refl eq_refl)
    as [(outs & Ho & _) _].
  - repeat constructor. discriminate.
  - exists outs. exact Ho.
Defined.

(** ** The termination check of the default search *)

Section TerminationFacts.
Context {S : Type} {SC : Score S}.
Variables DecState DecOut LMState : Type.
Variable self : BeamTDTInfer S.

(** C3, as the code has it: when [hyps] is not empty and [s] is its
    greatest score, the hypotheses of [kept_hyps] with score strictly
    above [s] are collected; if they are at least [beam] the loop is left
    and [kept_hyps] becomes all of them, in ascending order of score (at
    least [beam] survive); otherwise [kept_hyps] stays and the expansion
    goes on.  A hypothesis whose score only equals [s] does not count. *)
Theorem termination_check_spec :
  forall hyps kept_hyps : list (Hyp S DecState DecOut LMState),
    hyps <> [] ->
    exists best,
      max_by (key_asc score) hyps = Some best
      /\ (forall h, In h hyps -> s_leb (score h) (score best) = true)
      /\ let qualifying :=
           filter (fun h => s_ltb (score best) (score h)) kept_hyps in
         (forall h, In h qualifying <->
                    In h kept_hyps /\ s_leb (score h) (score best) = false)
         /\ (beam self <= Z.of_nat (length qualifying) ->
             exists kept_most_prob,
               termination_check self hyps kept_hyps = (kept_most_prob, true)
               /\ Permutation kept_most_prob qualifying
               /\ StronglySorted
                    (fun a b => s_leb (score a) (score b) = true)
                    kept_most_prob
               /\ beam self <= Z.of_nat (length kept_most_prob))
         /\ (Z.of_nat (length qualifying) < beam self ->
             termination_check self hyps kept_hyps = (kept_hyps, false)).
Proof.
  intros hyps kept_hyps Hne.
  destruct (max_by_some (key_asc score) Hne) as (best & Hbest).
  exists best. split; [exact Hbest |]. split.
  { intros h Hh. change (key_asc score h best = true).
    eapply max_by_upper;
      [apply key_asc_total | apply key_asc_trans | exact Hbest | exact Hh]. }
  intros qualifying. split.
  { intros h. unfold qualifying. rewrite filter_In. unfold s_ltb.
    now rewrite negb_true_iff. }
  unfold termination_check. rewrite Hbest. fold qualifying.
  rewrite sorted_by_length. split.
  - intros Hge. destruct (Z.leb_spec (beam self) (Z.of_nat (length qualifying)));
      [| lia].
    eexists. split; [reflexivity |].
    split; [apply sorted_by_perm |]. split.
    + apply (sorted_by_sorted (key_asc score));
        [apply key_asc_total | apply key_asc_trans].
    + now rewrite sorted_by_length.
  - intros Hlt. destruct (Z.leb_spec (beam self) (Z.of_nat (length qualifying)));
      [lia | reflexivity].
Qed.
End TerminationFacts.

Lemma termination_check_spec_witness :
  exists best,
    max_by (key_asc score) Examples.now3 = Some best
    /\ termination_check Examples.default3 Examples.now3 Examples.future3
       = (sorted_by (key_asc score) Examples.future3, true).
Proof.
  assert (Hne : Examples.now3 <> []) by discriminate.
  destruct (termination_check_spec Examples.default3 Examples.future3 Hne)
    as (best & Hbest & _).
  exists best. split; [exact Hbest | vm_compute; reflexivity].
Defined.

(** C3 as stated fails: with a beam of three and four hypotheses above
    the best remaining score, all four survive the check. *)
Lemma termination_check_keeps_all_qualifying :
  ~ (forall (self : BeamTDTInfer Z) (hyps kept_hyps : list Examples.ZHyp) best,
       max_by (key_asc score) hyps = Some best ->
       beam self
       <= Z.of_nat (length (filter (fun h => s_ltb (score best) (score h))
                                   kept_hyps)) ->
       exists top,
         termination_check self hyps kept_hyps = (top, true)
         /\ Z.of_nat (length top) <= beam self).
Proof.
  intros H.
  destruct (H Examples.default3 Examples.now3 Examples.future3
              (Examples.hyp_of (-4) [4; 0] 0) eq_refl)
    as (top & Htop & Hlen).
  - vm_compute. discriminate.
  - vm_compute in Htop. inversion Htop; subst top.
    vm_compute in Hlen. apply Hlen. reflexivity.
Qed.

(** ** The prefix-score corrector *)

Section PrefixFacts.
Context {S : Type} {SC : Score S}.
Variables DecState DecOut LMState : Type.
Variable self : BeamTDTInfer S.
Variable joint : Z -> DecOut -> list S * list S.
Variable compute_ngram_score : LMState -> Z -> S * LMState.

(** An update, when there is one, puts [logaddexp] of the old score and
    the score carried over from the prefix in place of the old score. *)
Lemma prefix_update_shape (t prefix_alpha : Z)
      (curr_hyp pref_hyp c : Hyp S DecState DecOut LMState) :
  prefix_update self joint compute_ngram_score t prefix_alpha curr_hyp pref_hyp
  = Some c ->
  c = curr_hyp
  \/ exists total, c = set_score curr_hyp (s_logaddexp (score curr_hyp) total).
Proof.
  unfold prefix_update.
  destruct (is_prefix _ _ && _); [| intros H; inversion H; auto].
  destruct (py_last _) as [d |]; [| discriminate].
  destruct (py_index _ _) as [token |]; [| discriminate].
  destruct (zero_duration_logp _ _ _ _ _) as [delta |]; [| discriminate].
  match goal with
  | |- match ?e with Some _ => _ | None => _ end = _ -> _ =>
      destruct e as [total |]; [| discriminate]
  end.
  intros H. inversion H. right. eauto.
Qed.

Lemma prefix_update_mono (t prefix_alpha : Z)
      (curr_hyp pref_hyp c : Hyp S DecState DecOut LMState) :
  prefix_update self joint compute_ngram_score t prefix_alpha curr_hyp pref_hyp
  = Some c ->
  s_leb (score curr_hyp) (score c) = true /\ c = set_score curr_hyp (score c).
Proof.
  intros H. destruct (prefix_update_shape _ _ _ _ H) as [-> | (total & ->)].
  - split; [apply s_leb_refl | now destruct curr_hyp].
  - split; [apply s_logaddexp_ge | reflexivity].
Qed.

Lemma prefix_inner_mono (t prefix_alpha : Z)
      (prefs : list (Hyp S DecState DecOut LMState))
      (curr_hyp c : Hyp S DecState DecOut LMState) :
  prefix_inner self joint compute_ngram_score t prefix_alpha curr_hyp prefs
  = Some c ->
  s_leb (score curr_hyp) (score c) = true /\ c = set_score curr_hyp (score c).
Proof.
  revert curr_hyp. induction prefs as [| p prefs' IH]; simpl; intros curr_hyp H.
  - inversion H; subst. split; [apply s_leb_refl | now destruct c].
  - destruct (prefix_update _ _ _ _ _ _ _) as [c1 |] eqn:E; [| discriminate].
    apply prefix_update_mono in E. destruct E as [H1 E1].
    apply IH in H. destruct H as [H2 E2].
    split; [eapply s_leb_trans; eassumption |].
    rewrite E2, E1. reflexivity.
Qed.

Lemma prefix_search_mono (t prefix_alpha : Z)
      (hypotheses out : list (Hyp S DecState DecOut LMState)) :
  prefix_search self joint compute_ngram_score hypotheses t prefix_alpha
  = Some out ->
  Forall2 (fun h h' => s_leb (score h) (score h') = true
                       /\ h' = set_score h (score h'))
          hypotheses out.
Proof.
  revert out. induction hypotheses as [| x r IH]; simpl; intros out H.
  - inversion H. constructor.
  - destruct (prefix_inner _ _ _ _ _ _ _) as [c |] eqn:E; [| discriminate].
    destruct (prefix_search _ _ _ r _ _) as [r' |]; [| discriminate].
    inversion H; subst. constructor; [| now apply IH].
    eapply prefix_inner_mono. exact E.
Qed.
End PrefixFacts.

(** *** The value of an update *)



Section PrefixValue.
Variables DecState DecOut LMState : Type.
Variable self : BeamTDTInfer R.
Variable joint : Z -> DecOut -> list R * list R.
Variable compute_ngram_score : LMState -> Z -> R * LMState.




End PrefixValue.






(** Without a model the accumulated delta is the sum of the token scores
    alone: two tokens, scored [-3 + -6] and [-4 + -6]. *)
Example prefix_update_without_model :
  prefix_update Examples.maesR Examples.joint_steps Examples.no_lmR 0 2
                Examples.longest Examples.shorter
  = Some (set_score Examples.longest (Rlogaddexp (-1) (-2 + -19))).
Proof.
  unfold prefix_update, prefix_tail, zero_duration_logp. simpl.
  unfold set_score. simpl. do 3 f_equal. lra.
Qed.

(** ** Runs of the searches on the concrete decoders *)

(** The lists [now3] and [future3] are those of the default search after
    the first expansion at frame 0; the termination check fires there. *)
Example default_expand_first :
  match default_expand Examples.default3 Examples.no_decoder
                       Examples.joint_flat 0 1
                       [default_start_hyp unit unit Examples.default3 tt] []
  with
  | Some (hyps, kept_hyps, stop) =>
      map Examples.view hyps = map Examples.view Examples.now3
      /\ map Examples.view kept_hyps
         = map Examples.view
               (sorted_by (key_asc score) Examples.future3)
      /\ stop = true
  | None => False
  end.
Proof. vm_compute. auto. Qed.

(** C1 fails on the code for the maes search: with durations [0, 1, 2]
    the zero-duration index is 0, which Python takes for false, so the
    substitution of round [n] is skipped.  At frame 0 the blank with
    duration index 0 is the best expansion of the start hypothesis; the
    hypothesis kept for it has the tokens of its parent and has not left
    frame 0. *)
Theorem maes_blank_keeps_zero_duration :
  maes_duration_idx Examples.maes3 4 0 = 0%nat
  /\ nth_error (durations Examples.maes3) 0 = Some 0
  /\ option_map (map Examples.view)
       (maes_frame Examples.maes3 Examples.no_decoder Examples.joint_blank
                   Examples.no_lm [Examples.maes_start] 0)
     = Some [(-2, [4], 0); (-3, [4], 1)].
Proof. vm_compute. auto. Qed.

(** C2 fails on the code: the membership test is made on the token
    sequence with [k] appended twice.  Expanding [[blank]] by token 1 with
    duration 0 gives [[blank, 1]], which is in the snapshot, and the new
    hypothesis is put on the expansion list all the same. *)
Theorem maes_expand_one_duplicate_expanded :
  seq_in [4; 1] Examples.dup_check01 = true
  /\ seq_in [4; 1; 1] Examples.dup_check01 = false
  /\ option_map
       (fun b => (map Examples.view (list_exp b), map Examples.view (list_nb b)))
       (maes_expand_one Examples.maes3 Examples.no_lm 0 Examples.dup_check01
                        Examples.hyp_b [] [] (1%nat, 0%nat, -5)
                        (mkBuckets [] [] []))
     = Some ([(-5, [4; 1], 0)], []).
Proof. vm_compute. auto. Qed.

(** ** Invariants of the searches *)

(** Unfolds one step of the error monad in a hypothesis. *)
Ltac bind_inv H :=
  match type of H with
  | match ?e with Some _ => _ | None => None end = Some _ =>
      let E := fresh "E" in
      destruct e eqn:E; [| discriminate H]
  end.

Tactic Notation "bind_as" hyp(H) simple_intropattern(p) :=
  match type of H with
  | match ?e with Some _ => _ | None => None end = Some _ =>
      let E := fresh "E" in
      destruct e as [p |] eqn:E; [| discriminate H]
  end.

Lemma mapM_Forall {A B} (f : A -> option B) (P : A -> Prop) (Q : B -> Prop)
      (l : list A) (l' : list B) :
  (forall x y, P x -> f x = Some y -> Q y) ->
  Forall P l -> mapM f l = Some l' -> Forall Q l'.
Proof.
  intros Hf. revert l'. induction l as [| x r IH]; simpl; intros l' HP H.
  - inversion H. constructor.
  - inversion HP; subst. bind_inv H. bind_inv H. inversion H; subst.
    constructor; eauto.
Qed.

Lemma mapM_length {A B} (f : A -> option B) (l : list A) (l' : list B) :
  mapM f l = Some l' -> length l' = length l.
Proof.
  revert l'. induction l as [| x r IH]; simpl; intros l' H.
  - inversion H. reflexivity.
  - bind_inv H. bind_inv H. inversion H; subst. simpl. f_equal. now apply IH.
Qed.

Lemma Forall_incl {A} (P : A -> Prop) (l l' : list A) :
  (forall x, In x l' -> In x l) -> Forall P l -> Forall P l'.
Proof. rewrite !Forall_forall. auto. Qed.

Section Invariants.
Context {S : Type} {SC : Score S}.
Variables DecState DecOut LMState : Type.
Variable self : BeamTDTInfer S.
Variable initialize_state : DecState.
Variable score_hypothesis : Hyp S DecState DecOut LMState -> DecOut * DecState.
Variable joint : Z -> DecOut -> list S * list S.
Variable compute_ngram_score : LMState -> Z -> S * LMState.
Variable init_lm_state : LMState.

Lemma remove_duplicate_hypotheses_incl
      (l : list (Hyp S DecState DecOut LMState))
      (r : Hyp S DecState DecOut LMState) :
  In r (remove_duplicate_hypotheses l) -> In r l.
Proof.
  rewrite remove_duplicate_hypotheses_retain. intros H.
  apply retain_first_first in H. destruct H as (_ & l1 & l2 & Hl & _).
  apply (sorted_by_In (key_desc score)). rewrite Hl. apply in_elt.
Qed.

Lemma keep_best_incl (l : list (Hyp S DecState DecOut LMState))
      (r : Hyp S DecState DecOut LMState) :
  In r (keep_best self l) -> In r l.
Proof.
  unfold keep_best. intros H. apply py_take_incl in H.
  apply sorted_by_In in H. now apply remove_duplicate_hypotheses_incl.
Qed.

Lemma keep_best_length (l : list (Hyp S DecState DecOut LMState)) :
  0 <= beam self -> Z.of_nat (length (keep_best self l)) <= beam self.
Proof. intros H. unfold keep_best. now apply py_take_length. Qed.

(** *** The frontier of the maes search *)

Lemma maes_rounds_bound (left : nat) :
  forall n t duplication_check hyps list_b0 list_nb0
         (kept_hyps out : list (Hyp S DecState DecOut LMState)),
    0 <= beam self ->
    Z.of_nat (length kept_hyps) <= beam self ->
    maes_rounds self score_hypothesis joint compute_ngram_score left n t
                duplication_check hyps list_b0 list_nb0 kept_hyps = Some out ->
    Z.of_nat (length out) <= beam self.
Proof.
  induction left as [| left' IH]; simpl;
    intros n t dc hyps lb lnb kept out Hb Hk H.
  - inversion H; subst. exact Hk.
  - bind_as H stacked. bind_as H beam_rows. bind_as H tok. bind_as H dur.
    bind_as H k_expansions. bind_as H b.
    destruct (map (update_hyp score_hypothesis) (list_exp b)) as [| e es].
    + inversion H; subst. now apply keep_best_length.
    + destruct (n <? maes_num_steps self - 1).
      * eapply IH; eassumption.
      * bind_inv H. inversion H; subst. now apply keep_best_length.
Qed.

Lemma maes_frame_bound (kept_hyps out : list (Hyp S DecState DecOut LMState))
      (t : Z) :
  0 <= beam self ->
  Z.of_nat (length kept_hyps) <= beam self ->
  maes_frame self score_hypothesis joint compute_ngram_score kept_hyps t
  = Some out ->
  Z.of_nat (length out) <= beam self.
Proof.
  intros Hb Hk. unfold maes_frame.
  pose proof (filter_length_le (fun x => t <? last_frame x) kept_hyps) as Hf.
  destruct (filter (fun x => last_frame x =? t) kept_hyps) as [| h hs].
  - intros H. inversion H; subst. lia.
  - intros H. bind_inv H. eapply maes_rounds_bound; [exact Hb | | exact H]. lia.
Qed.

Lemma frames_invariant (P : list (Hyp S DecState DecOut LMState) -> Prop)
      (body : list (Hyp S DecState DecOut LMState) -> Z
              -> Outcome (list (Hyp S DecState DecOut LMState))) :
  (forall kept t out, P kept -> body kept t = Returns out -> P out) ->
  forall ts kept out,
    P kept -> frames body ts kept = Returns out -> P out.
Proof.
  intros Hbody ts. induction ts as [| t ts' IH]; simpl; intros kept out HP H.
  - inversion H; subst. exact HP.
  - destruct (body kept t) as [k' | |] eqn:E; try discriminate.
    eapply IH; [| exact H]. eapply Hbody; eassumption.
Qed.

Lemma sort_nbest_perm (l : list (Hyp S DecState DecOut LMState)) :
  Permutation (sort_nbest self l) l.
Proof. unfold sort_nbest. destruct (score_norm self); apply sorted_by_perm. Qed.
(** *** The frontier of the default search *)

Lemma termination_check_stop
      (hyps kept_hyps out : list (Hyp S DecState DecOut LMState)) :
  termination_check self hyps kept_hyps = (out, true) ->
  beam self <= Z.of_nat (length out).
Proof.
  unfold termination_check.
  destruct (max_by (key_asc score) hyps) as [best |]; [| discriminate].
  match goal with
  | |- (if ?c then _ else _) = _ -> _ => destruct c eqn:Hc
  end; [| discriminate].
  intros H. inversion H; subst. now apply Z.leb_le.
Qed.

Lemma termination_check_empty
      (kept_hyps out : list (Hyp S DecState DecOut LMState)) (stop : bool) :
  0 <= beam self ->
  termination_check self [] kept_hyps = (out, stop) ->
  stop = false /\ Z.of_nat (length out) <= beam self.
Proof.
  unfold termination_check. simpl. intros Hb H. inversion H; subst.
  split; [reflexivity | now apply py_take_length].
Qed.

Lemma termination_check_incl
      (hyps kept_hyps out : list (Hyp S DecState DecOut LMState))
      (stop : bool) (x : Hyp S DecState DecOut LMState) :
  termination_check self hyps kept_hyps = (out, stop) ->
  In x out -> In x kept_hyps.
Proof.
  unfold termination_check.
  destruct (max_by (key_asc score) hyps) as [best |].
  - match goal with
    | |- (if ?c then _ else _) = _ -> _ => destruct c
    end; intros H Hx; inversion H; subst; [| exact Hx].
    apply sorted_by_In, filter_In in Hx. tauto.
  - intros H Hx. inversion H; subst.
    apply py_take_incl, sorted_by_In in Hx. exact Hx.
Qed.

(** The last step of an expansion is the termination check on the
    lists the two loops and the duplicate suppression leave. *)
Lemma default_expand_check (time_idx encoded_lengths : Z)
      (hyps kept_hyps hyps' kept_hyps' : list (Hyp S DecState DecOut LMState))
      (stop : bool) :
  default_expand self score_hypothesis joint time_idx encoded_lengths
                 hyps kept_hyps = Some (hyps', kept_hyps', stop) ->
  exists kept, termination_check self hyps' kept = (kept_hyps', stop).
Proof.
  unfold default_expand. intros H.
  bind_as H max_hyp.
  destruct (score_hypothesis max_hyp) as [decoder_output decoder_state].
  destruct (joint time_idx decoder_output) as [logp durations_logp].
  bind_as H [logp_topks logp_topk_idxs].
  bind_as H [durations_logp_topks durations_logp_topk_idxs].
  bind_as H [sum_logp_topks sum_logp_topk_idxs].
  bind_as H [hyps1 kept1].
  bind_as H kept2.
  destruct (termination_check self hyps1 (remove_duplicate_hypotheses kept2))
    as [k st] eqn:Et.
  inversion H; subst. eauto.
Qed.

Lemma default_while_bound (fuel : nat) :
  forall time_idx encoded_lengths
         (hyps kept_hyps out : list (Hyp S DecState DecOut LMState))
         (stopped : bool),
    0 <= beam self ->
    default_while self score_hypothesis joint fuel time_idx encoded_lengths
                  hyps kept_hyps = Returns (out, stopped) ->
    if stopped then beam self <= Z.of_nat (length out)
    else (hyps = [] /\ out = kept_hyps) \/ Z.of_nat (length out) <= beam self.
Proof.
  induction fuel as [| fuel' IH]; intros t L hyps kept out stopped Hb H.
  - destruct hyps; simpl in H; [| discriminate].
    inversion H; subst. auto.
  - destruct hyps as [| h hs]; simpl in H.
    { inversion H; subst. auto. }
    destruct (default_expand self score_hypothesis joint t L (h :: hs) kept)
      as [[[hyps' kept'] stop] |] eqn:E; [| discriminate].
    apply default_expand_check in E. destruct E as (kd & Hkd).
    destruct stop.
    + inversion H; subst. eapply termination_check_stop. exact Hkd.
    + apply IH in H; [| exact Hb]. destruct stopped; [exact H |].
      destruct H as [[-> ->] | H]; [| now right].
      right. eapply termination_check_empty; eassumption.
Qed.

(** C4, as the code has it, for a beam of at least one.  In the maes
    search the surviving set has at most [beam] members after every frame
    of a run from the start hypothesis, hence at the end of the search.
    In the default search a frame without a hypothesis of its own passes
    the hypotheses of later frames on as they are; a frame whose loop runs
    until no hypothesis of the frame is left passes on at most [beam]; a
    frame left through the termination check passes on all the hypotheses
    that qualified, which are at least [beam]. *)
Theorem frontier_bound :
  1 <= beam self ->
  (forall (ts : list Z) (kept_hyps : list (Hyp S DecState DecOut LMState)),
      frames (fun kept_hyps t =>
                match maes_frame self score_hypothesis joint
                                 compute_ngram_score kept_hyps t with
                | Some kept_hyps' => Returns kept_hyps'
                | None => Raises
                end)
             ts [maes_start_hyp self initialize_state score_hypothesis
                                init_lm_state]
      = Returns kept_hyps ->
      Z.of_nat (length kept_hyps) <= beam self)
  /\ (forall (encoded_lengths : Z) nbest_hyps,
        modified_adaptive_expansion_search self initialize_state
          score_hypothesis joint compute_ngram_score init_lm_state
          encoded_lengths = Returns nbest_hyps ->
        Z.of_nat (length nbest_hyps) <= beam self)
  /\ (forall (fuel : nat) (encoded_lengths time_idx : Z)
             (kept_hyps out : list (Hyp S DecState DecOut LMState))
             (stopped : bool),
        default_while self score_hypothesis joint fuel time_idx encoded_lengths
          (filter (fun hyp => last_frame hyp =? time_idx) kept_hyps)
          (filter (fun hyp => time_idx <? last_frame hyp) kept_hyps)
        = Returns (out, stopped) ->
        if stopped then beam self <= Z.of_nat (length out)
        else match filter (fun hyp => last_frame hyp =? time_idx) kept_hyps with
             | [] => out = filter (fun hyp => time_idx <? last_frame hyp)
                                  kept_hyps
             | _ :: _ => Z.of_nat (length out) <= beam self
             end).
Proof.
  intros Hb1.
  assert (Hb : 0 <= beam self) by lia.
  assert (Hrun : forall (ts : list Z)
                        (kept_hyps : list (Hyp S DecState DecOut LMState)),
             frames (fun kept_hyps t =>
                       match maes_frame self score_hypothesis joint
                                        compute_ngram_score kept_hyps t with
                       | Some kept_hyps' => Returns kept_hyps'
                       | None => Raises
                       end)
                    ts [maes_start_hyp self initialize_state score_hypothesis
                                       init_lm_state]
             = Returns kept_hyps ->
             Z.of_nat (length kept_hyps) <= beam self).
  { intros ts kept.
    apply (frames_invariant (fun l => Z.of_nat (length l) <= beam self)).
    - intros k t out Hk Hf.
      destruct (maes_frame self score_hypothesis joint compute_ngram_score k t)
        as [k' |] eqn:Ek; [| discriminate].
      inversion Hf; subst. eapply maes_frame_bound; eassumption.
    - simpl. lia. }
  split; [exact Hrun |]. split.
  - intros T nbest. unfold modified_adaptive_expansion_search.
    destruct (frames _ _ _) as [kept | |] eqn:E; simpl; try discriminate.
    intros H. inversion H; subst.
    rewrite (Permutation_length (sort_nbest_perm kept)).
    eapply Hrun. exact E.
  - intros fuel L t kept out stopped H.
    destruct (filter (fun hyp => last_frame hyp =? t) kept) as [| h hs].
    + destruct fuel; simpl in H; inversion H; subst; reflexivity.
    + apply default_while_bound in H; [| exact Hb].
      destruct stopped; [exact H |].
      destruct H as [[Hnil _] | H]; [discriminate | exact H].
Qed.
End Invariants.

Lemma frontier_bound_witness :
  1 <= beam Examples.maes3
  /\ exists kept_hyps,
       frames (fun kept_hyps t =>
                 match maes_frame Examples.maes3 Examples.no_decoder
                                  Examples.joint_blank Examples.no_lm
                                  kept_hyps t with
                 | Some kept_hyps' => Returns kept_hyps'
                 | None => Raises
                 end)
              [0; 1] [maes_start_hyp Examples.maes3 tt Examples.no_decoder tt]
       = Returns kept_hyps
       /\ Z.of_nat (length kept_hyps) <= beam Examples.maes3.
Proof.
  assert (Hb : 1 <= beam Examples.maes3) by (vm_compute; discriminate).
  split; [exact Hb |].
  eexists. split; [vm_compute; reflexivity |].
  eapply (proj1 (frontier_bound Examples.maes3 tt Examples.no_decoder
                                Examples.joint_blank Examples.no_lm tt Hb))
    with (ts := [0; 1]).
  vm_compute. reflexivity.
Defined.

(** C4 as stated fails for the default search: with a beam of three, the
    first frame is left through the termination check with four
    hypotheses. *)
Lemma default_frame_exceeds_beam :
  ~ (forall (self : BeamTDTInfer Z) (joint : Z -> unit -> list Z * list Z)
            (fuel : nat) (encoded_lengths time_idx : Z)
            (kept_hyps out : list Examples.ZHyp),
       Z.of_nat (length kept_hyps) <= beam self ->
       default_frame self Examples.no_decoder joint fuel encoded_lengths
                     kept_hyps time_idx = Returns out ->
       Z.of_nat (length out) <= beam self).
Proof.
  intros H.
  assert (Hrun : exists out,
             default_frame Examples.default3 Examples.no_decoder
                           Examples.joint_flat 5 1
                           [default_start_hyp unit unit Examples.default3 tt] 0
             = Returns out /\ length out = 4%nat).
  { eexists. split; vm_compute; reflexivity. }
  destruct Hrun as (out & Hout & Hlen).
  apply H in Hout; [| vm_compute; discriminate].
  unfold Examples.ZHyp in *. rewrite Hlen in Hout.
  vm_compute in Hout. apply Hout. reflexivity.
Qed.

(** ** The shape of the token sequences *)

Lemma topk_idxs_bound {S} `{Score S} (k : Z) (l : list S)
      (vals : list S) (idxs : list nat) :
  topk k l = Some (vals, idxs) ->
  Forall (fun i => (i < length l)%nat) idxs.
Proof.
  unfold topk. destruct (_ && _); [| discriminate].
  intros Heq. inversion Heq; subst. apply Forall_forall. intros i Hi.
  apply in_map_iff in Hi. destruct Hi as ([v j] & Hj & Hin). simpl in Hj; subst j.
  apply firstn_incl, sorted_by_In, in_combine_r, in_seq in Hin. lia.
Qed.

Lemma without_last_length {S} (l : list S) :
  length (without_last l) = pred (length l).
Proof.
  unfold without_last. rewrite removelast_firstn_len, length_firstn. lia.
Qed.

Section TokenShape.
Context {S : Type} {SC : Score S}.
Variables DecState DecOut LMState : Type.
Variable self : BeamTDTInfer S.
Variable initialize_state : DecState.
Variable score_hypothesis : Hyp S DecState DecOut LMState -> DecOut * DecState.
Variable joint : Z -> DecOut -> list S * list S.
Variable compute_ngram_score : LMState -> Z -> S * LMState.
Variable init_lm_state : LMState.

Lemma tokens_ok_start : tokens_ok self [blank self].
Proof. exists []. split; [reflexivity | intros []]. Qed.

Lemma tokens_ok_app (y : list Z) (k : Z) :
  tokens_ok self y -> k <> blank self -> tokens_ok self (y ++ [k]).
Proof.
  intros (tokens & -> & Hn) Hk. exists (tokens ++ [k]). split; [reflexivity |].
  intros Hin. apply in_app_or in Hin. destruct Hin as [Hin | [Hin | []]]; auto.
Qed.

Lemma ok_in_app (l1 l2 : list (Hyp S DecState DecOut LMState)) :
  Forall (hyp_ok self) l1 -> Forall (hyp_ok self) l2 ->
  Forall (hyp_ok self) (l1 ++ l2).
Proof. intros H1 H2. apply Forall_app. now split. Qed.

Lemma ok_filter (p : Hyp S DecState DecOut LMState -> bool)
      (l : list (Hyp S DecState DecOut LMState)) :
  Forall (hyp_ok self) l -> Forall (hyp_ok self) (filter p l).
Proof.
  apply Forall_incl. intros x Hx. apply filter_In in Hx. tauto.
Qed.

Lemma ok_keep_best (l : list (Hyp S DecState DecOut LMState)) :
  Forall (hyp_ok self) l -> Forall (hyp_ok self) (keep_best self l).
Proof. apply Forall_incl. intros x. apply keep_best_incl. Qed.

Lemma ok_remove_duplicates (l : list (Hyp S DecState DecOut LMState)) :
  Forall (hyp_ok self) l -> Forall (hyp_ok self) (remove_duplicate_hypotheses l).
Proof. apply Forall_incl. intros x. apply remove_duplicate_hypotheses_incl. Qed.

Lemma ok_sort_nbest (l : list (Hyp S DecState DecOut LMState)) :
  Forall (hyp_ok self) l -> Forall (hyp_ok self) (sort_nbest self l).
Proof.
  apply Forall_incl. intros x. apply Permutation_in, sort_nbest_perm.
Qed.

Lemma ok_prefix_search (hypotheses out : list (Hyp S DecState DecOut LMState))
      (t prefix_alpha : Z) :
  Forall (hyp_ok self) hypotheses ->
  prefix_search self joint compute_ngram_score hypotheses t prefix_alpha
  = Some out ->
  Forall (hyp_ok self) out.
Proof.
  intros Hok H. apply prefix_search_mono in H.
  induction H as [| h h' l l' [_ He] _ IH]; [constructor |].
  inversion Hok; subst. constructor; [| now apply IH].
  rewrite He. assumption.
Qed.

Lemma ok_update_hyp (h : Hyp S DecState DecOut LMState) :
  hyp_ok self h -> hyp_ok self (update_hyp score_hypothesis h).
Proof. unfold update_hyp. now destruct (score_hypothesis h). Qed.

Lemma ok_close_expansion (t : Z) (h c : Hyp S DecState DecOut LMState) :
  hyp_ok self h -> close_expansion self joint t h = Some c -> hyp_ok self c.
Proof.
  unfold close_expansion. intros Hok H.
  bind_as H [beam_logp_i beam_duration_logp_i].
  bind_as H [v beam_max_duration_idx].
  do 3 bind_inv H. inversion H; subst. exact Hok.
Qed.

(** *** The maes search *)

Lemma ok_snoc (l : list (Hyp S DecState DecOut LMState))
      (h : Hyp S DecState DecOut LMState) :
  Forall (hyp_ok self) l -> hyp_ok self h -> Forall (hyp_ok self) (l ++ [h]).
Proof. intros Hl Hh. apply ok_in_app; [exact Hl | now constructor]. Qed.

Lemma ok_maes_expand_one (t : Z) (duplication_check : list (list Z))
      (hyp : Hyp S DecState DecOut LMState)
      (beam_logp_i beam_duration_logp_i : list S) (x : Expansion S)
      (b b' : Buckets S DecState DecOut LMState) :
  hyp_ok self hyp -> buckets_ok self b ->
  maes_expand_one self compute_ngram_score t duplication_check hyp
                  beam_logp_i beam_duration_logp_i x b = Some b' ->
  buckets_ok self b'.
Proof.
  intros Hok (Hb & Hnb & Hexp). unfold maes_expand_one.
  destruct x as [[k duration_idx] new_score].
  intros H. bind_as H duration.
  destruct (Z.eqb_spec (Z.of_nat k) (blank self)) as [Hk | Hk].
  - destruct (ngram_lm self).
    + do 2 bind_inv H. inversion H; subst.
      repeat split; simpl; auto. now apply ok_snoc.
    + inversion H; subst. repeat split; simpl; auto. now apply ok_snoc.
  - assert (Hnew : tokens_ok self (y_sequence hyp ++ [Z.of_nat k])).
    { now apply tokens_ok_app. }
    bind_as H new_hyp.
    assert (Hn : hyp_ok self new_hyp).
    { match goal with En : _ = Some new_hyp |- _ => rename En into Hnh end.
      destruct (ngram_lm self); simpl in Hnh.
      - bind_as Hnh st.
        destruct (compute_ngram_score st (Z.of_nat k)) as [lm_score st'].
        inversion Hnh; subst. exact Hnew.
      - inversion Hnh; subst. exact Hnew. }
    destruct (_ && _); inversion H; subst;
      repeat split; simpl; auto; now apply ok_snoc.
Qed.

Lemma ok_maes_expand_hyp (t : Z) (duplication_check : list (list Z))
      (hyp : Hyp S DecState DecOut LMState)
      (beam_logp_i beam_duration_logp_i : list S) (xs : list (Expansion S)) :
  hyp_ok self hyp ->
  forall b b' : Buckets S DecState DecOut LMState,
    buckets_ok self b ->
    maes_expand_hyp self compute_ngram_score t duplication_check hyp
                    beam_logp_i beam_duration_logp_i xs b = Some b' ->
    buckets_ok self b'.
Proof.
  intros Hok. induction xs as [| x xs' IH]; simpl; intros b b' Hb H.
  - inversion H; subst. exact Hb.
  - bind_as H b1. eapply IH; [| exact H].
    eapply ok_maes_expand_one; eassumption.
Qed.

Lemma ok_maes_expand_all (t : Z) (duplication_check : list (list Z))
      (rows : list (Hyp S DecState DecOut LMState * (list S * list S)
                    * list (Expansion S))) :
  Forall (fun r => hyp_ok self (fst (fst r))) rows ->
  forall b b' : Buckets S DecState DecOut LMState,
    buckets_ok self b ->
    maes_expand_all self compute_ngram_score t duplication_check rows b
    = Some b' ->
    buckets_ok self b'.
Proof.
  induction rows as [| [[hyp [lp dlp]] xs] rows' IH]; simpl;
    intros Hrows b b' Hb H.
  - inversion H; subst. exact Hb.
  - inversion Hrows; subst. bind_as H b1.
    eapply IH; [assumption | | exact H].
    eapply ok_maes_expand_hyp; eassumption.
Qed.

Lemma ok_maes_rounds (left : nat) :
  forall n t duplication_check
         (hyps list_b0 list_nb0 kept_hyps out
          : list (Hyp S DecState DecOut LMState)),
    Forall (hyp_ok self) hyps -> Forall (hyp_ok self) list_b0 ->
    Forall (hyp_ok self) list_nb0 -> Forall (hyp_ok self) kept_hyps ->
    maes_rounds self score_hypothesis joint compute_ngram_score left n t
                duplication_check hyps list_b0 list_nb0 kept_hyps = Some out ->
    Forall (hyp_ok self) out.
Proof.
  induction left as [| left' IH]; simpl;
    intros n t dc hyps lb lnb kept out Hh Hlb Hlnb Hk H.
  - inversion H; subst. exact Hk.
  - bind_as H stacked. bind_as H beam_rows. bind_as H tok. bind_as H dur.
    bind_as H k_expansions. bind_as H b.
    assert (Hb : buckets_ok self b).
    { eapply ok_maes_expand_all; [| | eassumption].
      - apply Forall_forall. intros [[h r] xs] Hin. simpl.
        apply in_combine_l, in_combine_l in Hin.
        rewrite Forall_forall in Hh. auto.
      - repeat split; simpl; auto. }
    destruct Hb as (Hb1 & Hb2 & Hb3).
    assert (Hnb1 : Forall (hyp_ok self)
                          (map (update_hyp score_hypothesis) (list_nb b))).
    { apply Forall_map. eapply Forall_impl; [| exact Hb2].
      intros a. apply ok_update_hyp. }
    assert (Hexp1 : Forall (hyp_ok self)
                           (map (update_hyp score_hypothesis) (list_exp b))).
    { apply Forall_map. eapply Forall_impl; [| exact Hb3].
      intros a. apply ok_update_hyp. }
    destruct (map (update_hyp score_hypothesis) (list_exp b)) as [| e es].
    + inversion H; subst. apply ok_keep_best. repeat apply ok_in_app; auto.
    + destruct (n <? maes_num_steps self - 1).
      * eapply IH; [| | | | exact H]; auto. now apply ok_remove_duplicates.
      * bind_as H closed. inversion H; subst. apply ok_keep_best.
        repeat apply ok_in_app; auto.
        eapply mapM_Forall; [| exact Hexp1 | eassumption].
        intros x y Hx Hy. eapply ok_close_expansion; eassumption.
Qed.

Lemma ok_maes_frame (kept_hyps out : list (Hyp S DecState DecOut LMState))
      (t : Z) :
  Forall (hyp_ok self) kept_hyps ->
  maes_frame self score_hypothesis joint compute_ngram_score kept_hyps t
  = Some out ->
  Forall (hyp_ok self) out.
Proof.
  intros Hk. unfold maes_frame.
  pose proof (ok_filter (fun x => last_frame x =? t) Hk) as Hnow.
  pose proof (ok_filter (fun x => t <? last_frame x) Hk) as Hlater.
  destruct (filter (fun x => last_frame x =? t) kept_hyps) as [| h hs].
  - intros H. inversion H; subst. exact Hlater.
  - intros H. bind_as H hyps.
    eapply ok_maes_rounds; [| | | | exact H]; auto.
    destruct (zero_duration_idx self).
    + eapply ok_prefix_search; [| exact E].
      apply sorted_by_Forall. exact Hnow.
    + inversion E; subst. exact Hnow.
Qed.

Lemma ok_maes_start :
  hyp_ok self (maes_start_hyp self initialize_state score_hypothesis
                              init_lm_state).
Proof.
  unfold maes_start_hyp. destruct (score_hypothesis _). apply tokens_ok_start.
Qed.

(** *** The default search *)

(** The layout the default search relies on: the blank is the last entry
    of the token log-probabilities (or lies beyond them), so that
    [logp[:-1]] holds no blank. *)
Hypothesis blank_last :
  forall t d, Z.of_nat (length (fst (joint t d))) <= blank self + 1.

Lemma ok_nonblank_loop (time_idx encoded_lengths : Z)
      (max_hyp : Hyp S DecState DecOut LMState) (decoder_state : DecState)
      (logp_topk_idxs durations_logp_topk_idxs : list nat)
      (pairs : list (S * nat)) :
  hyp_ok self max_hyp ->
  Forall (fun i => Z.of_nat i <> blank self) logp_topk_idxs ->
  forall hyps kept_hyps hyps' kept_hyps',
    Forall (hyp_ok self) hyps -> Forall (hyp_ok self) kept_hyps ->
    nonblank_loop self time_idx encoded_lengths max_hyp decoder_state
                  logp_topk_idxs durations_logp_topk_idxs pairs hyps kept_hyps
    = Some (hyps', kept_hyps') ->
    Forall (hyp_ok self) hyps' /\ Forall (hyp_ok self) kept_hyps'.
Proof.
  intros Hmax Hidx.
  induction pairs as [| [sum_logp_topk sum_logp_topk_idx] pairs' IH]; simpl;
    intros hyps kept hyps' kept' Hh Hk H.
  - inversion H; subst. auto.
  - bind_as H [new_hyp duration].
    assert (Hnew : hyp_ok self new_hyp).
    { unfold nonblank_child in E.
      bind_as E didx. bind_as E d. bind_as E token.
      inversion E; subst. apply tokens_ok_app; [exact Hmax |].
      rewrite Forall_forall in Hidx. apply Hidx.
      eapply nth_error_In. eassumption. }
    destruct (duration =? 0); (eapply IH; [| | exact H]); auto using ok_snoc.
Qed.

Lemma ok_blank_loop (encoded_lengths : Z)
      (max_hyp : Hyp S DecState DecOut LMState)
      (logp durations_logp : list S) (topk_size : nat) (idxs : list nat) :
  hyp_ok self max_hyp ->
  forall kept_hyps kept_hyps',
    Forall (hyp_ok self) kept_hyps ->
    blank_loop self encoded_lengths max_hyp logp durations_logp topk_size
               idxs kept_hyps = Some kept_hyps' ->
    Forall (hyp_ok self) kept_hyps'.
Proof.
  intros Hmax. induction idxs as [| duration_idx idxs' IH]; simpl;
    intros kept kept' Hk H.
  - inversion H; subst. exact Hk.
  - destruct (blank_duration_idx self topk_size duration_idx) as [j |].
    + bind_as H new_hyp. eapply IH; [| exact H]. apply ok_snoc; [exact Hk |].
      unfold blank_child in E. do 3 bind_inv E. inversion E; subst. exact Hmax.
    + eapply IH; eassumption.
Qed.

Lemma ok_default_expand (time_idx encoded_lengths : Z)
      (hyps kept_hyps hyps' kept_hyps' : list (Hyp S DecState DecOut LMState))
      (stop : bool) :
  Forall (hyp_ok self) hyps -> Forall (hyp_ok self) kept_hyps ->
  default_expand self score_hypothesis joint time_idx encoded_lengths
                 hyps kept_hyps = Some (hyps', kept_hyps', stop) ->
  Forall (hyp_ok self) hyps' /\ Forall (hyp_ok self) kept_hyps'.
Proof.
  intros Hh Hk. unfold default_expand. intros H.
  bind_as H max_hyp.
  assert (Hmax : hyp_ok self max_hyp).
  { rewrite Forall_forall in Hh. apply Hh. eapply max_by_In. eassumption. }
  assert (Hrest : Forall (hyp_ok self) (remove_max (key_asc score) hyps)).
  { eapply Forall_incl; [| exact Hh]. intros x Hx.
    eapply Permutation_in; [symmetry; eapply remove_max_perm; eassumption |].
    now right. }
  destruct (score_hypothesis max_hyp) as [decoder_output decoder_state].
  pose proof (blank_last time_idx decoder_output) as Hlast.
  destruct (joint time_idx decoder_output) as [logp durations_logp].
  simpl in Hlast.
  bind_as H [logp_topks logp_topk_idxs].
  bind_as H [durations_logp_topks durations_logp_topk_idxs].
  bind_as H [sum_logp_topks sum_logp_topk_idxs].
  bind_as H [hyps1 kept1].
  bind_as H kept2.
  destruct (termination_check self hyps1 (remove_duplicate_hypotheses kept2))
    as [k st] eqn:Et.
  inversion H; subst.
  assert (Hidx : Forall (fun i => Z.of_nat i <> blank self) logp_topk_idxs).
  { match goal with
    | Ht : topk (beam_k self) (without_last logp) = Some _ |- _ =>
        apply topk_idxs_bound in Ht; rewrite without_last_length in Ht;
        eapply Forall_impl; [| exact Ht]
    end.
    intros i Hi. simpl in Hi. lia. }
  match goal with
  | Hn : nonblank_loop _ _ _ _ _ _ _ _ _ _ = Some _ |- _ =>
      destruct (ok_nonblank_loop _ _ _ _ _ Hmax Hidx Hrest Hk Hn)
        as [Hh1 Hk1]
  end.
  split; [exact Hh1 |].
  match goal with
  | Hb : blank_loop _ _ _ _ _ _ _ _ = Some _ |- _ =>
      pose proof (ok_blank_loop _ _ _ _ _ Hmax Hk1 Hb) as Hk2
  end.
  eapply Forall_incl; [| apply ok_remove_duplicates; exact Hk2].
  intros x Hx. eapply termination_check_incl; eassumption.
Qed.

Lemma ok_default_while (fuel : nat) :
  forall time_idx encoded_lengths
         (hyps kept_hyps out : list (Hyp S DecState DecOut LMState))
         (stopped : bool),
    Forall (hyp_ok self) hyps -> Forall (hyp_ok self) kept_hyps ->
    default_while self score_hypothesis joint fuel time_idx encoded_lengths
                  hyps kept_hyps = Returns (out, stopped) ->
    Forall (hyp_ok self) out.
Proof.
  induction fuel as [| fuel' IH]; intros t L hyps kept out stopped Hh Hk H.
  - destruct hyps; simpl in H; [| discriminate]. inversion H; subst. exact Hk.
  - destruct hyps as [| h hs]; simpl in H.
    { inversion H; subst. exact Hk. }
    destruct (default_expand self score_hypothesis joint t L (h :: hs) kept)
      as [[[hyps' kept'] stop] |] eqn:E; [| discriminate].
    apply ok_default_expand in E; auto. destruct E as [Hh' Hk'].
    destruct stop.
    + inversion H; subst. exact Hk'.
    + eapply IH; [| | exact H]; assumption.
Qed.

Lemma ok_default_frame (fuel : nat) (encoded_lengths time_idx : Z)
      (kept_hyps out : list (Hyp S DecState DecOut LMState)) :
  Forall (hyp_ok self) kept_hyps ->
  default_frame self score_hypothesis joint fuel encoded_lengths kept_hyps
                time_idx = Returns out ->
  Forall (hyp_ok self) out.
Proof.
  intros Hk. unfold default_frame.
  destruct (default_while _ _ _ _ _ _ _ _) as [[o st] | |] eqn:E;
    simpl; try discriminate.
  intros H. inversion H; subst.
  eapply ok_default_while; [| | exact E]; now apply ok_filter.
Qed.
End TokenShape.

(** C8, as the code has it: a token sequence starts with the sentinel
    blank and holds no blank after it.  The maes search keeps this for
    every hypothesis of every frame and of its result.  The default
    search keeps it, for both of its lists after every expansion and for
    its result, when the blank is the last entry of the token
    log-probabilities (the layout of [logits], with [blank_idx] the
    vocabulary size): it appends positions of [logp[:-1]] without a look
    at the blank id. *)
Theorem token_sequences_shape :
  forall (S : Type) (SC : Score S) (DecState DecOut LMState : Type)
         (self : BeamTDTInfer S) (initialize_state : DecState)
         (score_hypothesis : Hyp S DecState DecOut LMState -> DecOut * DecState)
         (joint : Z -> DecOut -> list S * list S)
         (compute_ngram_score : LMState -> Z -> S * LMState)
         (init_lm_state : LMState),
    (forall kept_hyps out t,
        Forall (hyp_ok self) kept_hyps ->
        maes_frame self score_hypothesis joint compute_ngram_score kept_hyps t
        = Some out ->
        Forall (hyp_ok self) out)
    /\ (forall encoded_lengths nbest_hyps,
          modified_adaptive_expansion_search self initialize_state
            score_hypothesis joint compute_ngram_score init_lm_state
            encoded_lengths = Returns nbest_hyps ->
          Forall (hyp_ok self) nbest_hyps)
    /\ ((forall t d, Z.of_nat (length (fst (joint t d))) <= blank self + 1) ->
        (forall time_idx encoded_lengths hyps kept_hyps hyps' kept_hyps' stop,
            Forall (hyp_ok self) hyps -> Forall (hyp_ok self) kept_hyps ->
            default_expand self score_hypothesis joint time_idx
                           encoded_lengths hyps kept_hyps
            = Some (hyps', kept_hyps', stop) ->
            Forall (hyp_ok self) hyps' /\ Forall (hyp_ok self) kept_hyps')
        /\ (forall fuel encoded_lengths nbest_hyps,
              default_beam_search self initialize_state score_hypothesis
                                  joint fuel encoded_lengths
              = Returns nbest_hyps ->
              Forall (hyp_ok self) nbest_hyps)).
Proof.
  intros S SC DecState DecOut LMState self initialize_state score_hypothesis
         joint compute_ngram_score init_lm_state.
  split; [| split].
  - intros kept out t Hk H. eapply ok_maes_frame; eassumption.
  - intros T nbest. unfold modified_adaptive_expansion_search.
    destruct (frames _ _ _) as [kept | |] eqn:E; simpl; try discriminate.
    intros H. inversion H; subst. apply ok_sort_nbest.
    revert E. apply (frames_invariant (Forall (hyp_ok self))).
    + intros k t out Hk Hf.
      destruct (maes_frame self score_hypothesis joint compute_ngram_score k t)
        as [k' |] eqn:Ek; [| discriminate].
      inversion Hf; subst. eapply ok_maes_frame; eassumption.
    + constructor; [apply ok_maes_start | constructor].
  - intros Hlast. split.
    + intros t L hyps kept hyps' kept' stop Hh Hk H.
      eapply ok_default_expand;
        [exact compute_ngram_score | exact init_lm_state
         | exact Hlast | exact Hh | exact Hk | exact H].
    + intros fuel T nbest. unfold default_beam_search.
      destruct (frames _ _ _) as [kept | |] eqn:E; simpl; try discriminate.
      intros H. inversion H; subst. apply ok_sort_nbest.
      revert E. apply (frames_invariant (Forall (hyp_ok self))).
      * intros k t out Hk Hf.
        eapply ok_default_frame;
          [exact compute_ngram_score | exact init_lm_state
           | exact Hlast | exact Hk | exact Hf].
      * constructor; [apply tokens_ok_start | constructor].
Qed.

Lemma token_sequences_shape_witness :
  (forall t d, Z.of_nat (length (fst (Examples.joint_flat t d)))
               <= blank Examples.default3 + 1)
  /\ exists nbest_hyps,
       default_beam_search Examples.default3 tt Examples.no_decoder
                           Examples.joint_flat 5 1 = Returns nbest_hyps
       /\ Forall (hyp_ok Examples.default3) nbest_hyps.
Proof.
  assert (Hlast : forall t d,
             Z.of_nat (length (fst (Examples.joint_flat t d)))
             <= blank Examples.default3 + 1).
  { intros t d. vm_compute. discriminate. }
  split; [exact Hlast |].
  eexists. split; [vm_compute; reflexivity |].
  eapply (proj2 (proj2 (proj2 (@token_sequences_shape
                                 Z _ unit unit unit Examples.default3 tt
                                 Examples.no_decoder Examples.joint_flat
                                 Examples.no_lm tt)) Hlast))
    with (fuel := 5%nat) (encoded_lengths := 1).
  vm_compute. reflexivity.
Defined.

(** C8 as stated fails for the default search when the blank is not the
    last entry: with blank id 0 the most likely entry of [logp[:-1]] is the
    blank itself, and it is appended as a token. *)
Lemma default_search_appends_blank :
  ~ (forall (self : BeamTDTInfer Z) (joint : Z -> unit -> list Z * list Z)
            (fuel : nat) (encoded_lengths : Z)
            (nbest_hyps : list Examples.ZHyp),
       default_beam_search self tt Examples.no_decoder joint fuel
                           encoded_lengths = Returns nbest_hyps ->
       Forall (hyp_ok self) nbest_hyps).
Proof.
  intros H.
  assert (Hrun : exists h rest,
             default_beam_search Examples.blank_first tt Examples.no_decoder
                                 Examples.joint_first 5 1
             = Returns (h :: rest) /\ y_sequence h = [0; 0]).
  { eexists. eexists. split; vm_compute; reflexivity. }
  destruct Hrun as (h & rest & Hrun & Hy).
  apply H in Hrun. inversion Hrun as [| ? ? Hh _]; subst.
  destruct Hh as (tokens & Heq & Hn). rewrite Hy in Heq.
  inversion Heq; subst. apply Hn. now left.
Qed.

(** ** Further checks on the concrete decoders *)

(** The concrete decoders are what the constructor builds. *)
Example init_default3 :
  init true Examples.every_model_loads (mkInitArgs 4 4 [0; 1; 2] 3 "default" false true 2 1 2 0 false None 0)
  = inr Examples.default3.
Proof. reflexivity. Qed.

Example init_maes3 :
  init true Examples.every_model_loads (mkInitArgs 4 4 [0; 1; 2] 3 "maes" false true 2 1 2 0 false None 0)
  = inr Examples.maes3.
Proof. reflexivity. Qed.

Example init_greedy1 :
  init true Examples.every_model_loads (mkInitArgs 4 4 [0; 1; 2] 1 "default" false true 2 1 2 2 false None 0)
  = inr Examples.greedy1.
Proof. reflexivity. Qed.

Example init_blank_first :
  init true Examples.every_model_loads (mkInitArgs 0 2 [0; 1] 2 "default" false true 2 1 2 2 false None 0)
  = inr Examples.blank_first.
Proof. reflexivity. Qed.

(** Prune-by-value with margin 5 on the scores -10, -12, -14, -17, -20:
    the three candidates within the margin, in ascending order. *)
Example select_five :
  select_k_expansions_durations
    [Examples.start] [Examples.five_idxs] [Examples.five_logps]
    [[0%nat]] [[0]] 5
  = Some [[(2%nat, 0%nat, -14); (1%nat, 0%nat, -12); (0%nat, 0%nat, -10)]].
Proof. reflexivity. Qed.

(** Duplicate collapse: of two hypotheses with tokens [[4]] at frame 2 the
    one of score -20 is kept, not the one of score -35. *)
Example remove_duplicates_two :
  map Examples.view
      (remove_duplicate_hypotheses
         [Examples.hyp_of (-35) [4] 2; Examples.hyp_of (-20) [4] 2])
  = [(-20, [4], 2)].
Proof. reflexivity. Qed.

(** The default search builds its blank children with the index
    [blank_duration_idx] answers: never the zero-duration index itself,
    unless the substitute [min_non_zero_duration_idx] is that index (a
    table without a non-zero duration). *)
Lemma blank_duration_idx_substituted {S} (self : BeamTDTInfer S)
      (topk_size duration_idx j : nat) :
  blank_duration_idx self topk_size duration_idx = Some j ->
  is_zero_idx self j = true ->
  j = min_non_zero_duration_idx self.
Proof.
  unfold blank_duration_idx.
  destruct (is_zero_idx self duration_idx) eqn:Hz.
  - destruct (Nat.eqb topk_size 1); [| discriminate].
    intros H _. now inversion H.
  - intros H Hj. inversion H; subst. congruence.
Qed.

(** The maes search makes the same substitution when the zero-duration
    index is positive; at index 0 it makes none. *)
Lemma maes_duration_idx_substituted {S} (self : BeamTDTInfer S)
      (k duration_idx z : nat) :
  Z.of_nat k = blank self ->
  zero_duration_idx self = Some (Datatypes.S z) ->
  duration_idx = Datatypes.S z ->
  maes_duration_idx self k duration_idx = min_non_zero_duration_idx self.
Proof.
  intros Hk Hz ->. unfold maes_duration_idx, zero_duration_idx_truthy, is_zero_idx.
  rewrite Hz, Nat.eqb_refl. apply Z.eqb_eq in Hk. now rewrite Hk.
Qed.

Lemma maes_duration_idx_at_zero {S} (self : BeamTDTInfer S)
      (k duration_idx : nat) :
  zero_duration_idx self = Some 0%nat ->
  maes_duration_idx self k duration_idx = duration_idx.
Proof.
  intros Hz. unfold maes_duration_idx, zero_duration_idx_truthy.
  rewrite Hz. now rewrite andb_false_r.
Qed.

(** ** The prefix-score corrector returns *)

Lemma py_index_in_range {A} (l : list A) (i : Z) :
  0 <= i < Z.of_nat (length l) ->
  exists x, py_index l i = Some x /\ In x l.
Proof.
  intros Hi. unfold py_index.
  destruct (Z.leb_spec 0 i); [| lia].
  destruct (Z.ltb_spec i (Z.of_nat (length l))); [| lia]. simpl.
  destruct (nth_error l (Z.to_nat i)) as [x |] eqn:E.
  - exists x. split; [reflexivity |]. eapply nth_error_In. exact E.
  - apply nth_error_None in E. lia.
Qed.

Lemma py_last_nonempty {A} (l : list A) :
  l <> [] -> exists x, py_last l = Some x.
Proof.
  intros Hl. unfold py_last, py_index.
  assert (Hn : (0 < length l)%nat) by (destruct l; [congruence | simpl; lia]).
  destruct (Z.leb_spec 0 (-1)); [lia |]. simpl.
  destruct (Z.leb_spec (- Z.of_nat (length l)) (-1)); [| lia].
  simpl.
  destruct (nth_error l (Z.to_nat (Z.of_nat (length l) + -1))) as [x |] eqn:E.
  - eauto.
  - apply nth_error_None in E. lia.
Qed.

Lemma is_prefix_shorter (x pref : list Z) :
  is_prefix x pref = true -> (length pref < length x)%nat.
Proof.
  unfold is_prefix. intros H. apply andb_true_iff in H.
  destruct H as [H _]. now apply Nat.ltb_lt.
Qed.

Section PrefixReturns.
Context {S : Type} {SC : Score S}.
Variables DecState DecOut LMState : Type.
Variable self : BeamTDTInfer S.
Variable joint : Z -> DecOut -> list S * list S.
Variable compute_ngram_score : LMState -> Z -> S * LMState.

(** What the corrector relies on: a zero-duration index within the
    duration log-probabilities, no N-gram model, and well-formed
    hypotheses. *)
Variable z : nat.
Hypothesis zero_idx : zero_duration_idx self = Some z.
Hypothesis zero_in_range :
  forall t d, (z < length (snd (joint t d)))%nat.
Hypothesis no_model : ngram_lm self = false.

Lemma zero_duration_logp_some (t : Z) (d : DecOut) (token : Z) :
  py_index (fst (joint t d)) token <> None ->
  exists delta, zero_duration_logp self joint t d token = Some delta.
Proof.
  intros Hlp. unfold zero_duration_logp.
  pose proof (zero_in_range t d) as Hz.
  destruct (joint t d) as [logp duration_logp]. simpl in *.
  destruct (py_index logp token) as [lp |]; [| congruence].
  rewrite zero_idx.
  destruct (nth_error duration_logp z) as [dz |] eqn:E; [eauto |].
  apply nth_error_None in E. lia.
Qed.

Lemma prefix_tail_some (t : Z) (curr_hyp : Hyp S DecState DecOut LMState)
      (n : nat) :
  well_formed joint curr_hyp ->
  forall k curr_score next_state,
    0 <= k ->
    k + Z.of_nat n <= Z.of_nat (length (y_sequence curr_hyp)) - 1 ->
    exists total,
      prefix_tail self joint compute_ngram_score t curr_hyp k n
                  curr_score next_state = Some total.
Proof.
  intros (Hlen & Hne & Htok).
  induction n as [| n' IH]; simpl; intros k curr_score next_state Hk Hn.
  - eauto.
  - destruct (@py_index_in_range _ (dec_out curr_hyp) k) as (d & Hd & _);
      [rewrite Hlen; lia |].
    destruct (@py_index_in_range _ (y_sequence curr_hyp) (k + 1))
      as (token & Ht & Hin); [lia |].
    rewrite Hd, Ht.
    destruct (zero_duration_logp_some t d token) as (delta & Hdelta);
      [now apply Htok |].
    rewrite Hdelta, no_model. apply IH; lia.
Qed.

Lemma prefix_update_some (t prefix_alpha : Z)
      (curr_hyp pref_hyp : Hyp S DecState DecOut LMState) :
  well_formed joint curr_hyp -> well_formed joint pref_hyp ->
  exists c,
    prefix_update self joint compute_ngram_score t prefix_alpha
                  curr_hyp pref_hyp = Some c.
Proof.
  intros Hc Hp. unfold prefix_update.
  destruct (is_prefix (y_sequence curr_hyp) (y_sequence pref_hyp)) eqn:Hpre;
    simpl; [| eauto].
  destruct (_ <=? _); [| eauto].
  apply is_prefix_shorter in Hpre.
  destruct Hp as (Hplen & Hpne & _).
  destruct (py_last_nonempty (l := dec_out pref_hyp)) as (d & Hd).
  { intros Hnil. apply Hpne. apply length_zero_iff_nil.
    rewrite <- Hplen, Hnil. reflexivity. }
  rewrite Hd.
  destruct (@py_index_in_range _ (y_sequence curr_hyp)
                               (Z.of_nat (length (y_sequence pref_hyp))))
    as (token & Ht & Hin); [lia |].
  rewrite Ht.
  destruct (zero_duration_logp_some t d token) as (delta & Hdelta).
  { destruct Hc as (_ & _ & Htok). now apply Htok. }
  rewrite Hdelta, no_model.
  assert (Htail : exists total,
             prefix_tail self joint compute_ngram_score t curr_hyp
               (Z.of_nat (length (y_sequence pref_hyp)))
               (Z.to_nat (Z.of_nat (length (y_sequence curr_hyp)) - 1
                          - Z.of_nat (length (y_sequence pref_hyp))))
               (s_add (score pref_hyp) delta) None = Some total).
  { apply prefix_tail_some; [exact Hc | lia | lia]. }
  destruct Htail as (total & Htotal). rewrite Htotal. eauto.
Qed.

Lemma well_formed_set_score (h : Hyp S DecState DecOut LMState) (s : S) :
  well_formed joint h -> well_formed joint (set_score h s).
Proof. intros H. exact H. Qed.

Lemma prefix_inner_some (t prefix_alpha : Z)
      (prefs : list (Hyp S DecState DecOut LMState)) :
  Forall (well_formed joint) prefs ->
  forall curr_hyp,
    well_formed joint curr_hyp ->
    exists c,
      prefix_inner self joint compute_ngram_score t prefix_alpha curr_hyp prefs
      = Some c.
Proof.
  induction 1 as [| p prefs' Hp _ IH]; simpl; intros curr_hyp Hc; [eauto |].
  destruct (prefix_update_some t prefix_alpha Hc Hp) as (c1 & Hc1).
  rewrite Hc1. apply IH.
  apply prefix_update_mono in Hc1. destruct Hc1 as [_ ->].
  now apply well_formed_set_score.
Qed.

(** On the hypotheses of a frame of the maes search the corrector
    returns: its lookups are all in range. *)
Lemma prefix_search_returns (t prefix_alpha : Z)
      (hypotheses : list (Hyp S DecState DecOut LMState)) :
  Forall (well_formed joint) hypotheses ->
  exists out,
    prefix_search self joint compute_ngram_score hypotheses t prefix_alpha
    = Some out.
Proof.
  induction 1 as [| x r Hx Hr IH]; simpl; [eauto |].
  destruct (prefix_inner_some t prefix_alpha Hr Hx) as (c & Hc).
  destruct IH as (r' & Hr'). rewrite Hc, Hr'. eauto.
Qed.
End PrefixReturns.

(** * Further properties of the decoder *)

(** ** Sorted lists and their prefixes *)

Section SortedFacts.
Context {A : Type}.
Variable le : A -> A -> bool.

(** Sorting leaves a sorted list as it is. *)
Lemma sorted_by_id (l : list A) :
  StronglySorted (fun a b => le a b = true) l -> sorted_by le l = l.
Proof.
  induction 1 as [| x r Hs IH Hx]; simpl; [reflexivity |].
  rewrite IH. apply insert_by_front. now apply Forall_forall.
Qed.

(** In a sorted list nothing after a cut may stand before something in
    front of it, unless the two may stand either way. *)
Lemma firstn_skipn_sorted (n : nat) (l : list A) :
  StronglySorted (fun a b => le a b = true) l ->
  forall x y, In x (firstn n l) -> In y (skipn n l) -> le x y = true.
Proof.
  intros Hs. revert n. induction Hs as [| a r Hs IH Ha]; intros n x y Hx Hy.
  - destruct n; contradiction.
  - destruct n as [| n']; simpl in *; [contradiction |].
    destruct Hx as [<- | Hx]; [| eauto].
    rewrite Forall_forall in Ha. apply Ha.
    rewrite <- (firstn_skipn n' r). apply in_or_app. now right.
Qed.
End SortedFacts.

(** ** Duplicate suppression, further *)

Section DedupMore.
Context {S : Type} {SC : Score S}.
Variables DecState DecOut LMState : Type.

Lemma retain_first_incl (l seen : list (Hyp S DecState DecOut LMState))
      (r : Hyp S DecState DecOut LMState) :
  In r (retain_first seen l) -> In r l.
Proof.
  intros H. apply retain_first_first in H.
  destruct H as (_ & l1 & l2 & -> & _). apply in_elt.
Qed.

Lemma retain_first_sorted (R : Hyp S DecState DecOut LMState
                               -> Hyp S DecState DecOut LMState -> Prop)
      (l : list (Hyp S DecState DecOut LMState)) :
  StronglySorted R l ->
  forall seen, StronglySorted R (retain_first seen l).
Proof.
  induction 1 as [| x r Hs IH Hx]; simpl; intros seen; [constructor |].
  destruct (is_present seen x); [apply IH |].
  constructor; [apply IH |].
  eapply Forall_incl; [| exact Hx]. intros y. apply retain_first_incl.
Qed.

(** A list whose keys are distinct and new to [seen] is retained whole. *)
Lemma retain_first_all (l : list (Hyp S DecState DecOut LMState)) :
  NoDup (map hyp_key l) ->
  forall seen,
    (forall h, In h l -> is_present seen h = false) ->
    retain_first seen l = l.
Proof.
  induction l as [| x r IH]; simpl; intros Hnd seen Hnew; [reflexivity |].
  inversion Hnd as [| k ks Hk Hks]; subst.
  rewrite (Hnew x (or_introl eq_refl)). f_equal. apply IH; [exact Hks |].
  intros h Hh. rewrite is_present_app, (Hnew h (or_intror Hh)). simpl.
  destruct (same_key x h) eqn:E; [| reflexivity].
  apply same_key_eq in E. exfalso. apply Hk. rewrite E.
  now apply in_map.
Qed.

Lemma remove_duplicate_hypotheses_sorted
      (l : list (Hyp S DecState DecOut LMState)) :
  StronglySorted (fun a b => key_desc score a b = true)
                 (remove_duplicate_hypotheses l).
Proof.
  rewrite remove_duplicate_hypotheses_retain. apply retain_first_sorted.
  apply sorted_by_sorted; [apply key_desc_total | apply key_desc_trans].
Qed.

(** The result of duplicate suppression is ordered by descending score,
    so that the [sorted(..., reverse=True)] the searches apply to it next
    changes nothing; and it is no longer than the input. *)
Theorem remove_duplicate_hypotheses_descending :
  forall l : list (Hyp S DecState DecOut LMState),
    StronglySorted (fun a b => s_leb (score b) (score a) = true)
                   (remove_duplicate_hypotheses l)
    /\ sorted_by (key_desc score) (remove_duplicate_hypotheses l)
       = remove_duplicate_hypotheses l
    /\ (length (remove_duplicate_hypotheses l) <= length l)%nat.
Proof.
  intros l. split; [apply remove_duplicate_hypotheses_sorted |].
  split; [apply sorted_by_id, remove_duplicate_hypotheses_sorted |].
  rewrite <- (sorted_by_length (key_desc score) l).
  rewrite remove_duplicate_hypotheses_retain.
  apply NoDup_incl_length.
  - pose proof (retain_first_NoDup (sorted_by (key_desc score) l) []) as Hn.
    apply NoDup_map_inv in Hn. exact Hn.
  - intros x. apply retain_first_incl.
Qed.

(** Duplicate suppression is idempotent. *)
Theorem remove_duplicate_hypotheses_idempotent :
  forall l : list (Hyp S DecState DecOut LMState),
    remove_duplicate_hypotheses (remove_duplicate_hypotheses l)
    = remove_duplicate_hypotheses l.
Proof.
  intros l.
  rewrite (remove_duplicate_hypotheses_retain (remove_duplicate_hypotheses l)).
  rewrite (sorted_by_id _ (remove_duplicate_hypotheses_sorted l)).
  apply retain_first_all.
  - rewrite remove_duplicate_hypotheses_retain. apply retain_first_NoDup.
  - intros h _. reflexivity.
Qed.
End DedupMore.

(** ** Pruning to the beam *)

Lemma firstn_sorted {A} (R : A -> A -> Prop) (n : nat) (l : list A) :
  StronglySorted R l -> StronglySorted R (firstn n l).
Proof.
  intros Hs. revert n. induction Hs as [| a r Hs IH Ha]; intros n.
  - destruct n; constructor.
  - destruct n as [| n']; simpl; [constructor |].
    constructor; [apply IH |].
    eapply Forall_incl; [| exact Ha]. intros y. apply firstn_incl.
Qed.

Section Pruning.
Context {S : Type} {SC : Score S}.
Variables DecState DecOut LMState : Type.
Variable self : BeamTDTInfer S.

Lemma py_take_firstn {A} (n : Z) (l : list A) :
  0 <= n -> py_take n l = firstn (Z.to_nat n) l.
Proof. intros Hn. unfold py_take. destruct (Z.leb_spec 0 n); [reflexivity | lia]. Qed.

(** The pruning step of the maes search, deduplicate, sort, [[:beam]],
    keeps the best of the deduplicated hypotheses: what it drops never
    outscores what it keeps, and it keeps [beam] hypotheses when there are
    that many. *)
Theorem keep_best_optimal :
  forall l : list (Hyp S DecState DecOut LMState),
    0 <= beam self ->
    exists dropped,
      remove_duplicate_hypotheses l = keep_best self l ++ dropped
      /\ length (keep_best self l)
         = Nat.min (Z.to_nat (beam self))
                   (length (remove_duplicate_hypotheses l))
      /\ forall x y, In x (keep_best self l) -> In y dropped ->
                     s_leb (score y) (score x) = true.
Proof.
  intros l Hb. unfold keep_best.
  pose proof (remove_duplicate_hypotheses_sorted l) as Hs.
  rewrite (sorted_by_id _ Hs), (py_take_firstn _ Hb).
  exists (skipn (Z.to_nat (beam self)) (remove_duplicate_hypotheses l)).
  split; [symmetry; apply firstn_skipn |].
  split; [apply length_firstn |].
  intros x y Hx Hy.
  apply (firstn_skipn_sorted (key_desc score) (Z.to_nat (beam self)) Hs x y
                             Hx Hy).
Qed.

(** When the default search has used up the hypotheses of the frame, the
    hypotheses for later frames are cut to the [beam] best by score: the
    rest of them, none of which outscores a kept one, is dropped. *)
Theorem termination_check_exhausted :
  forall kept_hyps : list (Hyp S DecState DecOut LMState),
    0 <= beam self ->
    exists out dropped,
      termination_check self [] kept_hyps = (out, false)
      /\ Permutation kept_hyps (out ++ dropped)
      /\ length out = Nat.min (Z.to_nat (beam self)) (length kept_hyps)
      /\ StronglySorted (fun a b => s_leb (score b) (score a) = true) out
      /\ forall x y, In x out -> In y dropped ->
                     s_leb (score y) (score x) = true.
Proof.
  intros kept Hb. unfold termination_check. simpl.
  rewrite (py_take_firstn _ Hb).
  pose proof (sorted_by_sorted (key_desc score) (@key_desc_total _ _ _ score)
                               (@key_desc_trans _ _ _ score) kept) as Hs.
  exists (firstn (Z.to_nat (beam self)) (sorted_by (key_desc score) kept)),
         (skipn (Z.to_nat (beam self)) (sorted_by (key_desc score) kept)).
  split; [reflexivity |]. split.
  { rewrite firstn_skipn. symmetry. apply sorted_by_perm. }
  split; [now rewrite length_firstn, sorted_by_length |]. split.
  { apply firstn_sorted. exact Hs. }
  intros x y Hx Hy.
  apply (firstn_skipn_sorted (key_desc score) (Z.to_nat (beam self)) Hs x y
                             Hx Hy).
Qed.

(** [sort_nbest] returns all the hypotheses it is given, best first: by
    score over number of tokens when [score_norm] is set, by score
    otherwise.  The hypotheses have a token each, as those of the searches
    have with their start token; the division by the number of tokens
    raises on a hypothesis without one. *)
Theorem sort_nbest_sorted :
  forall hyps : list (Hyp S DecState DecOut LMState),
    Forall (fun h => y_sequence h <> []) hyps ->
    Permutation (sort_nbest self hyps) hyps
    /\ if score_norm self then
         StronglySorted
           (fun a b =>
              s_leb (s_divn (score b) (Z.of_nat (length (y_sequence b))))
                    (s_divn (score a) (Z.of_nat (length (y_sequence a))))
              = true)
           (sort_nbest self hyps)
       else
         StronglySorted (fun a b => s_leb (score b) (score a) = true)
                        (sort_nbest self hyps).
Proof.
  intros hyps _. split; [apply sort_nbest_perm |].
  unfold sort_nbest. destruct (score_norm self).
  - apply (sorted_by_sorted
             (key_desc (fun x : Hyp S DecState DecOut LMState =>
                          s_divn (score x) (Z.of_nat (length (y_sequence x)))))).
    + apply key_desc_total.
    + apply key_desc_trans.
  - apply (sorted_by_sorted (key_desc score));
      [apply key_desc_total | apply key_desc_trans].
Qed.
End Pruning.

(** ** The duration indices the constructor computes *)

Lemma index_of_zero_nth (D : list Z) (z : nat) :
  index_of_zero D = Some z ->
  nth_error D z = Some 0
  /\ forall i, (i < z)%nat -> nth_error D i <> Some 0.
Proof.
  revert z. induction D as [| d r IH]; simpl; intros z H; [discriminate |].
  destruct (Z.eqb_spec d 0) as [-> | Hd].
  - inversion H; subst. split; [reflexivity | intros i Hi; lia].
  - destruct (index_of_zero r) as [j |]; [| discriminate].
    inversion H; subst. destruct (IH j eq_refl) as [Hj Hlt].
    split; [exact Hj |]. intros [| i] Hi; simpl.
    + congruence.
    + apply Hlt. lia.
Qed.

Lemma index_of_zero_none (D : list Z) :
  index_of_zero D = None -> ~ In 0 D.
Proof.
  induction D as [| d r IH]; simpl; intros H; [tauto |].
  destruct (Z.eqb_spec d 0) as [-> | Hd]; [discriminate |].
  destruct (index_of_zero r); [discriminate |].
  intros [Hc | Hc]; [congruence | now apply IH].
Qed.

(** [argmin_nonzero] answers the first position of the least filled
    value. *)
Lemma argmin_nonzero_spec (D : list Z) (m : nat) (v : Z) :
  argmin_nonzero D = Some (m, v) ->
  (exists d, nth_error D m = Some d /\ v = masked_fill d)
  /\ (forall d, In d D -> v <= masked_fill d)
  /\ (forall i d, (i < m)%nat -> nth_error D i = Some d -> v < masked_fill d).
Proof.
  revert m v. induction D as [| d r IH]; simpl; intros m v H; [discriminate |].
  destruct (argmin_nonzero r) as [[i best] |] eqn:E.
  - destruct (IH i best eq_refl) as ((d0 & Hn & Hv) & Hmin & Hfirst).
    destruct (Z.leb_spec (masked_fill d) best); inversion H; subst.
    + split; [exists d; auto |]. split.
      * intros d' [<- | Hd']; [lia | specialize (Hmin d' Hd'); lia].
      * intros i0 d' Hi. lia.
    + split; [exists d0; auto |]. split.
      * intros d' [<- | Hd']; [lia | auto].
      * intros [| i0] d' Hi Hd'; simpl in Hd'.
        -- inversion Hd'; subst. lia.
        -- apply Hfirst with i0; [lia | exact Hd'].
  - destruct r as [| d2 r2].
    + inversion H; subst. split; [exists d; auto |]. split.
      * intros d' [<- | []]. lia.
      * intros i0 d' Hi. lia.
    + simpl in E. destruct (argmin_nonzero r2) as [[i2 b2] |];
        [destruct (_ <=? _) |]; discriminate.
Qed.

(** Below the largest [int64] the filled minimum is the least non-zero
    duration, when there is one. *)
Lemma argmin_nonzero_least (D : list Z) (m : nat) (v : Z) :
  Forall (fun d => d < int64_max) D ->
  argmin_nonzero D = Some (m, v) ->
  (exists d, In d D /\ d <> 0) ->
  nth_error D m = Some v /\ v <> 0
  /\ forall d, In d D -> d <> 0 -> v <= d.
Proof.
  intros Hb H (d' & Hd' & Hnz').
  destruct (argmin_nonzero_spec _ H) as ((d0 & Hn & Hv) & Hmin & _).
  rewrite Forall_forall in Hb.
  assert (Hfill : forall d, In d D -> d <> 0 -> masked_fill d = d).
  { intros d _ Hd. unfold masked_fill.
    destruct (Z.eqb_spec d 0); [contradiction | reflexivity]. }
  assert (Hlt : v < int64_max).
  { specialize (Hmin d' Hd'). rewrite (Hfill d' Hd' Hnz') in Hmin.
    specialize (Hb d' Hd'). simpl in Hb. lia. }
  assert (Hd0 : d0 <> 0).
  { intros ->. unfold masked_fill in Hv. simpl in Hv. lia. }
  assert (Hin0 : In d0 D) by (eapply nth_error_In; exact Hn).
  rewrite (Hfill d0 Hin0 Hd0) in Hv. subst v.
  split; [exact Hn |]. split; [exact Hd0 |].
  intros d Hd Hnz. specialize (Hmin d Hd). now rewrite (Hfill d Hd Hnz) in Hmin.
Qed.

Lemma argmin_nonzero_zeros (D : list Z) (m : nat) (v : Z) :
  argmin_nonzero D = Some (m, v) ->
  (forall d, In d D -> d = 0) -> m = 0%nat.
Proof.
  intros H Hall.
  destruct (argmin_nonzero_spec _ H) as ((d0 & Hn & Hv) & _ & Hfirst).
  destruct m as [| m']; [reflexivity |]. exfalso.
  destruct D as [| x r]; [discriminate |].
  specialize (Hfirst 0%nat x ltac:(lia) eq_refl).
  rewrite (Hall x (or_introl eq_refl)) in Hfirst.
  rewrite (Hall d0 (nth_error_In _ _ Hn)) in Hv. lia.
Qed.

(** The attributes of a decoder the constructor returns. *)
Lemma init_fields {S} (KENLM_AVAILABLE : bool)
      (model_loads : string -> bool) (a : InitArgs S)
      (self : BeamTDTInfer S) :
  init KENLM_AVAILABLE model_loads a = inr self ->
  durations self = arg_durations a
  /\ blank self = arg_blank_idx a
  /\ vocab_size self = arg_vocab_size a
  /\ beam_size self = arg_beam_size a
  /\ 1 <= arg_beam_size a
  /\ choose_search (arg_beam_size a) (arg_search_type a)
     = inr (search_algorithm self)
  /\ zero_duration_idx self = index_of_zero (arg_durations a)
  /\ exists v, argmin_nonzero (arg_durations a)
               = Some (min_non_zero_duration_idx self, v).
Proof.
  unfold init.
  destruct (arg_preserve_alignments a); [discriminate |].
  destruct (Z.ltb_spec (arg_beam_size a) 1); [discriminate |].
  destruct (choose_search _ _) as [e | alg]; [discriminate |].
  destruct (maes_checks a); [discriminate |].
  destruct (argmin_nonzero (arg_durations a)) as [[m v] |]; [| discriminate].
  destruct (_ && _); [discriminate |].
  destruct (_ && _); [discriminate |].
  destruct (_ && _); [discriminate |].
  intros Heq. inversion Heq; subst; simpl. repeat split; eauto.
Qed.

(** The two duration indices of a decoder constructed over an [int64]
    table.  The zero-duration index is the first position of a 0 in the
    table and absent when there is none.  The other is the first position
    of the least value among the durations with the zeros counted as the
    largest [int64]: when every duration is below the largest [int64] it
    is the first position of the least non-zero duration, if the table
    has one; it is 0 when the table has none. *)
Theorem init_duration_indices :
  forall (S : Type) (KENLM_AVAILABLE : bool) (model_loads : string -> bool)
         (a : InitArgs S) (self : BeamTDTInfer S),
    init KENLM_AVAILABLE model_loads a = inr self ->
    int64_table (arg_durations a) ->
    (forall z, zero_duration_idx self = Some z ->
               nth_error (durations self) z = Some 0
               /\ forall i, (i < z)%nat ->
                            nth_error (durations self) i <> Some 0)
    /\ (zero_duration_idx self = None -> ~ In 0 (durations self))
    /\ (exists d,
          nth_error (durations self) (min_non_zero_duration_idx self) = Some d
          /\ (forall d', In d' (durations self) ->
                         masked_fill d <= masked_fill d')
          /\ (forall i d', (i < min_non_zero_duration_idx self)%nat ->
                           nth_error (durations self) i = Some d' ->
                           masked_fill d < masked_fill d'))
    /\ (Forall (fun d => d < int64_max) (durations self) ->
        (exists d, In d (durations self) /\ d <> 0) ->
        exists least,
          nth_error (durations self) (min_non_zero_duration_idx self)
          = Some least
          /\ least <> 0
          /\ forall d, In d (durations self) -> d <> 0 -> least <= d)
    /\ ((forall d, In d (durations self) -> d = 0) ->
        min_non_zero_duration_idx self = 0%nat).
Proof.
  intros S K loads a self H _.
  destruct (init_fields _ _ _ H) as (HD & _ & _ & _ & _ & _ & Hz & v & Hm).
  rewrite HD, Hz.
  split; [intros z; apply index_of_zero_nth |].
  split; [apply index_of_zero_none |].
  split.
  { destruct (argmin_nonzero_spec _ Hm) as ((d & Hn & ->) & Hmin & Hfirst).
    exists d. auto. }
  split.
  - intros Hb Hex. exists v. eapply argmin_nonzero_least; eassumption.
  - intros Hall. eapply argmin_nonzero_zeros; eassumption.
Qed.

(** ** The default search moves every hypothesis forward *)

Lemma termination_check_subset {S} {SC : Score S}
      (DecState DecOut LMState : Type) (self : BeamTDTInfer S)
      (hyps kept_hyps out : list (Hyp S DecState DecOut LMState))
      (stop : bool) (x : Hyp S DecState DecOut LMState) :
  termination_check self hyps kept_hyps = (out, stop) ->
  In x out -> In x kept_hyps.
Proof.
  unfold termination_check.
  destruct (max_by (key_asc score) hyps) as [best |].
  - match goal with
    | |- (if ?c then _ else _) = _ -> _ => destruct c
    end; intros H Hx; inversion H; subst; [| exact Hx].
    apply sorted_by_In, filter_In in Hx. apply Hx.
  - intros H Hx. inversion H; subst.
    apply py_take_incl, sorted_by_In in Hx. exact Hx.
Qed.

Section DefaultProgress.
Context {S : Type} {SC : Score S}.
Variables DecState DecOut LMState : Type.
Variable self : BeamTDTInfer S.
Variable score_hypothesis : Hyp S DecState DecOut LMState -> DecOut * DecState.
Variable joint : Z -> DecOut -> list S * list S.

Hypothesis zero_idx_first :
  zero_duration_idx self = index_of_zero (durations self).
Hypothesis min_idx_least :
  exists v, argmin_nonzero (durations self)
            = Some (min_non_zero_duration_idx self, v).
Hypothesis table_plain : plain_durations (durations self).

Lemma duration_nonneg (i : nat) (d : Z) :
  nth_error (durations self) i = Some d -> 0 <= d.
Proof.
  intros H. destruct table_plain as (Hnn & _ & _).
  rewrite Forall_forall in Hnn. apply Hnn. eapply nth_error_In. exact H.
Qed.

Lemma durations_bounded : Forall (fun d => d < int64_max) (durations self).
Proof.
  destruct table_plain as (Hnn & _ & _).
  eapply Forall_impl; [| exact Hnn]. intros d Hd. simpl in Hd. lia.
Qed.

(** A blank child of the default search has a positive duration. *)
Lemma blank_duration_positive (topk_size duration_idx j : nat) (d : Z) :
  blank_duration_idx self topk_size duration_idx = Some j ->
  nth_error (durations self) j = Some d ->
  0 < d.
Proof.
  intros Hj Hd. pose proof (duration_nonneg _ Hd) as Hnn.
  destruct table_plain as (_ & Hnd & Hpos).
  assert (Hnz : d <> 0); [| lia].
  unfold blank_duration_idx in Hj.
  destruct (is_zero_idx self duration_idx) eqn:Hz.
  - destruct (Nat.eqb topk_size 1); [| discriminate]. inversion Hj; subst.
    destruct min_idx_least as (v & Hm).
    destruct (argmin_nonzero_least durations_bounded Hm Hpos)
      as (Hn & Hl & _).
    congruence.
  - inversion Hj; subst. intros ->.
    unfold is_zero_idx in Hz. rewrite zero_idx_first in Hz.
    destruct (index_of_zero (durations self)) as [z |] eqn:E.
    + apply index_of_zero_nth in E. destruct E as [Ez _].
      assert (j = z).
      { eapply (proj1 (NoDup_nth_error (durations self)) Hnd);
          [apply nth_error_Some; congruence | congruence]. }
      subst. rewrite Nat.eqb_refl in Hz. discriminate.
    + apply index_of_zero_none in E. apply E. eapply nth_error_In. exact Hd.
Qed.

Lemma progress_snoc (P : Hyp S DecState DecOut LMState -> Prop)
      (l : list (Hyp S DecState DecOut LMState))
      (h : Hyp S DecState DecOut LMState) :
  Forall P l -> P h -> Forall P (l ++ [h]).
Proof. intros Hl Hh. apply Forall_app. split; [exact Hl | now constructor]. Qed.

Lemma progress_nonblank_loop (time_idx encoded_lengths : Z)
      (max_hyp : Hyp S DecState DecOut LMState) (decoder_state : DecState)
      (logp_topk_idxs durations_logp_topk_idxs : list nat)
      (pairs : list (S * nat)) :
  last_frame max_hyp = time_idx ->
  forall hyps kept_hyps hyps' kept_hyps',
    Forall (fun h => last_frame h = time_idx) hyps ->
    Forall (fun h => time_idx < last_frame h) kept_hyps ->
    nonblank_loop self time_idx encoded_lengths max_hyp decoder_state
                  logp_topk_idxs durations_logp_topk_idxs pairs hyps kept_hyps
    = Some (hyps', kept_hyps') ->
    Forall (fun h => last_frame h = time_idx) hyps'
    /\ Forall (fun h => time_idx < last_frame h) kept_hyps'.
Proof.
  intros Hmax.
  induction pairs as [| [sum_logp_topk sum_logp_topk_idx] pairs' IH]; simpl;
    intros hyps kept hyps' kept' Hh Hk H.
  - inversion H; subst. auto.
  - bind_as H [new_hyp duration].
    assert (Hnew : last_frame new_hyp = time_idx + duration /\ 0 <= duration).
    { unfold nonblank_child in E.
      bind_as E didx. bind_as E d. bind_as E token.
      inversion E; subst. simpl. split; [lia |].
      eapply duration_nonneg. eassumption. }
    destruct Hnew as [Hlf Hnn].
    destruct (Z.eqb_spec duration 0) as [Hd | Hd].
    + eapply IH; [| | exact H]; [| exact Hk].
      apply progress_snoc; [exact Hh | lia].
    + eapply IH; [| | exact H]; [exact Hh |].
      apply progress_snoc; [exact Hk | lia].
Qed.

Lemma progress_blank_loop (encoded_lengths time_idx : Z)
      (max_hyp : Hyp S DecState DecOut LMState)
      (logp durations_logp : list S) (topk_size : nat) (idxs : list nat) :
  last_frame max_hyp = time_idx ->
  forall kept_hyps kept_hyps',
    Forall (fun h => time_idx < last_frame h) kept_hyps ->
    blank_loop self encoded_lengths max_hyp logp durations_logp topk_size
               idxs kept_hyps = Some kept_hyps' ->
    Forall (fun h => time_idx < last_frame h) kept_hyps'.
Proof.
  intros Hmax. induction idxs as [| duration_idx idxs' IH]; simpl;
    intros kept kept' Hk H.
  - inversion H; subst. exact Hk.
  - destruct (blank_duration_idx self topk_size duration_idx) as [j |] eqn:Ej.
    + bind_as H new_hyp. eapply IH; [| exact H].
      apply progress_snoc; [exact Hk |].
      unfold blank_child in E.
      bind_as E duration. bind_as E lb. bind_as E ld.
      inversion E; subst. simpl.
      pose proof (blank_duration_positive _ _ Ej E0). lia.
    + eapply IH; eassumption.
Qed.

Lemma progress_default_expand (time_idx encoded_lengths : Z)
      (hyps kept_hyps hyps' kept_hyps' : list (Hyp S DecState DecOut LMState))
      (stop : bool) :
  Forall (fun h => last_frame h = time_idx) hyps ->
  Forall (fun h => time_idx < last_frame h) kept_hyps ->
  default_expand self score_hypothesis joint time_idx encoded_lengths
                 hyps kept_hyps = Some (hyps', kept_hyps', stop) ->
  Forall (fun h => last_frame h = time_idx) hyps'
  /\ Forall (fun h => time_idx < last_frame h) kept_hyps'.
Proof.
  intros Hh Hk. unfold default_expand. intros H.
  bind_as H max_hyp.
  assert (Hmax : last_frame max_hyp = time_idx).
  { rewrite Forall_forall in Hh. apply Hh. eapply max_by_In. eassumption. }
  assert (Hrest : Forall (fun h => last_frame h = time_idx)
                         (remove_max (key_asc score) hyps)).
  { eapply Forall_incl; [| exact Hh]. intros x Hx.
    eapply Permutation_in; [symmetry; eapply remove_max_perm; eassumption |].
    now right. }
  destruct (score_hypothesis max_hyp) as [decoder_output decoder_state].
  destruct (joint time_idx decoder_output) as [logp durations_logp].
  bind_as H [logp_topks logp_topk_idxs].
  bind_as H [durations_logp_topks durations_logp_topk_idxs].
  bind_as H [sum_logp_topks sum_logp_topk_idxs].
  bind_as H [hyps1 kept1].
  bind_as H kept2.
  destruct (termination_check self hyps1 (remove_duplicate_hypotheses kept2))
    as [k st] eqn:Et.
  inversion H; subst hyps' kept_hyps' stop.
  match goal with
  | Hn : nonblank_loop _ _ _ _ _ _ _ _ _ _ = Some _ |- _ =>
      eapply progress_nonblank_loop in Hn;
        [destruct Hn as [Hh1 Hk1] | exact Hmax | exact Hrest | exact Hk]
  end.
  split; [exact Hh1 |].
  match goal with
  | Hb : blank_loop _ _ _ _ _ _ _ _ = Some _ |- _ =>
      eapply progress_blank_loop in Hb;
        [rename Hb into Hk2 | exact Hmax | exact Hk1]
  end.
  eapply Forall_incl; [| exact Hk2].
  intros x Hx. apply remove_duplicate_hypotheses_incl.
  eapply termination_check_subset; eassumption.
Qed.

Lemma progress_default_while (fuel : nat) :
  forall time_idx encoded_lengths
         (hyps kept_hyps out : list (Hyp S DecState DecOut LMState))
         (stopped : bool),
    Forall (fun h => last_frame h = time_idx) hyps ->
    Forall (fun h => time_idx < last_frame h) kept_hyps ->
    default_while self score_hypothesis joint fuel time_idx encoded_lengths
                  hyps kept_hyps = Returns (out, stopped) ->
    Forall (fun h => time_idx < last_frame h) out.
Proof.
  induction fuel as [| fuel' IH]; intros t L hyps kept out stopped Hh Hk H.
  - destruct hyps; simpl in H; [| discriminate]. inversion H; subst. exact Hk.
  - destruct hyps as [| h hs]; simpl in H.
    { inversion H; subst. exact Hk. }
    destruct (default_expand self score_hypothesis joint t L (h :: hs) kept)
      as [[[hyps' kept'] stop] |] eqn:E; [| discriminate].
    apply progress_default_expand in E; auto. destruct E as [Hh' Hk'].
    destruct stop.
    + inversion H; subst. exact Hk'.
    + eapply IH; [| | exact H]; assumption.
Qed.

Lemma progress_default_frame (fuel : nat) (encoded_lengths time_idx : Z)
      (kept_hyps out : list (Hyp S DecState DecOut LMState)) :
  default_frame self score_hypothesis joint fuel encoded_lengths kept_hyps
                time_idx = Returns out ->
  Forall (fun h => time_idx < last_frame h) out.
Proof.
  unfold default_frame.
  destruct (default_while _ _ _ _ _ _ _ _) as [[o st] | |] eqn:E;
    simpl; try discriminate.
  intros H. inversion H; subst.
  eapply progress_default_while; [| | exact E]; apply Forall_forall;
    intros x Hx; apply filter_In in Hx; destruct Hx as [_ Hx].
  - now apply Z.eqb_eq.
  - now apply Z.ltb_lt.
Qed.
End DefaultProgress.

(** For a decoder built by the constructor over a table of distinct
    non-negative durations below the largest [int64], with a non-zero
    one, the default search leaves a frame only with hypotheses that lie
    beyond it: whatever the joint network answers, no blank carries
    duration 0 and every hypothesis kept after frame [time_idx] has
    [last_frame > time_idx]. *)
Theorem default_frame_advances :
  forall (S : Type) (SC : Score S) (DecState DecOut LMState : Type)
         (KENLM_AVAILABLE : bool) (model_loads : string -> bool)
         (a : InitArgs S) (self : BeamTDTInfer S)
         (score_hypothesis : Hyp S DecState DecOut LMState -> DecOut * DecState)
         (joint : Z -> DecOut -> list S * list S)
         (fuel : nat) (encoded_lengths time_idx : Z)
         (kept_hyps out : list (Hyp S DecState DecOut LMState)),
    init KENLM_AVAILABLE model_loads a = inr self ->
    plain_durations (arg_durations a) ->
    default_frame self score_hypothesis joint fuel encoded_lengths kept_hyps
                  time_idx = Returns out ->
    Forall (fun h => time_idx < last_frame h) out.
Proof.
  intros S SC DecState DecOut LMState K loads a self score_hypothesis joint fuel L t
         kept out Hinit Hplain H.
  destruct (init_fields _ _ _ Hinit) as (HD & _ & _ & _ & _ & _ & Hz & Hm).
  rewrite <- HD in Hz, Hm, Hplain.
  eapply progress_default_frame; eassumption.
Qed.

(** ** Invariants of the maes search, in general *)

Section MaesInvariant.
Context {S : Type} {SC : Score S}.
Variables DecState DecOut LMState : Type.
Variable self : BeamTDTInfer S.
Variable score_hypothesis : Hyp S DecState DecOut LMState -> DecOut * DecState.
Variable joint : Z -> DecOut -> list S * list S.
Variable compute_ngram_score : LMState -> Z -> S * LMState.
Variable t : Z.

(** A property of the tokens, timesteps, cached predictor outputs and
    frame of a hypothesis: [Q] for the hypotheses the lists hold between
    rounds, [Q'] for a non-blank expansion before its predictor output is
    refreshed. *)
Variables Q Q' : list Z -> list Z -> list DecOut -> Z -> Prop.

Hypothesis q_blank :
  forall y ts d frame duration,
    Q y ts d frame -> In duration (durations self) ->
    Q y ts d (frame + duration).
Hypothesis q_nonblank :
  forall y ts d frame duration k,
    Q y ts d frame -> In duration (durations self) ->
    Q' (y ++ [k]) (ts ++ [t]) d (frame + duration).
Hypothesis q_weak : forall y ts d frame, Q y ts d frame -> Q' y ts d frame.
Hypothesis q_update :
  forall y ts d frame o, Q' y ts d frame -> Q y ts (d ++ [o]) frame.

Let P (h : Hyp S DecState DecOut LMState) : Prop :=
  Q (y_sequence h) (timestep h) (dec_out h) (last_frame h).
Let P' (h : Hyp S DecState DecOut LMState) : Prop :=
  Q' (y_sequence h) (timestep h) (dec_out h) (last_frame h).

Lemma inv_snoc (R : Hyp S DecState DecOut LMState -> Prop)
      (l : list (Hyp S DecState DecOut LMState))
      (h : Hyp S DecState DecOut LMState) :
  Forall R l -> R h -> Forall R (l ++ [h]).
Proof. intros Hl Hh. apply Forall_app. split; [exact Hl | now constructor]. Qed.

Lemma inv_maes_expand_one (duplication_check : list (list Z))
      (hyp : Hyp S DecState DecOut LMState)
      (beam_logp_i beam_duration_logp_i : list S) (x : Expansion S)
      (b b' : Buckets S DecState DecOut LMState) :
  P hyp ->
  Forall P (list_b b) -> Forall P' (list_nb b) -> Forall P' (list_exp b) ->
  maes_expand_one self compute_ngram_score t duplication_check hyp
                  beam_logp_i beam_duration_logp_i x b = Some b' ->
  Forall P (list_b b') /\ Forall P' (list_nb b') /\ Forall P' (list_exp b').
Proof.
  intros Hp Hb Hnb Hexp. unfold maes_expand_one.
  destruct x as [[k duration_idx] new_score].
  intros H. bind_as H duration.
  assert (Hin : In duration (durations self))
    by (eapply nth_error_In; eassumption).
  destruct (Z.of_nat k =? blank self).
  - assert (Hq : Q (y_sequence hyp) (timestep hyp) (dec_out hyp)
                   (last_frame hyp + duration)) by (now apply q_blank).
    destruct (ngram_lm self).
    + do 2 bind_inv H. inversion H; subst; simpl.
      repeat split; auto. now apply inv_snoc.
    + inversion H; subst; simpl. repeat split; auto. now apply inv_snoc.
  - assert (Hq : Q' (y_sequence hyp ++ [Z.of_nat k]) (timestep hyp ++ [t])
                    (dec_out hyp) (last_frame hyp + duration))
      by (now apply q_nonblank).
    bind_as H new_hyp.
    assert (Hn : P' new_hyp).
    { match goal with En : _ = Some new_hyp |- _ => rename En into Hnh end.
      destruct (ngram_lm self); simpl in Hnh.
      - bind_as Hnh st.
        destruct (compute_ngram_score st (Z.of_nat k)) as [lm_score st'].
        inversion Hnh; subst. exact Hq.
      - inversion Hnh; subst. exact Hq. }
    destruct (_ && _); inversion H; subst; simpl;
      repeat split; auto; now apply inv_snoc.
Qed.

Lemma inv_maes_expand_hyp (duplication_check : list (list Z))
      (hyp : Hyp S DecState DecOut LMState)
      (beam_logp_i beam_duration_logp_i : list S) (xs : list (Expansion S)) :
  P hyp ->
  forall b b' : Buckets S DecState DecOut LMState,
    Forall P (list_b b) -> Forall P' (list_nb b) -> Forall P' (list_exp b) ->
    maes_expand_hyp self compute_ngram_score t duplication_check hyp
                    beam_logp_i beam_duration_logp_i xs b = Some b' ->
    Forall P (list_b b') /\ Forall P' (list_nb b') /\ Forall P' (list_exp b').
Proof.
  intros Hp. induction xs as [| x xs' IH]; simpl; intros b b' H1 H2 H3 H.
  - inversion H; subst. auto.
  - bind_as H b1.
    destruct (inv_maes_expand_one _ _ _ _ _ Hp H1 H2 H3 E) as (G1 & G2 & G3).
    eapply IH; [exact G1 | exact G2 | exact G3 | exact H].
Qed.

Lemma inv_maes_expand_all (duplication_check : list (list Z))
      (rows : list (Hyp S DecState DecOut LMState * (list S * list S)
                    * list (Expansion S))) :
  Forall (fun r => P (fst (fst r))) rows ->
  forall b b' : Buckets S DecState DecOut LMState,
    Forall P (list_b b) -> Forall P' (list_nb b) -> Forall P' (list_exp b) ->
    maes_expand_all self compute_ngram_score t duplication_check rows b
    = Some b' ->
    Forall P (list_b b') /\ Forall P' (list_nb b') /\ Forall P' (list_exp b').
Proof.
  induction rows as [| [[hyp [lp dlp]] xs] rows' IH]; simpl;
    intros Hrows b b' H1 H2 H3 H.
  - inversion H; subst. auto.
  - inversion Hrows as [| r rs Hr Hrs]; subst. simpl in Hr. bind_as H b1.
    destruct (inv_maes_expand_hyp _ _ _ _ Hr _ H1 H2 H3 E) as (G1 & G2 & G3).
    eapply IH; [exact Hrs | exact G1 | exact G2 | exact G3 | exact H].
Qed.

Lemma inv_update (l : list (Hyp S DecState DecOut LMState)) :
  Forall P' l -> Forall P (map (update_hyp score_hypothesis) l).
Proof.
  intros H. apply Forall_map. eapply Forall_impl; [| exact H].
  intros h Hh. unfold update_hyp. destruct (score_hypothesis h) as [o st].
  unfold P. simpl. now apply q_update.
Qed.

Lemma inv_close (h c : Hyp S DecState DecOut LMState) :
  P h -> close_expansion self joint t h = Some c -> P c.
Proof.
  unfold close_expansion. intros Hp H.
  bind_as H [beam_logp_i beam_duration_logp_i].
  bind_as H [v beam_max_duration_idx].
  bind_as H lb. bind_as H ld. bind_as H duration.
  inversion H; subst. unfold P. simpl. apply q_blank; [exact Hp |].
  eapply nth_error_In. eassumption.
Qed.

Lemma inv_keep_best (l : list (Hyp S DecState DecOut LMState)) :
  Forall P l -> Forall P (keep_best self l).
Proof. apply Forall_incl. intros x. apply keep_best_incl. Qed.

Lemma inv_maes_rounds (left : nat) :
  forall n duplication_check
         (hyps list_b0 list_nb0 kept_hyps out
          : list (Hyp S DecState DecOut LMState)),
    Forall P hyps -> Forall P list_b0 -> Forall P list_nb0 ->
    Forall P kept_hyps ->
    maes_rounds self score_hypothesis joint compute_ngram_score left n t
                duplication_check hyps list_b0 list_nb0 kept_hyps = Some out ->
    Forall P out.
Proof.
  induction left as [| left' IH]; simpl;
    intros n dc hyps lb lnb kept out Hh Hlb Hlnb Hk H.
  - inversion H; subst. exact Hk.
  - bind_as H stacked. bind_as H beam_rows. bind_as H tok. bind_as H dur.
    bind_as H k_expansions. bind_as H b.
    assert (Hb : Forall P (list_b b) /\ Forall P' (list_nb b)
                 /\ Forall P' (list_exp b)).
    { eapply inv_maes_expand_all; [| | | | eassumption]; simpl; auto.
      - apply Forall_forall. intros [[h r] xs] Hin. simpl.
        apply in_combine_l, in_combine_l in Hin.
        rewrite Forall_forall in Hh. auto.
      - eapply Forall_impl; [| exact Hlnb]. intros a. apply q_weak. }
    destruct Hb as (Hb1 & Hb2 & Hb3).
    pose proof (inv_update Hb2) as Hnb1.
    pose proof (inv_update Hb3) as Hexp1.
    destruct (map (update_hyp score_hypothesis) (list_exp b)) as [| e es].
    + inversion H; subst. apply inv_keep_best.
      repeat (apply Forall_app; split); auto.
    + destruct (n <? maes_num_steps self - 1).
      * eapply IH; [| | | | exact H]; auto.
        eapply Forall_incl; [| exact Hexp1].
        intros x. apply remove_duplicate_hypotheses_incl.
      * bind_as H closed. inversion H; subst. apply inv_keep_best.
        repeat (apply Forall_app; split); auto.
        eapply mapM_Forall; [| exact Hexp1 | eassumption].
        intros x y Hx Hy. eapply inv_close; eassumption.
Qed.

Lemma inv_prefix_search (hypotheses out : list (Hyp S DecState DecOut LMState))
      (prefix_alpha : Z) :
  Forall P hypotheses ->
  prefix_search self joint compute_ngram_score hypotheses t prefix_alpha
  = Some out ->
  Forall P out.
Proof.
  intros Hok H. apply prefix_search_mono in H.
  induction H as [| h h' l l' [_ He] _ IH]; [constructor |].
  inversion Hok; subst. constructor; [| now apply IH].
  rewrite He. assumption.
Qed.

(** The body of the frame loop keeps [Q] when the hypotheses of the frame
    and those of later frames have it. *)
Lemma inv_maes_frame (kept_hyps out : list (Hyp S DecState DecOut LMState)) :
  Forall P (filter (fun x => last_frame x =? t) kept_hyps) ->
  Forall P (filter (fun x => t <? last_frame x) kept_hyps) ->
  maes_frame self score_hypothesis joint compute_ngram_score kept_hyps t
  = Some out ->
  Forall P out.
Proof.
  intros Hnow Hlater. unfold maes_frame.
  destruct (filter (fun x => last_frame x =? t) kept_hyps) as [| h hs].
  - intros H. inversion H; subst. exact Hlater.
  - intros H. bind_as H hyps.
    eapply inv_maes_rounds; [| | | | exact H]; auto.
    destruct (zero_duration_idx self).
    + eapply inv_prefix_search; [| exact E].
      apply sorted_by_Forall. exact Hnow.
    + inversion E; subst. exact Hnow.
Qed.
End MaesInvariant.

(** ** Timesteps and cached predictor outputs in the maes search *)

Section MaesShapes.
Context {S : Type} {SC : Score S}.
Variables DecState DecOut LMState : Type.
Variable self : BeamTDTInfer S.
Variable initialize_state : DecState.
Variable score_hypothesis : Hyp S DecState DecOut LMState -> DecOut * DecState.
Variable joint : Z -> DecOut -> list S * list S.
Variable compute_ngram_score : LMState -> Z -> S * LMState.
Variable init_lm_state : LMState.

Lemma shaped_maes_frame (kept_hyps out : list (Hyp S DecState DecOut LMState))
      (t : Z) :
  Forall (fun h => aligned h /\ cached h) kept_hyps ->
  maes_frame self score_hypothesis joint compute_ngram_score kept_hyps t
  = Some out ->
  Forall (fun h => aligned h /\ cached h) out.
Proof.
  intros Hk H.
  unfold aligned, cached in *.
  eapply inv_maes_frame with
    (Q := fun (y ts : list Z) (d : list DecOut) (_ : Z) =>
            length ts = length y /\ (1 <= length y <= length d)%nat)
    (Q' := fun (y ts : list Z) (d : list DecOut) (_ : Z) =>
             length ts = length y /\ (1 <= length y <= length d + 1)%nat);
    [| | | | | | exact H].
  - intros y ts d frame duration Hq _. exact Hq.
  - intros y ts d frame duration k [Hq1 Hq2] _.
    rewrite !length_app. simpl. lia.
  - intros y ts d frame [Hq1 Hq2]. lia.
  - intros y ts d frame o [Hq1 Hq2]. rewrite length_app. simpl. lia.
  - eapply Forall_incl; [| exact Hk]. intros x Hx.
    apply filter_In in Hx. tauto.
  - eapply Forall_incl; [| exact Hk]. intros x Hx.
    apply filter_In in Hx. tauto.
Qed.

Lemma cached_joint_row (t : Z) (h : Hyp S DecState DecOut LMState) :
  cached h -> exists row, joint_row joint t h = Some row.
Proof.
  intros [H1 H2]. unfold joint_row.
  destruct (py_last_nonempty (l := dec_out h)) as (d & Hd).
  - intros Hnil. rewrite Hnil in H2. simpl in H2. lia.
  - rewrite Hd. eauto.
Qed.

(** In the maes search every hypothesis kept after a frame, and every
    hypothesis of the result, has one timestep per token and at least one
    cached predictor output per token, the start token included; so the
    lookup [dec_out[-1]] of the next frame finds an output. *)
Theorem maes_hypotheses_shaped :
  (forall (kept_hyps out : list (Hyp S DecState DecOut LMState)) (t : Z),
      Forall (fun h => aligned h /\ cached h) kept_hyps ->
      maes_frame self score_hypothesis joint compute_ngram_score kept_hyps t
      = Some out ->
      Forall (fun h => aligned h /\ cached h
                       /\ forall t', exists row, joint_row joint t' h = Some row)
             out)
  /\ (forall encoded_lengths nbest_hyps,
        modified_adaptive_expansion_search self initialize_state
          score_hypothesis joint compute_ngram_score init_lm_state
          encoded_lengths = Returns nbest_hyps ->
        Forall (fun h => aligned h /\ cached h) nbest_hyps).
Proof.
  split.
  - intros kept out t Hk H.
    eapply Forall_impl; [| eapply shaped_maes_frame; eassumption].
    intros h [Ha Hc]. split; [exact Ha | split; [exact Hc |]].
    intros t'. now apply cached_joint_row.
  - intros T nbest. unfold modified_adaptive_expansion_search.
    destruct (frames _ _ _) as [kept | |] eqn:E; simpl; try discriminate.
    intros H. inversion H; subst.
    eapply Forall_incl;
      [intros x; apply Permutation_in, sort_nbest_perm |].
    revert E.
    apply (frames_invariant (Forall (fun h : Hyp S DecState DecOut LMState =>
                                       aligned h /\ cached h))).
    + intros k t out Hk Hf.
      destruct (maes_frame self score_hypothesis joint compute_ngram_score k t)
        as [k' |] eqn:Ek; [| discriminate].
      inversion Hf; subst. eapply shaped_maes_frame; eassumption.
    + constructor; [| constructor].
      unfold maes_start_hyp. destruct (score_hypothesis _).
      unfold aligned, cached. simpl. split; [reflexivity | lia].
Qed.

(** With non-negative durations the maes search never leaves a frame with
    a hypothesis behind it: after frame [t] every kept hypothesis has
    [last_frame >= t]. *)
Theorem maes_frame_not_backwards :
  forall (kept_hyps out : list (Hyp S DecState DecOut LMState)) (t : Z),
    Forall (fun d => 0 <= d) (durations self) ->
    maes_frame self score_hypothesis joint compute_ngram_score kept_hyps t
    = Some out ->
    Forall (fun h => t <= last_frame h) out.
Proof.
  intros kept out t Hnn H. rewrite Forall_forall in Hnn.
  eapply inv_maes_frame with
    (Q := fun (_ _ : list Z) (_ : list DecOut) (frame : Z) => t <= frame)
    (Q' := fun (_ _ : list Z) (_ : list DecOut) (frame : Z) => t <= frame);
    [| | | | | | exact H].
  - intros y ts d frame duration Hq Hd. specialize (Hnn _ Hd). lia.
  - intros y ts d frame duration k Hq Hd. specialize (Hnn _ Hd). lia.
  - auto.
  - auto.
  - apply Forall_forall. intros x Hx. apply filter_In in Hx.
    destruct Hx as [_ Hx]. apply Z.eqb_eq in Hx. lia.
  - apply Forall_forall. intros x Hx. apply filter_In in Hx.
    destruct Hx as [_ Hx]. apply Z.ltb_lt in Hx. lia.
Qed.
End MaesShapes.

(** ** Timesteps in the default search *)

Section DefaultShapes.
Context {S : Type} {SC : Score S}.
Variables DecState DecOut LMState : Type.
Variable self : BeamTDTInfer S.
Variable initialize_state : DecState.
Variable score_hypothesis : Hyp S DecState DecOut LMState -> DecOut * DecState.
Variable joint : Z -> DecOut -> list S * list S.

Lemma aligned_nonblank_loop (time_idx encoded_lengths : Z)
      (max_hyp : Hyp S DecState DecOut LMState) (decoder_state : DecState)
      (logp_topk_idxs durations_logp_topk_idxs : list nat)
      (pairs : list (S * nat)) :
  aligned max_hyp ->
  forall hyps kept_hyps hyps' kept_hyps',
    Forall aligned hyps -> Forall aligned kept_hyps ->
    nonblank_loop self time_idx encoded_lengths max_hyp decoder_state
                  logp_topk_idxs durations_logp_topk_idxs pairs hyps kept_hyps
    = Some (hyps', kept_hyps') ->
    Forall aligned hyps' /\ Forall aligned kept_hyps'.
Proof.
  intros Hmax.
  induction pairs as [| [sum_logp_topk sum_logp_topk_idx] pairs' IH]; simpl;
    intros hyps kept hyps' kept' Hh Hk H.
  - inversion H; subst. auto.
  - bind_as H [new_hyp duration].
    assert (Hnew : aligned new_hyp).
    { unfold nonblank_child in E.
      bind_as E didx. bind_as E d. bind_as E token.
      inversion E; subst. unfold aligned in *. simpl.
      rewrite !length_app. simpl. lia. }
    destruct (duration =? 0); (eapply IH; [| | exact H]); auto;
      (apply Forall_app; split; [assumption | now constructor]).
Qed.

Lemma aligned_blank_loop (encoded_lengths : Z)
      (max_hyp : Hyp S DecState DecOut LMState)
      (logp durations_logp : list S) (topk_size : nat) (idxs : list nat) :
  aligned max_hyp ->
  forall kept_hyps kept_hyps',
    Forall aligned kept_hyps ->
    blank_loop self encoded_lengths max_hyp logp durations_logp topk_size
               idxs kept_hyps = Some kept_hyps' ->
    Forall aligned kept_hyps'.
Proof.
  intros Hmax. induction idxs as [| duration_idx idxs' IH]; simpl;
    intros kept kept' Hk H.
  - inversion H; subst. exact Hk.
  - destruct (blank_duration_idx self topk_size duration_idx) as [j |].
    + bind_as H new_hyp. eapply IH; [| exact H].
      apply Forall_app. split; [exact Hk |]. constructor; [| constructor].
      unfold blank_child in E. do 3 bind_inv E. inversion E; subst. exact Hmax.
    + eapply IH; eassumption.
Qed.

Lemma aligned_default_expand (time_idx encoded_lengths : Z)
      (hyps kept_hyps hyps' kept_hyps' : list (Hyp S DecState DecOut LMState))
      (stop : bool) :
  Forall aligned hyps -> Forall aligned kept_hyps ->
  default_expand self score_hypothesis joint time_idx encoded_lengths
                 hyps kept_hyps = Some (hyps', kept_hyps', stop) ->
  Forall aligned hyps' /\ Forall aligned kept_hyps'.
Proof.
  intros Hh Hk. unfold default_expand. intros H.
  bind_as H max_hyp.
  assert (Hmax : aligned max_hyp).
  { rewrite Forall_forall in Hh. apply Hh. eapply max_by_In. eassumption. }
  assert (Hrest : Forall aligned (remove_max (key_asc score) hyps)).
  { eapply Forall_incl; [| exact Hh]. intros x Hx.
    eapply Permutation_in; [symmetry; eapply remove_max_perm; eassumption |].
    now right. }
  destruct (score_hypothesis max_hyp) as [decoder_output decoder_state].
  destruct (joint time_idx decoder_output) as [logp durations_logp].
  bind_as H [logp_topks logp_topk_idxs].
  bind_as H [durations_logp_topks durations_logp_topk_idxs].
  bind_as H [sum_logp_topks sum_logp_topk_idxs].
  bind_as H [hyps1 kept1].
  bind_as H kept2.
  destruct (termination_check self hyps1 (remove_duplicate_hypotheses kept2))
    as [k st] eqn:Et.
  inversion H; subst hyps' kept_hyps' stop.
  match goal with
  | Hn : nonblank_loop _ _ _ _ _ _ _ _ _ _ = Some _ |- _ =>
      eapply aligned_nonblank_loop in Hn;
        [destruct Hn as [Hh1 Hk1] | exact Hmax | exact Hrest | exact Hk]
  end.
  split; [exact Hh1 |].
  match goal with
  | Hb : blank_loop _ _ _ _ _ _ _ _ = Some _ |- _ =>
      eapply aligned_blank_loop in Hb;
        [rename Hb into Hk2 | exact Hmax | exact Hk1]
  end.
  eapply Forall_incl; [| exact Hk2].
  intros x Hx. apply remove_duplicate_hypotheses_incl.
  eapply termination_check_subset; eassumption.
Qed.

Lemma aligned_default_while (fuel : nat) :
  forall time_idx encoded_lengths
         (hyps kept_hyps out : list (Hyp S DecState DecOut LMState))
         (stopped : bool),
    Forall aligned hyps -> Forall aligned kept_hyps ->
    default_while self score_hypothesis joint fuel time_idx encoded_lengths
                  hyps kept_hyps = Returns (out, stopped) ->
    Forall aligned out.
Proof.
  induction fuel as [| fuel' IH]; intros t L hyps kept out stopped Hh Hk H.
  - destruct hyps; simpl in H; [| discriminate]. inversion H; subst. exact Hk.
  - destruct hyps as [| h hs]; simpl in H.
    { inversion H; subst. exact Hk. }
    destruct (default_expand self score_hypothesis joint t L (h :: hs) kept)
      as [[[hyps' kept'] stop] |] eqn:E; [| discriminate].
    apply aligned_default_expand in E; auto. destruct E as [Hh' Hk'].
    destruct stop.
    + inversion H; subst. exact Hk'.
    + eapply IH; [| | exact H]; assumption.
Qed.

(** In the default search every hypothesis has one timestep per token:
    both lists keep this through every expansion, and the result of the
    search has it. *)
Theorem default_hypotheses_aligned :
  (forall time_idx encoded_lengths
          (hyps kept_hyps hyps' kept_hyps'
           : list (Hyp S DecState DecOut LMState)) (stop : bool),
      Forall aligned hyps -> Forall aligned kept_hyps ->
      default_expand self score_hypothesis joint time_idx encoded_lengths
                     hyps kept_hyps = Some (hyps', kept_hyps', stop) ->
      Forall aligned hyps' /\ Forall aligned kept_hyps')
  /\ (forall fuel encoded_lengths nbest_hyps,
        default_beam_search self initialize_state score_hypothesis joint
                            fuel encoded_lengths = Returns nbest_hyps ->
        Forall aligned nbest_hyps).
Proof.
  split.
  - intros t L hyps kept hyps' kept' stop. apply aligned_default_expand.
  - intros fuel T nbest. unfold default_beam_search.
    destruct (frames _ _ _) as [kept | |] eqn:E; simpl; try discriminate.
    intros H. inversion H; subst.
    eapply Forall_incl;
      [intros x; apply Permutation_in, sort_nbest_perm |].
    revert E.
    apply (frames_invariant
             (Forall (fun h : Hyp S DecState DecOut LMState => aligned h))).
    + intros k t out Hk. unfold default_frame.
      destruct (default_while _ _ _ _ _ _ _ _) as [[o st] | |] eqn:Ew;
        simpl; try discriminate.
      intros Hf. inversion Hf; subst.
      eapply aligned_default_while; [| | exact Ew];
        (eapply Forall_incl; [| exact Hk]; intros x Hx;
         apply filter_In in Hx; tauto).
    + constructor; [reflexivity | constructor].
Qed.
End DefaultShapes.

(** ** The N-gram scorer *)

Lemma ln_10_pos : (0 < ln 10)%R.
Proof. rewrite <- ln_1. apply ln_increasing; lra. Qed.

(** [compute_ngram_score] turns the log10 score of the model into a
    natural logarithm: the score it returns is the model's score for the
    word of the label times [ln 10], with the state the model answers. *)
Theorem compute_ngram_score_natural_log :
  forall (LMState : Type)
         (BaseScore : LMState -> NgramLM.Word -> R * LMState)
         (token_offset : Z) (current_lm_state next_state : LMState)
         (label : Z) (lm_score : R),
    NgramLM.compute_ngram_score BaseScore token_offset current_lm_state label
    = Some (lm_score, next_state) ->
    exists word log10_score,
      NgramLM.word_of token_offset label = Some word
      /\ BaseScore current_lm_state word = (log10_score, next_state)
      /\ lm_score = (log10_score * ln 10)%R.
Proof.
  intros LMState BaseScore off st st' label s. unfold NgramLM.compute_ngram_score.
  destruct (NgramLM.word_of off label) as [word |]; [| discriminate].
  destruct (BaseScore st word) as [b st2] eqn:Eb.
  intros H. inversion H; subst. exists word, b.
  split; [reflexivity |]. split; [exact Eb |].
  unfold NgramLM.log10. rewrite ln_exp.
  pose proof ln_10_pos. field. lra.
Qed.

(** The words of the labels: with offset 0 every label has its numeral;
    with another offset a label has a one-character word exactly when
    [label + token_offset] is a code point, and scoring raises otherwise;
    two labels never share a word. *)
Theorem word_of_labels :
  forall token_offset : Z,
    (token_offset = 0 ->
     forall label, NgramLM.word_of token_offset label
                   = Some (NgramLM.Str label))
    /\ (token_offset <> 0 ->
        forall label,
          (0 <= label + token_offset < 1114112 ->
           NgramLM.word_of token_offset label
           = Some (NgramLM.Chr (label + token_offset)))
          /\ (~ 0 <= label + token_offset < 1114112 ->
              NgramLM.word_of token_offset label = None))
    /\ (forall label label' word,
          NgramLM.word_of token_offset label = Some word ->
          NgramLM.word_of token_offset label' = Some word ->
          label = label').
Proof.
  intros off. unfold NgramLM.word_of. split; [| split].
  - intros -> label. reflexivity.
  - intros Hoff label. destruct (Z.eqb_spec off 0); [contradiction |].
    destruct (Z.leb_spec 0 (label + off));
      destruct (Z.ltb_spec (label + off) 1114112); simpl;
      split; intros; try reflexivity; lia.
  - intros label label' word.
    destruct (off =? 0).
    + intros H H'. inversion H; subst. inversion H'. reflexivity.
    + destruct (_ && _); [| discriminate]. destruct (_ && _); [| discriminate].
      intros H H'. inversion H; subst. inversion H'. lia.
Qed.

(** ** The entry point *)

Section CallFacts.
Context {S : Type} {SC : Score S}.
Variables DecState DecOut LMState : Type.
Variable self : BeamTDTInfer S.
Variable initialize_state : DecState.
Variable score_hypothesis : Hyp S DecState DecOut LMState -> DecOut * DecState.
Variable compute_ngram_score : LMState -> Z -> S * LMState.
Variable init_lm_state : LMState.
Variable pack_hypotheses :
  list (Hyp S DecState DecOut LMState) -> list (Hyp S DecState DecOut LMState).

Lemma decode_batch_returns (fuel : nat) (batch : list (@Sample S DecOut))
      (hypotheses : list (@Packed S DecState DecOut LMState)) :
  decode_batch self initialize_state score_hypothesis compute_ngram_score
               init_lm_state pack_hypotheses fuel batch = Returns hypotheses
  <-> Forall2 (fun x p =>
                 decode_sample self initialize_state score_hypothesis
                               compute_ngram_score init_lm_state
                               pack_hypotheses fuel x = Returns p)
              batch hypotheses.
Proof.
  revert hypotheses. induction batch as [| x batch IH]; intros hypotheses; simpl.
  - split.
    + intros H. inversion H. constructor.
    + intros H. inversion H. reflexivity.
  - split.
    + intros H.
      destruct (decode_sample _ _ _ _ _ _ _ x) as [p | |] eqn:Ex;
        try discriminate.
      destruct (decode_batch _ _ _ _ _ _ _ batch) as [ps | |] eqn:Eb;
        try discriminate.
      simpl in H. inversion H; subst.
      constructor; [exact Ex | apply IH; reflexivity].
    + intros H. inversion H as [| x0 p0 b0 ps0 Hp Hps]; subst.
      rewrite Hp. apply IH in Hps. rewrite Hps. reflexivity.
Qed.

(** A call returns exactly when the search returns on every utterance of
    the batch (and, when only the best hypothesis is asked for, the packed
    N-best list is not empty).  The results come one per utterance, in the
    order of the batch: each is the packed output of the search on that
    utterance alone, its first element or the whole list according to
    [return_best_hypothesis]. *)
Theorem call_results_per_utterance :
  forall (fuel : nat) (m : Modules) (batch : list (@Sample S DecOut))
         (hypotheses : list (@Packed S DecState DecOut LMState)),
    fst (call self initialize_state score_hypothesis compute_ngram_score
              init_lm_state pack_hypotheses fuel m batch) = Returns hypotheses
    <-> Forall2
          (fun x p =>
             exists nbest_hyps,
               run_search self initialize_state score_hypothesis
                          (sample_joint x) compute_ngram_score init_lm_state
                          fuel (logitlen x) = Returns nbest_hyps
               /\ if return_best_hypothesis self
                  then exists best_hypothesis rest,
                      pack_hypotheses nbest_hyps = best_hypothesis :: rest
                      /\ p = Best best_hypothesis
                  else p = NBestHypotheses (pack_hypotheses nbest_hyps))
          batch hypotheses.
Proof.
  intros fuel m batch hypotheses.
  assert (Hcall : fst (call self initialize_state score_hypothesis
                            compute_ngram_score init_lm_state pack_hypotheses
                            fuel m batch)
                  = decode_batch self initialize_state score_hypothesis
                                 compute_ngram_score init_lm_state
                                 pack_hypotheses fuel batch).
  { unfold call. destruct (decode_batch _ _ _ _ _ _ _ batch); reflexivity. }
  rewrite Hcall, decode_batch_returns. clear Hcall.
  split; intros H; induction H as [| x p b ps Hp Hps IH];
    constructor; try exact IH.
  - unfold decode_sample in Hp.
    destruct (run_search _ _ _ _ _ _ _ _) as [nbest | |]; try discriminate.
    exists nbest. split; [reflexivity |]. revert Hp.
    destruct (return_best_hypothesis self); intros Hp.
    + destruct (pack_hypotheses nbest) as [| h rest]; [discriminate |].
      inversion Hp; subst. exists h, rest. split; reflexivity.
    + inversion Hp. reflexivity.
  - destruct Hp as (nbest & Hrun & Hp). unfold decode_sample. rewrite Hrun.
    destruct (return_best_hypothesis self).
    + destruct Hp as (h & rest & Hpack & ->). rewrite Hpack. reflexivity.
    + rewrite Hp. reflexivity.
Qed.

(** A decoder built with [beam_size = 1] is bound to [greedy_search]
    whatever search type was asked for, and [greedy_search] is not
    implemented: every call on a batch with an utterance raises, and
    leaves both modules in eval mode. *)
Theorem beam_size_one_call_raises :
  forall (KENLM_AVAILABLE : bool) (model_loads : string -> bool)
         (a : InitArgs S)
         (fuel : nat) (m : Modules) (batch : list (@Sample S DecOut)),
    init KENLM_AVAILABLE model_loads a = inr self ->
    arg_beam_size a = 1 ->
    batch <> [] ->
    search_algorithm self = GreedySearch
    /\ call self initialize_state score_hypothesis compute_ngram_score
            init_lm_state pack_hypotheses fuel m batch
       = (Raises, mkModules false false).
Proof.
  intros K loads a fuel m batch Hinit Hbeam Hbatch.
  destruct (init_fields _ _ _ Hinit) as (_ & _ & _ & _ & _ & Hs & _).
  unfold choose_search in Hs. rewrite Hbeam in Hs. simpl in Hs.
  inversion Hs as [Halg]. split; [reflexivity |].
  destruct batch as [| x batch]; [contradiction |].
  unfold call. simpl. unfold decode_sample, run_search.
  rewrite <- Halg. reflexivity.
Qed.
End CallFacts.

(** ** The expansion selector *)

Section SelectorFacts.
Context {S : Type} {SC : Score S}.
Variables DecState DecOut LMState : Type.

Lemma filter_length_mono {A} (p q : A -> bool) (l : list A) :
  (forall x, p x = true -> q x = true) ->
  (length (filter p l) <= length (filter q l))%nat.
Proof.
  intros Hpq. induction l as [| x r IH]; simpl; [lia |].
  destruct (p x) eqn:Hp.
  - rewrite (Hpq x Hp). simpl. lia.
  - destruct (q x); simpl; lia.
Qed.

Lemma select_expansions_wider (gamma gamma' : S)
      (cands out : list (Expansion S)) :
  (forall a, s_leb (s_sub a gamma') (s_sub a gamma) = true) ->
  select_expansions gamma cands = Some out ->
  exists out', select_expansions gamma' cands = Some out'
               /\ incl out out' /\ (length out <= length out')%nat.
Proof.
  intros Hsub. unfold select_expansions.
  destruct (max_by (key_asc exp_score) cands) as [best |]; [| discriminate].
  simpl. intros H. inversion H; subst. eexists. split; [reflexivity |].
  assert (Hw : forall c, within gamma (exp_score best) c = true ->
                         within gamma' (exp_score best) c = true).
  { intros c. unfold within. intros Hc.
    eapply s_leb_trans; [apply Hsub | exact Hc]. }
  split.
  - intros c. rewrite !sorted_by_In, !filter_In. intros [Hin Hc]. auto.
  - rewrite !sorted_by_length. apply filter_length_mono. exact Hw.
Qed.

Lemma select_expansions_none (gamma : S) (cands : list (Expansion S)) :
  select_expansions gamma cands = None <-> cands = [].
Proof.
  unfold select_expansions. rewrite <- (max_by_none (key_asc exp_score)).
  destruct (max_by (key_asc exp_score) cands); simpl;
    split; intros; (discriminate || reflexivity).
Qed.

(** A larger [gamma] keeps more: when the selector returns for [gamma] it
    returns for every looser [gamma'], and each list of expansions for
    [gamma] is contained in the one for [gamma'].  Looser means that
    subtracting [gamma'] from a score gives no more than subtracting
    [gamma]. *)
Theorem select_k_expansions_durations_gamma_monotone :
  forall (hyps : list (Hyp S DecState DecOut LMState))
         (topk_idxs : list (list nat)) (topk_logps : list (list S))
         (topk_duration_idxs : list (list nat))
         (topk_duration_logps : list (list S)) (gamma gamma' : S)
         (k_expansions : list (list (Expansion S))),
    (forall a, s_leb (s_sub a gamma') (s_sub a gamma) = true) ->
    select_k_expansions_durations hyps topk_idxs topk_logps
      topk_duration_idxs topk_duration_logps gamma = Some k_expansions ->
    exists k_expansions',
      select_k_expansions_durations hyps topk_idxs topk_logps
        topk_duration_idxs topk_duration_logps gamma' = Some k_expansions'
      /\ Forall2 (fun row row' =>
                    incl row row' /\ (length row <= length row')%nat)
                 k_expansions k_expansions'.
Proof.
  intros hyps ti tl tdi tdl gamma gamma' rows Hsub.
  revert ti tl tdi tdl rows.
  induction hyps as [| hyp hyps IH]; intros ti tl tdi tdl rows; simpl.
  - intros H. inversion H. exists []. split; [reflexivity | constructor].
  - destruct ti as [| idxs ti]; [discriminate |].
    destruct tl as [| logps tl]; [discriminate |].
    destruct tdi as [| didxs tdi]; [discriminate |].
    destruct tdl as [| dlogps tdl]; [discriminate |].
    destruct (select_expansions gamma _) as [row |] eqn:Erow;
      [| discriminate].
    simpl.
    destruct (select_k_expansions_durations hyps ti tl tdi tdl gamma)
      as [rest |] eqn:Erest; [| discriminate].
    simpl. intros H. inversion H; subst.
    destruct (@select_expansions_wider gamma gamma' _ _ Hsub Erow)
      as (row' & -> & Hrow).
    destruct (IH _ _ _ _ _ Erest) as (rest' & -> & Hrest).
    simpl. eexists. split; [reflexivity |]. constructor; assumption.
Qed.

(** The selector raises exactly when some hypothesis has no candidate
    expansion, that is when its top-k of tokens or its top-k of durations
    is empty ([max] of an empty list); otherwise it returns one list per
    hypothesis. *)
Theorem select_k_expansions_durations_raises :
  forall (hyps : list (Hyp S DecState DecOut LMState))
         (topk_idxs : list (list nat)) (topk_logps : list (list S))
         (topk_duration_idxs : list (list nat))
         (topk_duration_logps : list (list S)) (gamma : S),
    length topk_idxs = length hyps ->
    length topk_logps = length hyps ->
    length topk_duration_idxs = length hyps ->
    length topk_duration_logps = length hyps ->
    (select_k_expansions_durations hyps topk_idxs topk_logps
       topk_duration_idxs topk_duration_logps gamma = None
     <-> Exists (fun cands => cands = [])
                (candidate_rows hyps topk_idxs topk_logps
                                topk_duration_idxs topk_duration_logps))
    /\ (forall k_expansions,
           select_k_expansions_durations hyps topk_idxs topk_logps
             topk_duration_idxs topk_duration_logps gamma = Some k_expansions ->
           length k_expansions = length hyps).
Proof.
  intros hyps ti tl tdi tdl gamma. revert ti tl tdi tdl.
  induction hyps as [| hyp hyps IH]; intros ti tl tdi tdl H1 H2 H3 H4.
  - simpl. split.
    + split; [discriminate |]. intros H. inversion H.
    + intros rows H. inversion H. reflexivity.
  - destruct ti as [| idxs ti]; [discriminate |].
    destruct tl as [| logps tl]; [discriminate |].
    destruct tdi as [| didxs tdi]; [discriminate |].
    destruct tdl as [| dlogps tdl]; [discriminate |].
    simpl in H1, H2, H3, H4.
    destruct (IH ti tl tdi tdl) as [IHn IHl]; try lia.
    simpl.
    pose proof (select_expansions_none gamma
                  (candidates hyp idxs logps didxs dlogps)) as Hnone.
    destruct (select_expansions gamma
                                (candidates hyp idxs logps didxs dlogps))
      as [row |]; simpl.
    + assert (Hne : candidates hyp idxs logps didxs dlogps <> []).
      { intros E. apply Hnone in E. discriminate. }
      destruct (select_k_expansions_durations hyps ti tl tdi tdl gamma)
        as [rest |]; simpl.
      * split.
        -- split; [discriminate |]. intros H.
           inversion H as [c r Hc | c r Hr]; subst; [contradiction |].
           apply IHn in Hr. discriminate.
        -- intros rows H. inversion H; subst. simpl. f_equal.
           apply IHl. reflexivity.
      * split; [| discriminate].
        split; [| reflexivity]. intros _. right. apply IHn. reflexivity.
    + split; [| discriminate].
      split; [| reflexivity]. intros _. left. apply Hnone. reflexivity.
Qed.
End SelectorFacts.

(** ** The maes search raises no exception *)

Lemma py_index_wraps {A} (l : list A) (i : Z) :
  - Z.of_nat (length l) <= i < Z.of_nat (length l) ->
  py_index l i <> None.
Proof.
  intros Hi. unfold py_index.
  destruct (Z.leb_spec 0 i); destruct (Z.ltb_spec i (Z.of_nat (length l)));
    simpl; try lia.
  - intros E. apply nth_error_None in E. lia.
  - destruct (Z.leb_spec (- Z.of_nat (length l)) i);
      destruct (Z.ltb_spec i 0); simpl; try lia.
    intros E. apply nth_error_None in E. lia.
Qed.

Lemma mapM_some {A B} (f : A -> option B) (l : list A) :
  Forall (fun x => f x <> None) l -> exists l', mapM f l = Some l'.
Proof.
  induction 1 as [| x r Hx _ [r' IH]]; simpl; [eauto |].
  destruct (f x) as [y |]; [| congruence]. rewrite IH. eauto.
Qed.

Lemma topk_some {S} `{Score S} (k : Z) (l : list S) :
  0 <= k <= Z.of_nat (length l) ->
  exists vals idxs,
    topk k l = Some (vals, idxs)
    /\ length vals = Z.to_nat k /\ length idxs = Z.to_nat k
    /\ Forall (fun i => (i < length l)%nat) idxs.
Proof.
  intros Hk. destruct (topk k l) as [[vals idxs] |] eqn:E.
  - exists vals, idxs. split; [reflexivity |].
    pose proof (topk_idxs_bound _ _ E) as Hb.
    unfold topk in E. destruct (_ && _); [| discriminate].
    inversion E; subst.
    rewrite !length_map, length_firstn, sorted_by_length, length_combine,
      length_seq.
    repeat split; try lia. exact Hb.
  - unfold topk in E.
    destruct (Z.leb_spec 0 k); [| lia].
    destruct (Z.leb_spec k (Z.of_nat (length l))); [| lia].
    discriminate.
Qed.

Lemma argmax_some {S} `{Score S} (l : list S) :
  l <> [] -> exists v i, argmax l = Some (v, i) /\ (i < length l)%nat.
Proof.
  intros Hl. unfold argmax.
  assert (Hne : combine l (seq 0 (length l)) <> []).
  { destruct l; [congruence | simpl; discriminate]. }
  destruct (max_by_some (key_asc fst) Hne) as ([v i] & Hm).
  exists v, i. split; [exact Hm |].
  apply max_by_In, in_combine_r, in_seq in Hm. lia.
Qed.

Section MaesReturns.
Context {S : Type} {SC : Score S}.
Variables DecState DecOut LMState : Type.
Variable self : BeamTDTInfer S.
Variable initialize_state : DecState.
Variable score_hypothesis : Hyp S DecState DecOut LMState -> DecOut * DecState.
Variable joint : Z -> DecOut -> list S * list S.
Variable compute_ngram_score : LMState -> Z -> S * LMState.
Variable init_lm_state : LMState.

(** The sizes the search relies on: [V1] token log-probabilities, the
    blank among them, and one duration log-probability per duration; the
    two top-k sizes within them; the duration indices of the decoder
    within the table; no N-gram model. *)
Variable V1 : nat.
Hypothesis joint_tokens : forall t d, length (fst (joint t d)) = V1.
Hypothesis joint_durations :
  forall t d, length (snd (joint t d)) = length (durations self).
Hypothesis blank_in_range : - Z.of_nat V1 <= blank self < Z.of_nat V1.
Hypothesis candidates_in_range : 1 <= max_candidates self <= Z.of_nat V1.
Hypothesis duration_beam_in_range :
  1 <= tdt_duration_beam_size self <= Z.of_nat (length (durations self)).
Hypothesis zero_idx_in_range :
  forall z, zero_duration_idx self = Some z ->
            (z < length (durations self))%nat.
Hypothesis min_idx_in_range :
  (min_non_zero_duration_idx self < length (durations self))%nat.
Hypothesis no_model : ngram_lm self = false.

Let in_range (x : Expansion S) : Prop :=
  (fst (fst x) < V1)%nat /\ (snd (fst x) < length (durations self))%nat.

Lemma indexable_snoc (R : Hyp S DecState DecOut LMState -> Prop)
      (l : list (Hyp S DecState DecOut LMState))
      (h : Hyp S DecState DecOut LMState) :
  Forall R l -> R h -> Forall R (l ++ [h]).
Proof. intros Hl Hh. apply Forall_app. split; [exact Hl | now constructor]. Qed.

Lemma maes_expand_one_returns (t : Z) (duplication_check : list (list Z))
      (hyp : Hyp S DecState DecOut LMState)
      (beam_logp_i beam_duration_logp_i : list S) (x : Expansion S)
      (b : Buckets S DecState DecOut LMState) :
  indexable V1 hyp -> in_range x ->
  Forall (indexable V1) (list_b b) ->
  Forall (indexable_pending V1) (list_nb b) ->
  Forall (indexable_pending V1) (list_exp b) ->
  exists b',
    maes_expand_one self compute_ngram_score t duplication_check hyp
                    beam_logp_i beam_duration_logp_i x b = Some b'
    /\ Forall (indexable V1) (list_b b')
    /\ Forall (indexable_pending V1) (list_nb b')
    /\ Forall (indexable_pending V1) (list_exp b').
Proof.
  intros Hh Hx Hb Hnb Hexp. destruct x as [[k didx] new_score].
  destruct Hx as [Hk Hd]. simpl in Hk, Hd. unfold maes_expand_one.
  assert (Hidx : (maes_duration_idx self k didx < length (durations self))%nat).
  { unfold maes_duration_idx. destruct (_ && _); assumption. }
  destruct (nth_error (durations self) (maes_duration_idx self k didx))
    as [duration |] eqn:Ed.
  2: { apply nth_error_None in Ed. lia. }
  rewrite no_model.
  destruct (Z.of_nat k =? blank self).
  - eexists. split; [reflexivity |]. simpl.
    split; [| split; assumption].
    apply indexable_snoc; [exact Hb | exact Hh].
  - assert (Hnew : forall (sc : S) (st : option LMState) (lf : Z),
               indexable_pending V1
                 (mkHyp sc (y_sequence hyp ++ [Z.of_nat k]) (dec_state hyp)
                        (dec_out hyp) (timestep hyp ++ [t]) t lf st)).
    { intros sc st lf. destruct Hh as [[H1 H2] H3].
      split; simpl.
      - rewrite length_app. simpl. lia.
      - apply Forall_app. split; [exact H3 |].
        constructor; [lia | constructor]. }
    simpl. destruct (_ && _); eexists; (split; [reflexivity |]); simpl.
    + split; [assumption |]. split; [assumption |].
      apply indexable_snoc; [exact Hexp | apply Hnew].
    + split; [assumption |]. split; [| assumption].
      apply indexable_snoc; [exact Hnb | apply Hnew].
Qed.

Lemma maes_expand_hyp_returns (t : Z) (duplication_check : list (list Z))
      (hyp : Hyp S DecState DecOut LMState)
      (beam_logp_i beam_duration_logp_i : list S) (xs : list (Expansion S)) :
  indexable V1 hyp -> Forall in_range xs ->
  forall b : Buckets S DecState DecOut LMState,
    Forall (indexable V1) (list_b b) ->
    Forall (indexable_pending V1) (list_nb b) ->
    Forall (indexable_pending V1) (list_exp b) ->
    exists b',
      maes_expand_hyp self compute_ngram_score t duplication_check hyp
                      beam_logp_i beam_duration_logp_i xs b = Some b'
      /\ Forall (indexable V1) (list_b b')
      /\ Forall (indexable_pending V1) (list_nb b')
      /\ Forall (indexable_pending V1) (list_exp b').
Proof.
  intros Hh Hxs. induction Hxs as [| x xs' Hx _ IH]; simpl; intros b H1 H2 H3.
  - eauto.
  - destruct (@maes_expand_one_returns t duplication_check hyp beam_logp_i
                beam_duration_logp_i x b Hh Hx H1 H2 H3)
      as (b1 & -> & G1 & G2 & G3).
    apply IH; assumption.
Qed.

Lemma maes_expand_all_returns (t : Z) (duplication_check : list (list Z))
      (rows : list (Hyp S DecState DecOut LMState * (list S * list S)
                    * list (Expansion S))) :
  Forall (fun r => indexable V1 (fst (fst r)) /\ Forall in_range (snd r)) rows ->
  forall b : Buckets S DecState DecOut LMState,
    Forall (indexable V1) (list_b b) ->
    Forall (indexable_pending V1) (list_nb b) ->
    Forall (indexable_pending V1) (list_exp b) ->
    exists b',
      maes_expand_all self compute_ngram_score t duplication_check rows b
      = Some b'
      /\ Forall (indexable V1) (list_b b')
      /\ Forall (indexable_pending V1) (list_nb b')
      /\ Forall (indexable_pending V1) (list_exp b').
Proof.
  induction 1 as [| [[hyp [lp dlp]] xs] rows' [Hh Hxs] _ IH]; simpl;
    intros b H1 H2 H3.
  - eauto.
  - simpl in Hh, Hxs.
    destruct (@maes_expand_hyp_returns t duplication_check hyp lp dlp xs
                Hh Hxs b H1 H2 H3) as (b1 & -> & G1 & G2 & G3).
    apply IH; assumption.
Qed.

Lemma indexable_update (l : list (Hyp S DecState DecOut LMState)) :
  Forall (indexable_pending V1) l ->
  Forall (indexable V1) (map (update_hyp score_hypothesis) l).
Proof.
  intros H. apply Forall_map. eapply Forall_impl; [| exact H].
  intros h [H1 H2]. unfold update_hyp.
  destruct (score_hypothesis h) as [o st].
  split; [| exact H2]. unfold cached. simpl. rewrite length_app. simpl. lia.
Qed.

Lemma indexable_weaken (l : list (Hyp S DecState DecOut LMState)) :
  Forall (indexable V1) l -> Forall (indexable_pending V1) l.
Proof.
  apply Forall_impl. intros h [H1 H2]. split; [| exact H2].
  unfold cached in H1. lia.
Qed.

Lemma joint_row_returns (t : Z) (h : Hyp S DecState DecOut LMState) :
  indexable V1 h ->
  exists logp duration_logp,
    joint_row joint t h = Some (logp, duration_logp)
    /\ length logp = V1
    /\ length duration_logp = length (durations self).
Proof.
  intros [[H1 H2] _]. unfold joint_row.
  destruct (py_last_nonempty (l := dec_out h)) as (d & ->).
  { intros Hnil. rewrite Hnil in H2. simpl in H2. lia. }
  pose proof (joint_tokens t d) as Ht. pose proof (joint_durations t d) as Hd.
  destruct (joint t d) as [logp duration_logp]. simpl in *. eauto.
Qed.

Lemma joint_row_shape (t : Z) (h : Hyp S DecState DecOut LMState)
      (row : list S * list S) :
  joint_row joint t h = Some row ->
  length (fst row) = V1 /\ length (snd row) = length (durations self).
Proof.
  unfold joint_row. destruct (py_last (dec_out h)) as [d |]; [| discriminate].
  intros H. inversion H; subst. split; [apply joint_tokens | apply joint_durations].
Qed.

Lemma select_expansions_in_range (gamma : S)
      (hyp : Hyp S DecState DecOut LMState)
      (idxs : list nat) (logps : list S) (didxs : list nat) (dlogps : list S)
      (out : list (Expansion S)) :
  Forall (fun i => (i < V1)%nat) idxs ->
  Forall (fun i => (i < length (durations self))%nat) didxs ->
  select_expansions gamma (candidates hyp idxs logps didxs dlogps) = Some out ->
  Forall in_range out.
Proof.
  intros Hi Hd. unfold select_expansions.
  destruct (max_by _ _) as [best |]; [| discriminate].
  simpl. intros H. inversion H; subst. apply Forall_forall.
  intros [[k d] s] Hin. apply sorted_by_In, filter_In in Hin.
  destruct Hin as [Hin _]. apply candidates_In in Hin.
  destruct Hin as (lp & dlp & Hk & Hdd & _).
  apply in_combine_l in Hk, Hdd.
  rewrite Forall_forall in Hi, Hd. split; simpl; auto.
Qed.

(** The top-k of every row: as many values as positions, at least one,
    and positions below [n]. *)
Let topk_row (n : nat) (r : list S * list nat) : Prop :=
  fst r <> [] /\ length (fst r) = length (snd r)
  /\ Forall (fun i => (i < n)%nat) (snd r).

Lemma topk_row_returns (k : Z) (n : nat) (l : list S) :
  1 <= k <= Z.of_nat n -> length l = n ->
  topk k l <> None
  /\ forall r, topk k l = Some r -> topk_row n r.
Proof.
  intros Hk Hl.
  destruct (@topk_some _ _ k l) as (vals & idxs & E & Hv & Hi & Hb); [lia |].
  rewrite E. split; [discriminate |].
  intros r Hr. injection Hr as <-. unfold topk_row. simpl.
  split; [| split; [lia | now rewrite <- Hl]].
  intros Hnil. rewrite Hnil in Hv. simpl in Hv. lia.
Qed.

Lemma select_k_expansions_durations_returns (gamma : S) :
  forall (hyps : list (Hyp S DecState DecOut LMState))
         (tok dur : list (list S * list nat)),
    length tok = length hyps -> length dur = length hyps ->
    Forall (topk_row V1) tok ->
    Forall (topk_row (length (durations self))) dur ->
    exists k_expansions,
      select_k_expansions_durations hyps (map snd tok) (map fst tok)
        (map snd dur) (map fst dur) gamma = Some k_expansions
      /\ Forall (Forall in_range) k_expansions.
Proof.
  induction hyps as [| hyp hyps IH]; intros tok dur Ht Hd Htok Hdur; simpl.
  - exists []. split; [reflexivity | constructor].
  - destruct tok as [| [logps idxs] tok]; [discriminate |].
    destruct dur as [| [dlogps didxs] dur]; [discriminate |].
    inversion Htok as [| r1 l1 (Hn1 & Hl1 & Hb1) Htok']; subst.
    inversion Hdur as [| r2 l2 (Hn2 & Hl2 & Hb2) Hdur']; subst.
    simpl in *.
    destruct (select_expansions gamma (candidates hyp idxs logps didxs dlogps))
      as [row |] eqn:Erow.
    + destruct (IH tok dur) as (rest & -> & Hrest); try lia; try assumption.
      simpl. eexists. split; [reflexivity |].
      constructor; [| exact Hrest].
      eapply select_expansions_in_range; eassumption.
    + exfalso. apply select_expansions_none in Erow.
      destruct logps as [| lp logps]; [congruence |].
      destruct idxs as [| i idxs]; [discriminate |].
      destruct dlogps as [| dlp dlogps]; [congruence |].
      destruct didxs as [| di didxs]; [discriminate |].
      discriminate.
Qed.

Lemma close_expansion_returns (t : Z) (h : Hyp S DecState DecOut LMState) :
  indexable V1 h ->
  exists c, close_expansion self joint t h = Some c /\ indexable V1 c.
Proof.
  intros Hh. unfold close_expansion.
  destruct (joint_row_returns t Hh) as (logp & dlogp & -> & Hl & Hd).
  destruct (@argmax_some _ _ dlogp) as (v & i & -> & Hi).
  { intros Hnil. rewrite Hnil in Hd. simpl in Hd. lia. }
  set (duration_idx := if is_zero_idx self i
                       then min_non_zero_duration_idx self else i).
  assert (Hidx : (duration_idx < length (durations self))%nat).
  { unfold duration_idx. destruct (is_zero_idx self i); [assumption | lia]. }
  destruct (py_index logp (blank self)) as [lb |] eqn:Eb.
  2: { exfalso. revert Eb. apply py_index_wraps. now rewrite Hl. }
  destruct (nth_error dlogp duration_idx) as [ld |] eqn:El.
  2: { apply nth_error_None in El. lia. }
  destruct (nth_error (durations self) duration_idx) as [duration |] eqn:Edur.
  2: { apply nth_error_None in Edur. lia. }
  eexists. split; [reflexivity |]. exact Hh.
Qed.

Lemma remove_duplicate_hypotheses_nonempty
      (l : list (Hyp S DecState DecOut LMState)) :
  l <> [] -> remove_duplicate_hypotheses l <> [].
Proof.
  destruct l as [| h r]; [congruence |]. intros _ Hnil.
  assert (Hin : In h (sorted_by (key_desc score) (h :: r)))
    by (apply sorted_by_In; now left).
  destruct (retain_first_covers _ [] _ Hin) as (x & Hx & _).
  rewrite <- remove_duplicate_hypotheses_retain, Hnil in Hx. exact Hx.
Qed.

Lemma indexable_keep_best (l : list (Hyp S DecState DecOut LMState)) :
  Forall (indexable V1) l -> Forall (indexable V1) (keep_best self l).
Proof. apply Forall_incl. intros x. apply keep_best_incl. Qed.

(** *** The corrector on indexable hypotheses *)

Lemma zero_duration_logp_returns (z : nat) (t : Z) (d : DecOut) (token : Z) :
  zero_duration_idx self = Some z ->
  - Z.of_nat V1 <= token < Z.of_nat V1 ->
  exists delta, zero_duration_logp self joint t d token = Some delta.
Proof.
  intros Hz Htok. unfold zero_duration_logp.
  pose proof (joint_tokens t d) as Ht. pose proof (joint_durations t d) as Hd.
  destruct (joint t d) as [logp duration_logp]. simpl in *.
  destruct (py_index logp token) as [lp |] eqn:El.
  2: { exfalso. revert El. apply py_index_wraps. now rewrite Ht. }
  rewrite Hz.
  destruct (nth_error duration_logp z) as [dz |] eqn:E; [eauto |].
  apply nth_error_None in E. apply zero_idx_in_range in Hz. lia.
Qed.

Lemma prefix_tail_returns (z : nat) (t : Z)
      (curr_hyp : Hyp S DecState DecOut LMState) (n : nat) :
  zero_duration_idx self = Some z ->
  indexable V1 curr_hyp ->
  forall k curr_score next_state,
    0 <= k ->
    k + Z.of_nat n <= Z.of_nat (length (y_sequence curr_hyp)) - 1 ->
    exists total,
      prefix_tail self joint compute_ngram_score t curr_hyp k n
                  curr_score next_state = Some total.
Proof.
  intros Hz [[Hl1 Hl2] Htok].
  induction n as [| n' IH]; simpl; intros k curr_score next_state Hk Hn.
  - eauto.
  - destruct (@py_index_in_range _ (dec_out curr_hyp) k) as (d & -> & _);
      [lia |].
    destruct (@py_index_in_range _ (y_sequence curr_hyp) (k + 1))
      as (token & -> & Hin); [lia |].
    rewrite Forall_forall in Htok.
    destruct (zero_duration_logp_returns t d Hz (Htok _ Hin)) as (delta & ->).
    rewrite no_model. apply IH; lia.
Qed.

Lemma prefix_update_returns (z : nat) (t prefix_alpha : Z)
      (curr_hyp pref_hyp : Hyp S DecState DecOut LMState) :
  zero_duration_idx self = Some z ->
  indexable V1 curr_hyp -> indexable V1 pref_hyp ->
  exists c,
    prefix_update self joint compute_ngram_score t prefix_alpha
                  curr_hyp pref_hyp = Some c.
Proof.
  intros Hz Hc Hp. unfold prefix_update.
  destruct (is_prefix (y_sequence curr_hyp) (y_sequence pref_hyp)) eqn:Hpre;
    simpl; [| eauto].
  destruct (_ <=? _); [| eauto].
  apply is_prefix_shorter in Hpre.
  destruct Hp as [[Hp1 Hp2] _].
  destruct (py_last_nonempty (l := dec_out pref_hyp)) as (d & ->).
  { intros Hnil. rewrite Hnil in Hp2. simpl in Hp2. lia. }
  destruct (@py_index_in_range _ (y_sequence curr_hyp)
                               (Z.of_nat (length (y_sequence pref_hyp))))
    as (token & -> & Hin); [lia |].
  assert (Htok : - Z.of_nat V1 <= token < Z.of_nat V1).
  { destruct Hc as [_ Htok]. rewrite Forall_forall in Htok. auto. }
  destruct (zero_duration_logp_returns t d Hz Htok) as (delta & ->).
  rewrite no_model.
  destruct (@prefix_tail_returns z t curr_hyp
              (Z.to_nat (Z.of_nat (length (y_sequence curr_hyp)) - 1
                         - Z.of_nat (length (y_sequence pref_hyp))))
              Hz Hc (Z.of_nat (length (y_sequence pref_hyp)))
              (s_add (score pref_hyp) delta) None) as (total & ->);
    [lia | lia |].
  eauto.
Qed.

Lemma prefix_inner_returns (z : nat) (t prefix_alpha : Z)
      (prefs : list (Hyp S DecState DecOut LMState)) :
  zero_duration_idx self = Some z ->
  Forall (indexable V1) prefs ->
  forall curr_hyp,
    indexable V1 curr_hyp ->
    exists c,
      prefix_inner self joint compute_ngram_score t prefix_alpha curr_hyp prefs
      = Some c.
Proof.
  intros Hz. induction 1 as [| p prefs' Hp _ IH]; simpl; intros curr_hyp Hc;
    [eauto |].
  destruct (@prefix_update_returns z t prefix_alpha curr_hyp p Hz Hc Hp)
    as (c1 & Hc1).
  rewrite Hc1. apply IH.
  apply prefix_update_mono in Hc1. destruct Hc1 as [_ ->]. exact Hc.
Qed.

Lemma prefix_search_indexable (z : nat) (t prefix_alpha : Z)
      (hypotheses : list (Hyp S DecState DecOut LMState)) :
  zero_duration_idx self = Some z ->
  Forall (indexable V1) hypotheses ->
  exists out,
    prefix_search self joint compute_ngram_score hypotheses t prefix_alpha
    = Some out
    /\ Forall (indexable V1) out /\ length out = length hypotheses.
Proof.
  intros Hz. induction 1 as [| x r Hx Hr IH]; simpl.
  - exists []. repeat split. constructor.
  - destruct (@prefix_inner_returns z t prefix_alpha r Hz Hr x Hx) as (c & Hc).
    destruct IH as (r' & -> & Hr' & Hlen). rewrite Hc.
    eexists. split; [reflexivity |]. simpl. split; [| now rewrite Hlen].
    constructor; [| exact Hr'].
    apply prefix_inner_mono in Hc. destruct Hc as [_ ->]. exact Hx.
Qed.

(** *** The rounds, the frames and the search *)

Lemma maes_rounds_returns (left : nat) :
  forall n t duplication_check
         (hyps list_b0 list_nb0 kept_hyps
          : list (Hyp S DecState DecOut LMState)),
    hyps <> [] ->
    Forall (indexable V1) hyps -> Forall (indexable V1) list_b0 ->
    Forall (indexable V1) list_nb0 -> Forall (indexable V1) kept_hyps ->
    exists out,
      maes_rounds self score_hypothesis joint compute_ngram_score left n t
                  duplication_check hyps list_b0 list_nb0 kept_hyps = Some out
      /\ Forall (indexable V1) out.
Proof.
  induction left as [| left' IH];
    intros n t dc hyps lb lnb kept Hne Hh Hlb Hlnb Hk.
  - simpl. eauto.
  - cbn [maes_rounds].
    assert (Hst : stack hyps = Some hyps)
      by (destruct hyps; [congruence | reflexivity]).
    rewrite Hst.
    destruct (@mapM_some _ _ (joint_row joint t) hyps) as (beam_rows & Hrows).
    { eapply Forall_impl; [| exact Hh]. intros h Hi.
      destruct (joint_row_returns t Hi) as (lp & dlp & -> & _). discriminate. }
    rewrite Hrows.
    assert (Hshape : Forall (fun row => length (fst row) = V1
                                        /\ length (snd row)
                                           = length (durations self))
                            beam_rows).
    { eapply mapM_Forall; [| exact Hh | exact Hrows].
      intros h row _. apply joint_row_shape. }
    destruct (@mapM_some _ _ (fun r : list S * list S =>
                                topk (max_candidates self) (fst r)) beam_rows)
      as (tok & Htok).
    { eapply Forall_impl; [| exact Hshape]. intros r [Hr _].
      eapply topk_row_returns; [exact candidates_in_range | exact Hr]. }
    rewrite Htok.
    destruct (@mapM_some _ _ (fun r : list S * list S =>
                                topk (tdt_duration_beam_size self) (snd r))
                         beam_rows) as (dur & Hdur).
    { eapply Forall_impl; [| exact Hshape]. intros r [_ Hr].
      eapply topk_row_returns; [exact duration_beam_in_range | exact Hr]. }
    rewrite Hdur.
    destruct (@select_k_expansions_durations_returns
                (maes_expansion_gamma self) hyps tok dur)
      as (k_expansions & -> & Hin).
    { rewrite (mapM_length _ _ Htok). apply (mapM_length _ _ Hrows). }
    { rewrite (mapM_length _ _ Hdur). apply (mapM_length _ _ Hrows). }
    { eapply mapM_Forall; [| exact Hshape | exact Htok].
      intros r y [Hr _] Hy.
      eapply topk_row_returns; [exact candidates_in_range | exact Hr | exact Hy]. }
    { eapply mapM_Forall; [| exact Hshape | exact Hdur].
      intros r y [_ Hr] Hy.
      eapply topk_row_returns;
        [exact duration_beam_in_range | exact Hr | exact Hy]. }
    destruct (@maes_expand_all_returns t dc
                (combine (combine hyps beam_rows) k_expansions))
      with (b := mkBuckets lb lnb (@nil (Hyp S DecState DecOut LMState)))
      as (b & -> & Hb1 & Hb2 & Hb3).
    { apply Forall_forall. intros [[h r] xs] Hi. simpl. split.
      - apply in_combine_l, in_combine_l in Hi.
        rewrite Forall_forall in Hh. auto.
      - apply in_combine_r in Hi. rewrite Forall_forall in Hin. auto. }
    { exact Hlb. }
    { simpl. now apply indexable_weaken. }
    { constructor. }
    pose proof (indexable_update Hb2) as Hnb1.
    pose proof (indexable_update Hb3) as Hexp1.
    destruct (map (update_hyp score_hypothesis) (list_exp b)) as [| e es] eqn:Ee.
    + eexists. split; [reflexivity |]. apply indexable_keep_best.
      repeat (apply Forall_app; split); auto.
    + destruct (n <? maes_num_steps self - 1).
      * apply IH; auto.
        -- apply remove_duplicate_hypotheses_nonempty. discriminate.
        -- eapply Forall_incl; [| exact Hexp1].
           intros x. apply remove_duplicate_hypotheses_incl.
      * destruct (@mapM_some _ _ (close_expansion self joint t) (e :: es))
          as (closed & Hclosed).
        { eapply Forall_impl; [| exact Hexp1]. intros h Hi.
          destruct (close_expansion_returns t Hi) as (c & -> & _).
          discriminate. }
        rewrite Hclosed. eexists. split; [reflexivity |].
        apply indexable_keep_best.
        repeat (apply Forall_app; split); auto.
        eapply mapM_Forall; [| exact Hexp1 | exact Hclosed].
        intros h c Hi Hc.
        destruct (close_expansion_returns t Hi) as (c' & Hc' & Hic).
        congruence.
Qed.

Lemma maes_frame_returns (kept_hyps : list (Hyp S DecState DecOut LMState))
      (t : Z) :
  Forall (indexable V1) kept_hyps ->
  exists out,
    maes_frame self score_hypothesis joint compute_ngram_score kept_hyps t
    = Some out
    /\ Forall (indexable V1) out.
Proof.
  intros Hk. unfold maes_frame.
  assert (Hnow : Forall (indexable V1)
                        (filter (fun x => last_frame x =? t) kept_hyps)).
  { eapply Forall_incl; [| exact Hk]. intros x Hx.
    apply filter_In in Hx. tauto. }
  assert (Hlater : Forall (indexable V1)
                          (filter (fun x => t <? last_frame x) kept_hyps)).
  { eapply Forall_incl; [| exact Hk]. intros x Hx.
    apply filter_In in Hx. tauto. }
  destruct (filter (fun x => last_frame x =? t) kept_hyps) as [| h hs] eqn:Ef.
  - eauto.
  - remember (zero_duration_idx self) as zi eqn:Hz in |- *.
    symmetry in Hz. destruct zi as [z |].
    + destruct (@prefix_search_indexable z t (maes_prefix_alpha self)
                  (sorted_by (@longer_first S DecState DecOut LMState)
                             (h :: hs)) Hz)
        as (hyps & -> & Hh & Hlen).
      { now apply sorted_by_Forall. }
      apply maes_rounds_returns; auto; try constructor.
      intros Hnil. rewrite Hnil, sorted_by_length in Hlen. discriminate.
    + apply maes_rounds_returns; auto; try constructor. discriminate.
Qed.

Lemma maes_frames_return (ts : list Z) :
  forall kept_hyps : list (Hyp S DecState DecOut LMState),
    Forall (indexable V1) kept_hyps ->
    exists out,
      frames (fun kept_hyps t =>
                match maes_frame self score_hypothesis joint
                                 compute_ngram_score kept_hyps t with
                | Some kept_hyps' => Returns kept_hyps'
                | None => Raises
                end) ts kept_hyps = Returns out.
Proof.
  induction ts as [| t ts' IH]; simpl; intros kept Hk; [eauto |].
  destruct (maes_frame_returns t Hk) as (out & -> & Hout). now apply IH.
Qed.

Lemma modified_adaptive_expansion_search_returns (encoded_lengths : Z) :
  exists nbest_hyps,
    modified_adaptive_expansion_search self initialize_state score_hypothesis
      joint compute_ngram_score init_lm_state encoded_lengths
    = Returns nbest_hyps.
Proof.
  unfold modified_adaptive_expansion_search.
  destruct (@maes_frames_return (range encoded_lengths)
              [maes_start_hyp self initialize_state score_hypothesis
                              init_lm_state])
    as (out & ->).
  - constructor; [| constructor]. unfold maes_start_hyp.
    destruct (score_hypothesis _) as [o st].
    split; [unfold cached; simpl; lia |]. simpl.
    constructor; [exact blank_in_range | constructor].
  - simpl. eauto.
Qed.
End MaesReturns.

Lemma argmin_nonzero_bound (D : list Z) (m : nat) (v : Z) :
  argmin_nonzero D = Some (m, v) -> (m < length D)%nat.
Proof.
  intros H. destruct (argmin_nonzero_spec _ H) as ((d & Hn & _) & _).
  apply nth_error_Some. congruence.
Qed.

(** What the constructor leaves in the attributes the searches size their
    top-k by. *)
Lemma init_search_fields {S} (KENLM_AVAILABLE : bool)
      (model_loads : string -> bool) (a : InitArgs S)
      (self : BeamTDTInfer S) :
  init KENLM_AVAILABLE model_loads a = inr self ->
  max_candidates self
  = (if String.eqb (arg_search_type a) "maes"
     then arg_beam_size a + arg_maes_expansion_beta a
     else arg_beam_size a)
  /\ tdt_duration_beam_size self = 2
  /\ ngram_lm self = lm_given (arg_ngram_lm_model a)
  /\ maes_num_steps self = arg_maes_num_steps a
  /\ maes_checks a = None
  /\ (min_non_zero_duration_idx self < length (durations self))%nat
  /\ (forall z, zero_duration_idx self = Some z ->
                (z < length (durations self))%nat).
Proof.
  unfold init.
  destruct (arg_preserve_alignments a); [discriminate |].
  destruct (Z.ltb_spec (arg_beam_size a) 1); [discriminate |].
  destruct (choose_search _ _) as [e | alg]; [discriminate |].
  destruct (maes_checks a); [discriminate |].
  destruct (argmin_nonzero (arg_durations a)) as [[m v] |] eqn:Em;
    [| discriminate].
  destruct (_ && _); [discriminate |].
  destruct (_ && _); [discriminate |].
  destruct (_ && _); [discriminate |].
  intros Heq. inversion Heq; subst; simpl.
  repeat split; auto.
  - eapply argmin_nonzero_bound. exact Em.
  - intros z Hz. apply index_of_zero_nth in Hz. destruct Hz as [Hz _].
    apply nth_error_Some. congruence.
Qed.

Lemma choose_search_maes (beam_size : Z) :
  beam_size <> 1 ->
  choose_search beam_size "maes" = inr ModifiedAdaptiveExpansionSearch.
Proof.
  intros Hb. unfold choose_search.
  destruct (Z.eqb_spec beam_size 1); [contradiction | reflexivity].
Qed.

(** The maes search of a decoder the constructor accepts returns on
    every utterance, whatever scores the networks answer: built for
    ['maes'] with a beam wider than one, [maes_expansion_beta >= 0], no
    N-gram model and at least two durations, over a joint network that
    answers [V1 >= vocab_size] token log-probabilities, the blank id among
    their positions, and one duration log-probability per duration, no
    lookup of the search is out of range and no top-k too wide. *)
Theorem maes_search_returns :
  forall (S : Type) (SC : Score S) (DecState DecOut LMState : Type)
         (KENLM_AVAILABLE : bool) (model_loads : string -> bool)
         (a : InitArgs S) (self : BeamTDTInfer S)
         (initialize_state : DecState)
         (score_hypothesis : Hyp S DecState DecOut LMState -> DecOut * DecState)
         (joint : Z -> DecOut -> list S * list S)
         (compute_ngram_score : LMState -> Z -> S * LMState)
         (init_lm_state : LMState)
         (V1 : nat) (fuel : nat) (encoded_lengths : Z),
    init KENLM_AVAILABLE model_loads a = inr self ->
    arg_search_type a = "maes"%string ->
    arg_beam_size a <> 1 ->
    0 <= arg_maes_expansion_beta a ->
    lm_given (arg_ngram_lm_model a) = false ->
    (2 <= length (arg_durations a))%nat ->
    (forall t d, length (fst (joint t d)) = V1) ->
    (forall t d, length (snd (joint t d)) = length (arg_durations a)) ->
    arg_vocab_size a <= Z.of_nat V1 ->
    - Z.of_nat V1 <= arg_blank_idx a < Z.of_nat V1 ->
    exists nbest_hyps,
      run_search self initialize_state score_hypothesis joint
                 compute_ngram_score init_lm_state fuel encoded_lengths
      = Returns nbest_hyps.
Proof.
  intros S SC DecState DecOut LMState K loads a self initialize_state
         score_hypothesis joint compute_ngram_score init_lm_state V1 fuel L
         Hinit Htype Hbeam Hbeta Hlm Hdur Htok Hjd Hvocab Hblank.
  destruct (init_fields _ _ _ Hinit)
    as (HD & HB & _ & _ & Hb1 & Hs & _).
  destruct (init_search_fields _ _ _ Hinit)
    as (Hmc & Htdt & Hnl & _ & Hchk & Hmin & Hzero).
  rewrite Htype in Hs, Hmc.
  rewrite (choose_search_maes Hbeam) in Hs. inversion Hs as [Halg].
  unfold run_search. rewrite <- Halg.
  unfold maes_checks in Hchk. rewrite Htype in Hchk. simpl in Hchk, Hmc.
  destruct (arg_maes_prefix_alpha a <? 0); [discriminate |].
  destruct (Z.ltb_spec (arg_vocab_size a)
                       (arg_beam_size a + arg_maes_expansion_beta a));
    [discriminate |].
  eapply modified_adaptive_expansion_search_returns with (V1 := V1).
  - exact Htok.
  - rewrite HD. exact Hjd.
  - rewrite HB. exact Hblank.
  - rewrite Hmc. lia.
  - rewrite Htdt, HD. lia.
  - exact Hzero.
  - exact Hmin.
  - rewrite Hnl. exact Hlm.
Qed.

(** ** The default search raises no exception *)

Lemma cartesian_sums_length {S} `{Score S} (a b : list S) :
  length (cartesian_sums a b) = (length a * length b)%nat.
Proof.
  unfold cartesian_sums. induction a as [| x a' IH]; simpl; [reflexivity |].
  rewrite length_app, length_map, IH. reflexivity.
Qed.

Lemma frames_never_raise {S DecState DecOut LMState : Type}
      (body : list (Hyp S DecState DecOut LMState) -> Z
              -> Outcome (list (Hyp S DecState DecOut LMState))) :
  (forall kept t, body kept t <> Raises) ->
  forall ts kept, frames body ts kept <> Raises.
Proof.
  intros Hbody ts. induction ts as [| t ts' IH]; simpl; intros kept.
  - discriminate.
  - pose proof (Hbody kept t) as Hb.
    destruct (body kept t) as [k' | |]; [apply IH | congruence | discriminate].
Qed.

Section DefaultSafe.
Context {S : Type} {SC : Score S}.
Variables DecState DecOut LMState : Type.
Variable self : BeamTDTInfer S.
Variable initialize_state : DecState.
Variable score_hypothesis : Hyp S DecState DecOut LMState -> DecOut * DecState.
Variable joint : Z -> DecOut -> list S * list S.

(** The sizes the search relies on: a beam and a vocabulary of at least
    one, at least [vocab_size] token log-probabilities with the blank
    among them, one duration log-probability per duration, and the index
    of the least non-zero duration within the table. *)
Hypothesis beam_positive : 1 <= beam_size self.
Hypothesis vocab_positive : 1 <= vocab_size self.
Hypothesis joint_tokens :
  forall t d, vocab_size self <= Z.of_nat (length (fst (joint t d))).
Hypothesis joint_blank :
  forall t d, - Z.of_nat (length (fst (joint t d))) <= blank self
              < Z.of_nat (length (fst (joint t d))).
Hypothesis joint_durations :
  forall t d, length (snd (joint t d)) = length (durations self).
Hypothesis min_idx_in_range :
  (min_non_zero_duration_idx self < length (durations self))%nat.

Lemma nonblank_loop_returns (time_idx encoded_lengths : Z)
      (max_hyp : Hyp S DecState DecOut LMState) (decoder_state : DecState)
      (logp_topk_idxs durations_logp_topk_idxs : list nat)
      (pairs : list (S * nat)) :
  length logp_topk_idxs = Z.to_nat (beam_k self) ->
  Forall (fun i => (i < length (durations self))%nat)
         durations_logp_topk_idxs ->
  Forall (fun p => (snd p < length durations_logp_topk_idxs
                            * Z.to_nat (beam_k self))%nat) pairs ->
  forall hyps kept_hyps,
  exists r,
    nonblank_loop self time_idx encoded_lengths max_hyp decoder_state
                  logp_topk_idxs durations_logp_topk_idxs pairs hyps kept_hyps
    = Some r.
Proof.
  intros Hlen Hdur Hpairs.
  induction Hpairs as [| [sum_logp_topk idx] pairs' Hp _ IH]; simpl;
    intros hyps kept; [eauto |].
  simpl in Hp. unfold nonblank_child.
  assert (Hbk : Z.to_nat (beam_k self) <> 0%nat) by lia.
  destruct (nth_error durations_logp_topk_idxs (idx / Z.to_nat (beam_k self)))
    as [didx |] eqn:Ed.
  2: { apply nth_error_None in Ed.
       assert (idx / Z.to_nat (beam_k self)
               < length durations_logp_topk_idxs)%nat
         by (apply Nat.Div0.div_lt_upper_bound; lia).
       lia. }
  apply nth_error_In in Ed. rewrite Forall_forall in Hdur.
  destruct (nth_error (durations self) didx) as [duration |] eqn:Edur.
  2: { apply nth_error_None in Edur. specialize (Hdur _ Ed). lia. }
  destruct (nth_error logp_topk_idxs (idx mod Z.to_nat (beam_k self)))
    as [token |] eqn:Et.
  2: { apply nth_error_None in Et.
       pose proof (Nat.mod_upper_bound idx _ Hbk). lia. }
  simpl. destruct (duration =? 0); apply IH.
Qed.

Lemma blank_loop_returns (encoded_lengths : Z)
      (max_hyp : Hyp S DecState DecOut LMState)
      (logp durations_logp : list S) (topk_size : nat) (idxs : list nat) :
  - Z.of_nat (length logp) <= blank self < Z.of_nat (length logp) ->
  length durations_logp = length (durations self) ->
  Forall (fun i => (i < length (durations self))%nat) idxs ->
  forall kept_hyps,
  exists r,
    blank_loop self encoded_lengths max_hyp logp durations_logp topk_size
               idxs kept_hyps = Some r.
Proof.
  intros Hb Hd Hidxs.
  induction Hidxs as [| duration_idx idxs' Hi _ IH]; simpl; intros kept;
    [eauto |].
  destruct (blank_duration_idx self topk_size duration_idx) as [j |] eqn:Ej;
    [| apply IH].
  assert (Hj : (j < length (durations self))%nat).
  { unfold blank_duration_idx in Ej.
    destruct (is_zero_idx self duration_idx).
    - destruct (Nat.eqb topk_size 1); [| discriminate].
      inversion Ej; subst. exact min_idx_in_range.
    - inversion Ej; subst. exact Hi. }
  unfold blank_child.
  destruct (nth_error (durations self) j) as [duration |] eqn:Edur.
  2: { apply nth_error_None in Edur. lia. }
  destruct (py_index logp (blank self)) as [lb |] eqn:Eb.
  2: { exfalso. revert Eb. now apply py_index_wraps. }
  destruct (nth_error durations_logp j) as [ld |] eqn:El.
  2: { apply nth_error_None in El. lia. }
  simpl. apply IH.
Qed.

Lemma default_expand_returns (time_idx encoded_lengths : Z)
      (hyps kept_hyps : list (Hyp S DecState DecOut LMState)) :
  hyps <> [] ->
  exists r,
    default_expand self score_hypothesis joint time_idx encoded_lengths
                   hyps kept_hyps = Some r.
Proof.
  intros Hne. unfold default_expand.
  destruct (max_by_some (key_asc score) Hne) as (max_hyp & ->).
  destruct (score_hypothesis max_hyp) as [decoder_output decoder_state].
  pose proof (joint_tokens time_idx decoder_output) as Ht.
  pose proof (joint_blank time_idx decoder_output) as Hb.
  pose proof (joint_durations time_idx decoder_output) as Hd.
  destruct (joint time_idx decoder_output) as [logp durations_logp].
  simpl in Ht, Hb, Hd.
  assert (Hbeam : 1 <= beam self) by (unfold beam; lia).
  assert (Hbk : 0 <= beam_k self <= vocab_size self - 1)
    by (unfold beam_k; lia).
  assert (Hdne : (1 <= length (durations self))%nat) by lia.
  assert (Hdk : 1 <= durations_beam_k self
                <= Z.of_nat (length (durations self)))
    by (unfold durations_beam_k; lia).
  destruct (@topk_some _ _ (beam_k self) (without_last logp))
    as (logp_topks & logp_topk_idxs & -> & Hl1 & Hl2 & _).
  { rewrite without_last_length. lia. }
  destruct (@topk_some _ _ (durations_beam_k self) durations_logp)
    as (durations_logp_topks & durations_logp_topk_idxs & -> & Hl3 & Hl4 & Hdi).
  { rewrite Hd. lia. }
  rewrite Hd in Hdi.
  destruct (@topk_some _ _ (beam_k self)
              (cartesian_sums durations_logp_topks logp_topks))
    as (sum_logp_topks & sum_logp_topk_idxs & -> & _ & _ & Hsi).
  { rewrite cartesian_sums_length, Hl1, Hl3. nia. }
  rewrite cartesian_sums_length, Hl1, Hl3, <- Hl4 in Hsi.
  destruct (@nonblank_loop_returns time_idx encoded_lengths max_hyp
              decoder_state logp_topk_idxs durations_logp_topk_idxs
              (combine sum_logp_topks sum_logp_topk_idxs) Hl2 Hdi)
    with (hyps := remove_max (key_asc score) hyps) (kept_hyps := kept_hyps)
    as ([hyps1 kept1] & ->).
  { apply Forall_forall. intros [v i] Hin. apply in_combine_r in Hin.
    rewrite Forall_forall in Hsi. simpl. auto. }
  destruct (@blank_loop_returns encoded_lengths max_hyp logp durations_logp
              (length durations_logp_topk_idxs) durations_logp_topk_idxs
              Hb Hd Hdi kept1) as (kept2 & ->).
  destruct (termination_check self hyps1 (remove_duplicate_hypotheses kept2))
    as [k st].
  eauto.
Qed.

Lemma default_while_never_raises (fuel : nat) :
  forall time_idx encoded_lengths
         (hyps kept_hyps : list (Hyp S DecState DecOut LMState)),
    default_while self score_hypothesis joint fuel time_idx encoded_lengths
                  hyps kept_hyps <> Raises.
Proof.
  induction fuel as [| fuel' IH]; intros t L hyps kept;
    destruct hyps as [| h hs]; simpl; try discriminate.
  destruct (@default_expand_returns t L (h :: hs) kept)
    as ([[hyps' kept'] stop] & ->); [discriminate |].
  destruct stop; [discriminate | apply IH].
Qed.

Lemma default_beam_search_never_raises (fuel : nat) (encoded_lengths : Z) :
  default_beam_search self initialize_state score_hypothesis joint
                      fuel encoded_lengths <> Raises.
Proof.
  unfold default_beam_search.
  pose proof (@frames_never_raise S DecState DecOut LMState
                (default_frame self score_hypothesis joint fuel
                               encoded_lengths)) as Hf.
  match goal with
  | |- outcome_map _ ?o <> _ =>
      assert (Ho : o <> Raises); [| destruct o; simpl; congruence]
  end.
  apply Hf. intros kept t. unfold default_frame.
  pose proof (default_while_never_raises fuel t encoded_lengths
                (filter (fun hyp => last_frame hyp =? t) kept)
                (filter (fun hyp => t <? last_frame hyp) kept)) as Hw.
  destruct (default_while _ _ _ _ _ _ _ _); simpl; congruence.
Qed.
End DefaultSafe.

(** The default search of a decoder the constructor accepts raises no
    exception, whatever scores the networks answer: with a vocabulary of
    at least one token, over a joint network that answers at least
    [vocab_size] token log-probabilities, the blank id among their
    positions, and one duration log-probability per duration, every
    top-k is within its vector and every lookup in range.  An outcome is
    a result, or the [while] loop of a frame was still running when the
    fuel ran out. *)
Theorem default_search_never_raises :
  forall (S : Type) (SC : Score S) (DecState DecOut LMState : Type)
         (KENLM_AVAILABLE : bool) (model_loads : string -> bool)
         (a : InitArgs S) (self : BeamTDTInfer S)
         (initialize_state : DecState)
         (score_hypothesis : Hyp S DecState DecOut LMState -> DecOut * DecState)
         (joint : Z -> DecOut -> list S * list S)
         (fuel : nat) (encoded_lengths : Z),
    init KENLM_AVAILABLE model_loads a = inr self ->
    1 <= arg_vocab_size a ->
    (forall t d, arg_vocab_size a <= Z.of_nat (length (fst (joint t d)))) ->
    (forall t d, - Z.of_nat (length (fst (joint t d))) <= arg_blank_idx a
                 < Z.of_nat (length (fst (joint t d)))) ->
    (forall t d, length (snd (joint t d)) = length (arg_durations a)) ->
    default_beam_search self initialize_state score_hypothesis joint
                        fuel encoded_lengths <> Raises.
Proof.
  intros S SC DecState DecOut LMState K loads a self initialize_state
         score_hypothesis joint fuel L Hinit Hvocab Htok Hblank Hjd.
  destruct (init_fields _ _ _ Hinit) as (HD & HB & HV & Hbs & Hb1 & _).
  destruct (init_search_fields _ _ _ Hinit) as (_ & _ & _ & _ & _ & Hmin & _).
  apply default_beam_search_never_raises.
  - rewrite Hbs. exact Hb1.
  - rewrite HV. exact Hvocab.
  - intros t d. rewrite HV. apply Htok.
  - intros t d. rewrite HB. apply Hblank.
  - intros t d. rewrite HD. apply Hjd.
  - exact Hmin.
Qed.

(** ** A maes decoder needs two durations *)

Section MaesFewDurations.
Context {S : Type} {SC : Score S}.
Variables DecState DecOut LMState : Type.
Variable self : BeamTDTInfer S.
Variable initialize_state : DecState.
Variable score_hypothesis : Hyp S DecState DecOut LMState -> DecOut * DecState.
Variable joint : Z -> DecOut -> list S * list S.
Variable compute_ngram_score : LMState -> Z -> S * LMState.
Variable init_lm_state : LMState.

Hypothesis joint_durations :
  forall t d, length (snd (joint t d)) = length (durations self).
Hypothesis too_wide :
  Z.of_nat (length (durations self)) < tdt_duration_beam_size self.

Lemma topk_too_wide (k : Z) (l : list S) :
  Z.of_nat (length l) < k -> topk k l = None.
Proof.
  intros Hk. unfold topk.
  destruct (Z.leb_spec k (Z.of_nat (length l))); [lia |].
  now rewrite andb_false_r.
Qed.

Lemma maes_rounds_raises (left : nat) (n t : Z)
      (duplication_check : list (list Z))
      (hyps list_b0 list_nb0 kept_hyps : list (Hyp S DecState DecOut LMState)) :
  hyps <> [] ->
  maes_rounds self score_hypothesis joint compute_ngram_score
              (Datatypes.S left) n t duplication_check hyps list_b0 list_nb0
              kept_hyps = None.
Proof.
  intros Hne. cbn [maes_rounds].
  destruct hyps as [| h hs]; [congruence |]. cbn [stack].
  destruct (mapM (joint_row joint t) (h :: hs)) as [beam_rows |] eqn:Erows;
    [| reflexivity].
  destruct (mapM (fun r : list S * list S =>
                    topk (max_candidates self) (fst r)) beam_rows)
    as [tok |]; [| reflexivity].
  simpl in Erows.
  destruct (joint_row joint t h) as [row |] eqn:Erow; [| discriminate].
  destruct (mapM (joint_row joint t) hs) as [rows |]; [| discriminate].
  inversion Erows; subst. simpl.
  unfold joint_row in Erow.
  destruct (py_last (dec_out h)) as [d |]; [| discriminate].
  inversion Erow; subst.
  rewrite topk_too_wide; [reflexivity |].
  rewrite joint_durations. exact too_wide.
Qed.

Lemma maes_frame_raises (kept_hyps : list (Hyp S DecState DecOut LMState))
      (t : Z) (h : Hyp S DecState DecOut LMState) :
  1 <= maes_num_steps self ->
  In h kept_hyps -> last_frame h = t ->
  maes_frame self score_hypothesis joint compute_ngram_score kept_hyps t
  = None.
Proof.
  intros Hsteps Hin Hlf. unfold maes_frame.
  destruct (filter (fun x => last_frame x =? t) kept_hyps) as [| x xs] eqn:Ef.
  { exfalso. assert (Hx : In h []); [| exact Hx].
    rewrite <- Ef. apply filter_In. split; [exact Hin | now apply Z.eqb_eq]. }
  destruct (Z.to_nat (maes_num_steps self)) as [| left] eqn:El; [lia |].
  destruct (zero_duration_idx self).
  - destruct (prefix_search _ _ _ _ _ _) as [hyps |] eqn:Ep; [| reflexivity].
    cbv beta iota. apply maes_rounds_raises.
    apply prefix_search_mono, Forall2_length in Ep.
    rewrite sorted_by_length in Ep. intros Hnil. rewrite Hnil in Ep.
    discriminate.
  - cbv beta iota. apply maes_rounds_raises. discriminate.
Qed.

Lemma modified_adaptive_expansion_search_raises (encoded_lengths : Z) :
  1 <= maes_num_steps self ->
  1 <= encoded_lengths ->
  modified_adaptive_expansion_search self initialize_state score_hypothesis
    joint compute_ngram_score init_lm_state encoded_lengths = Raises.
Proof.
  intros Hsteps HL. unfold modified_adaptive_expansion_search, range.
  destruct (Z.to_nat encoded_lengths) as [| n] eqn:En; [lia |].
  simpl.
  rewrite (@maes_frame_raises _ 0
             (maes_start_hyp self initialize_state score_hypothesis
                             init_lm_state)).
  - reflexivity.
  - exact Hsteps.
  - now left.
  - unfold maes_start_hyp. now destruct (score_hypothesis _).
Qed.
End MaesFewDurations.

(** The constructor accepts a maes decoder with a single duration, but
    every search with it raises: the top two durations are asked of a
    vector that has only one entry, at the first frame of any utterance
    that has a frame. *)
Theorem maes_single_duration_raises :
  forall (S : Type) (SC : Score S) (DecState DecOut LMState : Type)
         (KENLM_AVAILABLE : bool) (model_loads : string -> bool)
         (a : InitArgs S) (self : BeamTDTInfer S)
         (initialize_state : DecState)
         (score_hypothesis : Hyp S DecState DecOut LMState -> DecOut * DecState)
         (joint : Z -> DecOut -> list S * list S)
         (compute_ngram_score : LMState -> Z -> S * LMState)
         (init_lm_state : LMState) (fuel : nat) (encoded_lengths : Z),
    init KENLM_AVAILABLE model_loads a = inr self ->
    arg_search_type a = "maes"%string ->
    arg_beam_size a <> 1 ->
    (length (arg_durations a) < 2)%nat ->
    (forall t d, length (snd (joint t d)) = length (arg_durations a)) ->
    1 <= encoded_lengths ->
    run_search self initialize_state score_hypothesis joint
               compute_ngram_score init_lm_state fuel encoded_lengths
    = Raises.
Proof.
  intros S SC DecState DecOut LMState K loads a self initialize_state
         score_hypothesis joint compute_ngram_score init_lm_state fuel L
         Hinit Htype Hbeam Hdur Hjd HL.
  destruct (init_fields _ _ _ Hinit) as (HD & _ & _ & _ & _ & Hs & _).
  destruct (init_search_fields _ _ _ Hinit)
    as (_ & Htdt & _ & Hsteps & Hchk & _).
  rewrite Htype in Hs. rewrite (choose_search_maes Hbeam) in Hs.
  inversion Hs as [Halg]. unfold run_search. rewrite <- Halg.
  unfold maes_checks in Hchk. rewrite Htype in Hchk. simpl in Hchk.
  destruct (arg_maes_prefix_alpha a <? 0); [discriminate |].
  destruct (arg_vocab_size a <? _); [discriminate |].
  destruct (Z.ltb_spec (arg_maes_num_steps a) 2); [discriminate |].
  apply modified_adaptive_expansion_search_raises.
  - rewrite HD. exact Hjd.
  - rewrite Htdt, HD. lia.
  - rewrite Hsteps. lia.
  - exact HL.
Qed.

(** ** The default search consumes every frame *)

Lemma frames_last {S DecState DecOut LMState : Type}
      (P : Z -> list (Hyp S DecState DecOut LMState) -> Prop)
      (body : list (Hyp S DecState DecOut LMState) -> Z
              -> Outcome (list (Hyp S DecState DecOut LMState))) :
  (forall kept t out, body kept t = Returns out -> P t out) ->
  forall ts kept out t0,
    frames body (ts ++ [t0]) kept = Returns out -> P t0 out.
Proof.
  intros Hbody ts. induction ts as [| t ts' IH]; simpl; intros kept out t0 H.
  - destruct (body kept t0) as [k' | |] eqn:E; try discriminate.
    inversion H; subst. eapply Hbody. exact E.
  - destruct (body kept t) as [k' | |]; try discriminate.
    eapply IH. exact H.
Qed.

Lemma range_last (n : Z) :
  1 <= n -> exists ts, range n = ts ++ [n - 1].
Proof.
  intros Hn. unfold range.
  destruct (Z.to_nat n) as [| m] eqn:Em; [lia |].
  rewrite seq_S, map_app. simpl.
  exists (map Z.of_nat (seq 0 m)). do 2 f_equal. lia.
Qed.

(** For a decoder built by the constructor over a table of distinct
    non-negative durations below the largest [int64], with a non-zero
    one, every hypothesis the default search returns has consumed the
    utterance: its [last_frame] is at least [encoded_lengths]. *)
Theorem default_search_consumes_frames :
  forall (S : Type) (SC : Score S) (DecState DecOut LMState : Type)
         (KENLM_AVAILABLE : bool) (model_loads : string -> bool)
         (a : InitArgs S) (self : BeamTDTInfer S)
         (initialize_state : DecState)
         (score_hypothesis : Hyp S DecState DecOut LMState -> DecOut * DecState)
         (joint : Z -> DecOut -> list S * list S)
         (fuel : nat) (encoded_lengths : Z)
         (nbest_hyps : list (Hyp S DecState DecOut LMState)),
    init KENLM_AVAILABLE model_loads a = inr self ->
    plain_durations (arg_durations a) ->
    default_beam_search self initialize_state score_hypothesis joint
                        fuel encoded_lengths = Returns nbest_hyps ->
    Forall (fun h => encoded_lengths <= last_frame h) nbest_hyps.
Proof.
  intros S SC DecState DecOut LMState K loads a self initialize_state
         score_hypothesis joint fuel L nbest Hinit Hplain.
  destruct (init_fields _ _ _ Hinit) as (HD & _ & _ & _ & _ & _ & Hz & Hm).
  rewrite <- HD in Hz, Hm, Hplain.
  unfold default_beam_search.
  destruct (frames _ _ _) as [kept | |] eqn:E; simpl; try discriminate.
  intros H. inversion H; subst.
  eapply Forall_incl; [intros x; apply Permutation_in, sort_nbest_perm |].
  destruct (Z.le_gt_cases 1 L) as [HL | HL].
  - destruct (range_last HL) as (ts & Hts). rewrite Hts in E.
    apply (frames_last
             (fun t (out : list (Hyp S DecState DecOut LMState)) =>
                Forall (fun h => t < last_frame h) out)) in E.
    + eapply Forall_impl; [| exact E]. simpl. intros h Hh. lia.
    + intros k t out Hf. eapply progress_default_frame; eassumption.
  - unfold range in E. replace (Z.to_nat L) with 0%nat in E by lia.
    simpl in E. inversion E; subst.
    constructor; [simpl; lia | constructor].
Qed.

(** ** The corrector without a margin *)

Section PrefixDisabled.
Context {S : Type} {SC : Score S}.
Variables DecState DecOut LMState : Type.
Variable self : BeamTDTInfer S.
Variable joint : Z -> DecOut -> list S * list S.
Variable compute_ngram_score : LMState -> Z -> S * LMState.
Variable t : Z.
Variable prefix_alpha : Z.

Lemma prefix_inner_unchanged (curr_hyp : Hyp S DecState DecOut LMState)
      (prefs : list (Hyp S DecState DecOut LMState)) :
  Forall (fun pref_hyp =>
            is_prefix (y_sequence curr_hyp) (y_sequence pref_hyp)
            && (Z.of_nat (length (y_sequence curr_hyp))
                - Z.of_nat (length (y_sequence pref_hyp)) <=? prefix_alpha)
            = false) prefs ->
  prefix_inner self joint compute_ngram_score t prefix_alpha curr_hyp prefs
  = Some curr_hyp.
Proof.
  induction 1 as [| p prefs' Hp _ IH]; simpl; [reflexivity |].
  unfold prefix_update. rewrite Hp. exact IH.
Qed.

(** The corrector leaves the list as it is, and raises nothing, when no
    hypothesis has a later hypothesis of the list as a proper prefix at
    most [prefix_alpha] tokens shorter; so it does for every list when
    [prefix_alpha] is 0 or less, as a proper prefix is at least one token
    shorter. *)
Theorem prefix_search_unchanged :
  forall hypotheses : list (Hyp S DecState DecOut LMState),
    (ForallOrdPairs
       (fun curr_hyp pref_hyp =>
          is_prefix (y_sequence curr_hyp) (y_sequence pref_hyp)
          && (Z.of_nat (length (y_sequence curr_hyp))
              - Z.of_nat (length (y_sequence pref_hyp)) <=? prefix_alpha)
          = false) hypotheses ->
     prefix_search self joint compute_ngram_score hypotheses t prefix_alpha
     = Some hypotheses)
    /\ (prefix_alpha <= 0 ->
        prefix_search self joint compute_ngram_score hypotheses t prefix_alpha
        = Some hypotheses).
Proof.
  intros hypotheses.
  assert (Hgen : ForallOrdPairs
                   (fun curr_hyp pref_hyp : Hyp S DecState DecOut LMState =>
                      is_prefix (y_sequence curr_hyp) (y_sequence pref_hyp)
                      && (Z.of_nat (length (y_sequence curr_hyp))
                          - Z.of_nat (length (y_sequence pref_hyp))
                          <=? prefix_alpha) = false) hypotheses ->
                 prefix_search self joint compute_ngram_score hypotheses t
                               prefix_alpha = Some hypotheses).
  { induction 1 as [| x r Hx _ IH]; simpl; [reflexivity |].
    rewrite (@prefix_inner_unchanged x r Hx), IH. reflexivity. }
  split; [exact Hgen |].
  intros Halpha. apply Hgen. clear Hgen.
  induction hypotheses as [| x r IH]; constructor; [| exact IH].
  apply Forall_forall. intros p _.
  destruct (is_prefix (y_sequence x) (y_sequence p)) eqn:Hpre;
    [| reflexivity].
  apply is_prefix_shorter in Hpre. simpl.
  apply Z.leb_gt. lia.
Qed.
End PrefixDisabled.

(** ** Tokens emitted in a frame of the maes search *)

Section MaesGrowth.
Context {S : Type} {SC : Score S}.
Variables DecState DecOut LMState : Type.
Variable self : BeamTDTInfer S.
Variable score_hypothesis : Hyp S DecState DecOut LMState -> DecOut * DecState.
Variable joint : Z -> DecOut -> list S * list S.
Variable compute_ngram_score : LMState -> Z -> S * LMState.
Variable t : Z.
Variable kept0 : list (Hyp S DecState DecOut LMState).

(** Tokens [y] with timesteps [ts] extend a hypothesis of [kept0] by at
    most [n] tokens, each stamped with the frame [t]. *)
Let grown (n : nat) (y ts : list Z) : Prop :=
  exists h0 ext,
    In h0 kept0
    /\ y = y_sequence h0 ++ ext
    /\ ts = timestep h0 ++ repeat t (length ext)
    /\ (length ext <= n)%nat.

Let grown_hyp (n : nat) (h : Hyp S DecState DecOut LMState) : Prop :=
  grown n (y_sequence h) (timestep h).

Lemma grown_mono (n m : nat) (y ts : list Z) :
  (n <= m)%nat -> grown n y ts -> grown m y ts.
Proof.
  intros Hnm (h0 & ext & H1 & H2 & H3 & H4).
  exists h0, ext. repeat split; auto. lia.
Qed.

Lemma grown_snoc (n : nat) (y ts : list Z) (k : Z) :
  grown n y ts -> grown (Datatypes.S n) (y ++ [k]) (ts ++ [t]).
Proof.
  intros (h0 & ext & H1 & H2 & H3 & H4).
  exists h0, (ext ++ [k]). split; [exact H1 |].
  split; [rewrite H2; now rewrite app_assoc |].
  split.
  - rewrite H3, length_app, Nat.add_1_r. simpl.
    rewrite repeat_cons. now rewrite app_assoc.
  - rewrite length_app. simpl. lia.
Qed.

Lemma grown_same (n : nat) (l l' : list (Hyp S DecState DecOut LMState)) :
  Forall2 (fun h h' => y_sequence h' = y_sequence h
                       /\ timestep h' = timestep h) l l' ->
  Forall (grown_hyp n) l -> Forall (grown_hyp n) l'.
Proof.
  induction 1 as [| h h' r r' [Hy Ht] _ IH]; intros Hl; [constructor |].
  inversion Hl; subst. constructor; [| now apply IH].
  unfold grown_hyp. now rewrite Hy, Ht.
Qed.

Lemma grown_update (n : nat) (l : list (Hyp S DecState DecOut LMState)) :
  Forall (grown_hyp n) l ->
  Forall (grown_hyp n) (map (update_hyp score_hypothesis) l).
Proof.
  intros H. apply Forall_map. eapply Forall_impl; [| exact H].
  intros h Hh. unfold update_hyp. destruct (score_hypothesis h). exact Hh.
Qed.

Lemma grown_close (n : nat) (h c : Hyp S DecState DecOut LMState) :
  grown_hyp n h -> close_expansion self joint t h = Some c -> grown_hyp n c.
Proof.
  unfold close_expansion. intros Hp H.
  bind_as H [beam_logp_i beam_duration_logp_i].
  bind_as H [v beam_max_duration_idx].
  bind_as H lb. bind_as H ld. bind_as H duration.
  inversion H; subst. exact Hp.
Qed.

Lemma maes_rounds_grown (left : nat) :
  forall done n duplication_check
         (hyps list_b0 list_nb0 kept_hyps out
          : list (Hyp S DecState DecOut LMState)),
    Forall (grown_hyp done) hyps -> Forall (grown_hyp done) list_b0 ->
    Forall (grown_hyp done) list_nb0 -> Forall (grown_hyp 0) kept_hyps ->
    maes_rounds self score_hypothesis joint compute_ngram_score left n t
                duplication_check hyps list_b0 list_nb0 kept_hyps = Some out ->
    Forall (grown_hyp (done + left)) out.
Proof.
  induction left as [| left' IH]; simpl;
    intros done n dc hyps lb lnb kept out Hh Hlb Hlnb Hk H.
  - inversion H; subst. eapply Forall_impl; [| exact Hk].
    intros h. apply grown_mono. lia.
  - bind_as H stacked. bind_as H beam_rows. bind_as H tok. bind_as H dur.
    bind_as H k_expansions. bind_as H b.
    assert (Hb : Forall (grown_hyp done) (list_b b)
                 /\ Forall (grown_hyp (Datatypes.S done)) (list_nb b)
                 /\ Forall (grown_hyp (Datatypes.S done)) (list_exp b)).
    { eapply inv_maes_expand_all with
        (Q := fun (y ts : list Z) (_ : list DecOut) (_ : Z) => grown done y ts)
        (Q' := fun (y ts : list Z) (_ : list DecOut) (_ : Z) =>
                 grown (Datatypes.S done) y ts);
        [| | | | | | eassumption]; simpl; auto.
      - intros y ts d frame duration k Hq _. now apply grown_snoc.
      - apply Forall_forall. intros [[h r] xs] Hin. simpl.
        apply in_combine_l, in_combine_l in Hin.
        rewrite Forall_forall in Hh. now apply Hh.
      - eapply Forall_impl; [| exact Hlnb].
        intros h. apply grown_mono. lia. }
    destruct Hb as (Hb1 & Hb2 & Hb3).
    assert (Hb1' : Forall (grown_hyp (Datatypes.S done)) (list_b b)).
    { eapply Forall_impl; [| exact Hb1]. intros h. apply grown_mono. lia. }
    assert (Hk' : Forall (grown_hyp (Datatypes.S done)) kept).
    { eapply Forall_impl; [| exact Hk]. intros h. apply grown_mono. lia. }
    pose proof (grown_update Hb2) as Hnb1.
    pose proof (grown_update Hb3) as Hexp1.
    assert (Hup : forall l : list (Hyp S DecState DecOut LMState),
               Forall (grown_hyp (Datatypes.S done)) l ->
               Forall (grown_hyp (done + Datatypes.S left')) l).
    { intros l. apply Forall_impl. intros h. apply grown_mono. lia. }
    destruct (map (update_hyp score_hypothesis) (list_exp b)) as [| e es].
    + inversion H; subst. apply Hup.
      eapply Forall_incl; [intros x; apply keep_best_incl |].
      repeat (apply Forall_app; split); auto.
    + destruct (n <? maes_num_steps self - 1).
      * replace (done + Datatypes.S left')%nat
          with (Datatypes.S done + left')%nat by lia.
        eapply IH; [| | | | exact H]; auto.
        eapply Forall_incl; [| exact Hexp1].
        intros x. apply remove_duplicate_hypotheses_incl.
      * bind_as H closed. inversion H; subst. apply Hup.
        eapply Forall_incl; [intros x; apply keep_best_incl |].
        repeat (apply Forall_app; split); auto.
        eapply mapM_Forall; [| exact Hexp1 | eassumption].
        intros x y Hx Hy. eapply grown_close; eassumption.
Qed.
End MaesGrowth.

(** A frame of the maes search emits at most [maes_num_steps] tokens per
    hypothesis: every hypothesis kept after frame [t] has the tokens and
    timesteps of a hypothesis kept before the frame, followed by at most
    [maes_num_steps] further tokens, each with timestep [t]. *)
Theorem maes_frame_growth :
  forall (S : Type) (SC : Score S) (DecState DecOut LMState : Type)
         (self : BeamTDTInfer S)
         (score_hypothesis : Hyp S DecState DecOut LMState -> DecOut * DecState)
         (joint : Z -> DecOut -> list S * list S)
         (compute_ngram_score : LMState -> Z -> S * LMState)
         (kept_hyps out : list (Hyp S DecState DecOut LMState)) (t : Z),
    maes_frame self score_hypothesis joint compute_ngram_score kept_hyps t
    = Some out ->
    Forall (fun h =>
              exists h0 ext,
                In h0 kept_hyps
                /\ y_sequence h = y_sequence h0 ++ ext
                /\ timestep h = timestep h0 ++ repeat t (length ext)
                /\ (length ext <= Z.to_nat (maes_num_steps self))%nat)
           out.
Proof.
  intros S SC DecState DecOut LMState self score_hypothesis joint
         compute_ngram_score kept out t.
  assert (Hsub : forall f : Hyp S DecState DecOut LMState -> bool,
             Forall (fun h =>
                       exists h0 ext,
                         In h0 kept
                         /\ y_sequence h = y_sequence h0 ++ ext
                         /\ timestep h = timestep h0 ++ repeat t (length ext)
                         /\ (length ext <= 0)%nat)
                    (filter f kept)).
  { intros f. apply Forall_forall. intros h Hh. apply filter_In in Hh.
    destruct Hh as [Hh _]. exists h, []. simpl. rewrite !app_nil_r.
    repeat split; auto. }
  unfold maes_frame.
  pose proof (Hsub (fun x => last_frame x =? t)) as Hnow.
  destruct (filter (fun x => last_frame x =? t) kept) as [| h hs].
  - intros H. inversion H; subst.
    eapply Forall_impl; [| apply Hsub].
    intros x (h0 & ext & H1 & H2 & H3 & H4). exists h0, ext.
    repeat split; auto. lia.
  - intros H. bind_as H hyps.
    eapply maes_rounds_grown with
      (kept0 := kept) (left := Z.to_nat (maes_num_steps self)) (done := 0%nat);
      [| | | | exact H].
    + destruct (zero_duration_idx self).
      * apply prefix_search_mono in E.
        eapply grown_same; [| apply sorted_by_Forall; exact Hnow].
        eapply Forall2_impl; [| exact E].
        intros a b [_ ->]. split; reflexivity.
      * inversion E; subst. exact Hnow.
    + constructor.
    + constructor.
    + apply Hsub.
Qed.

(** ** Timesteps are in order *)

Lemma sorted_snoc (ts : list Z) (t : Z) :
  StronglySorted Z.le ts -> Forall (fun s => s <= t) ts ->
  StronglySorted Z.le (ts ++ [t]).
Proof.
  induction 1 as [| s r Hr IH Hs]; intros Hle; simpl.
  - repeat constructor.
  - inversion Hle; subst. constructor; [now apply IH |].
    apply Forall_app. split; [exact Hs | now constructor].
Qed.

Lemma frames_indexed {S DecState DecOut LMState : Type}
      (I : Z -> list (Hyp S DecState DecOut LMState) -> Prop)
      (body : list (Hyp S DecState DecOut LMState) -> Z
              -> Outcome (list (Hyp S DecState DecOut LMState))) :
  (forall kept t out, I t kept -> body kept t = Returns out -> I (t + 1) out) ->
  forall n a kept out,
    I (Z.of_nat a) kept ->
    frames body (map Z.of_nat (seq a n)) kept = Returns out ->
    I (Z.of_nat (a + n)) out.
Proof.
  intros Hbody n. induction n as [| n' IH]; simpl; intros a kept out HI H.
  - inversion H; subst. now rewrite Nat.add_0_r.
  - destruct (body kept (Z.of_nat a)) as [k' | |] eqn:E; try discriminate.
    replace (a + Datatypes.S n')%nat with (Datatypes.S a + n')%nat by lia.
    eapply IH; [| exact H].
    replace (Z.of_nat (Datatypes.S a)) with (Z.of_nat a + 1) by lia.
    eapply Hbody; eassumption.
Qed.

Section MaesStamps.
Context {S : Type} {SC : Score S}.
Variables DecState DecOut LMState : Type.
Variable self : BeamTDTInfer S.
Variable initialize_state : DecState.
Variable score_hypothesis : Hyp S DecState DecOut LMState -> DecOut * DecState.
Variable joint : Z -> DecOut -> list S * list S.
Variable compute_ngram_score : LMState -> Z -> S * LMState.
Variable init_lm_state : LMState.

Lemma maes_frame_stamps (kept_hyps out : list (Hyp S DecState DecOut LMState))
      (t : Z) :
  Forall (fun h => StronglySorted Z.le (timestep h)
                   /\ Forall (fun s => s <= t) (timestep h)) kept_hyps ->
  maes_frame self score_hypothesis joint compute_ngram_score kept_hyps t
  = Some out ->
  Forall (fun h => StronglySorted Z.le (timestep h)
                   /\ Forall (fun s => s <= t) (timestep h)) out.
Proof.
  intros Hk H.
  eapply inv_maes_frame with
    (Q := fun (_ ts : list Z) (_ : list DecOut) (_ : Z) =>
            StronglySorted Z.le ts /\ Forall (fun s => s <= t) ts)
    (Q' := fun (_ ts : list Z) (_ : list DecOut) (_ : Z) =>
             StronglySorted Z.le ts /\ Forall (fun s => s <= t) ts);
    [| | | | | | exact H].
  - intros y ts d frame duration Hq _. exact Hq.
  - intros y ts d frame duration k [Hq1 Hq2] _. split.
    + now apply sorted_snoc.
    + apply Forall_app. split; [exact Hq2 | constructor; [lia | constructor]].
  - auto.
  - auto.
  - eapply Forall_incl; [| exact Hk]. intros x Hx.
    apply filter_In in Hx. tauto.
  - eapply Forall_incl; [| exact Hk]. intros x Hx.
    apply filter_In in Hx. tauto.
Qed.

(** In the maes search the timesteps of a hypothesis never go back: after
    frame [t] every kept hypothesis has its timesteps in non-decreasing
    order and none beyond [t]; the timesteps of a result over
    [encoded_lengths] frames are in non-decreasing order and below
    [encoded_lengths]. *)
Theorem maes_timesteps_sorted :
  (forall (kept_hyps out : list (Hyp S DecState DecOut LMState)) (t : Z),
      Forall (fun h => StronglySorted Z.le (timestep h)
                       /\ Forall (fun s => s <= t) (timestep h)) kept_hyps ->
      maes_frame self score_hypothesis joint compute_ngram_score kept_hyps t
      = Some out ->
      Forall (fun h => StronglySorted Z.le (timestep h)
                       /\ Forall (fun s => s <= t) (timestep h)) out)
  /\ (forall encoded_lengths nbest_hyps,
        0 <= encoded_lengths ->
        modified_adaptive_expansion_search self initialize_state
          score_hypothesis joint compute_ngram_score init_lm_state
          encoded_lengths = Returns nbest_hyps ->
        Forall (fun h => StronglySorted Z.le (timestep h)
                         /\ Forall (fun s => s < encoded_lengths) (timestep h))
               nbest_hyps).
Proof.
  split; [apply maes_frame_stamps |].
  intros T nbest HT. unfold modified_adaptive_expansion_search, range.
  destruct (frames _ _ _) as [kept | |] eqn:E; simpl; try discriminate.
  intros H. inversion H; subst.
  eapply Forall_incl; [intros x; apply Permutation_in, sort_nbest_perm |].
  apply (frames_indexed
           (fun t (l : list (Hyp S DecState DecOut LMState)) =>
              Forall (fun h => StronglySorted Z.le (timestep h)
                               /\ Forall (fun s => s < t) (timestep h)) l))
    in E.
  - simpl in E. rewrite Z2Nat.id in E by exact HT. exact E.
  - intros k t out Hk Hf.
    destruct (maes_frame self score_hypothesis joint compute_ngram_score k t)
      as [k' |] eqn:Ek; [| discriminate].
    inversion Hf; subst.
    assert (Hout : Forall (fun h => StronglySorted Z.le (timestep h)
                                    /\ Forall (fun s => s <= t) (timestep h))
                          out).
    { eapply maes_frame_stamps; [| exact Ek].
      eapply Forall_impl; [| exact Hk]. intros h [H1 H2].
      split; [exact H1 |]. eapply Forall_impl; [| exact H2].
      intros s Hs. simpl in Hs. lia. }
    eapply Forall_impl; [| exact Hout]. intros h [H1 H2].
    split; [exact H1 |]. eapply Forall_impl; [| exact H2].
    intros s Hs. simpl in Hs. lia.
  - simpl. constructor; [| constructor].
    unfold maes_start_hyp. destruct (score_hypothesis _). simpl.
    split; repeat constructor.
Qed.
End MaesStamps.

Section DefaultStamps.
Context {S : Type} {SC : Score S}.
Variables DecState DecOut LMState : Type.
Variable self : BeamTDTInfer S.
Variable initialize_state : DecState.
Variable score_hypothesis : Hyp S DecState DecOut LMState -> DecOut * DecState.
Variable joint : Z -> DecOut -> list S * list S.

Hypothesis durations_nonneg : Forall (fun d => 0 <= d) (durations self).

Let stamped (h : Hyp S DecState DecOut LMState) : Prop :=
  StronglySorted Z.le (timestep h)
  /\ Forall (fun s => s <= last_frame h) (timestep h).

Let stamped_now (t : Z) (h : Hyp S DecState DecOut LMState) : Prop :=
  stamped h /\ last_frame h = t.

Lemma stamped_nonblank_loop (time_idx encoded_lengths : Z)
      (max_hyp : Hyp S DecState DecOut LMState) (decoder_state : DecState)
      (logp_topk_idxs durations_logp_topk_idxs : list nat)
      (pairs : list (S * nat)) :
  stamped_now time_idx max_hyp ->
  forall hyps kept_hyps hyps' kept_hyps',
    Forall (stamped_now time_idx) hyps -> Forall stamped kept_hyps ->
    nonblank_loop self time_idx encoded_lengths max_hyp decoder_state
                  logp_topk_idxs durations_logp_topk_idxs pairs hyps kept_hyps
    = Some (hyps', kept_hyps') ->
    Forall (stamped_now time_idx) hyps' /\ Forall stamped kept_hyps'.
Proof.
  intros [[Hs Hb] Hlf].
  induction pairs as [| [sum_logp_topk sum_logp_topk_idx] pairs' IH]; simpl;
    intros hyps kept hyps' kept' Hh Hk H.
  - inversion H; subst. auto.
  - bind_as H [new_hyp duration].
    assert (Hnew : stamped new_hyp
                   /\ last_frame new_hyp = time_idx + duration).
    { unfold nonblank_child in E.
      bind_as E didx. bind_as E d. bind_as E token.
      inversion E; subst. unfold stamped. simpl.
      assert (Hd : 0 <= duration).
      { pose proof durations_nonneg as Hnn. rewrite Forall_forall in Hnn.
        apply Hnn. eapply nth_error_In. eassumption. }
      split; [| reflexivity]. split.
      - apply sorted_snoc; [exact Hs |].
        eapply Forall_impl; [| exact Hb]. intros stamp Hle. simpl in Hle. lia.
      - apply Forall_app. split.
        + eapply Forall_impl; [| exact Hb]. intros stamp Hle. simpl in Hle. lia.
        + constructor; [lia | constructor]. }
    destruct Hnew as [Hn1 Hn2].
    destruct (Z.eqb_spec duration 0) as [Hz | Hz].
    + eapply IH; [| | exact H]; auto.
      apply Forall_app. split; [exact Hh |].
      constructor; [| constructor]. split; [exact Hn1 | lia].
    + eapply IH; [| | exact H]; auto.
      apply Forall_app. split; [exact Hk | now constructor].
Qed.

Lemma stamped_blank_loop (encoded_lengths : Z)
      (max_hyp : Hyp S DecState DecOut LMState)
      (logp durations_logp : list S) (topk_size : nat) (idxs : list nat) :
  stamped max_hyp ->
  forall kept_hyps kept_hyps',
    Forall stamped kept_hyps ->
    blank_loop self encoded_lengths max_hyp logp durations_logp topk_size
               idxs kept_hyps = Some kept_hyps' ->
    Forall stamped kept_hyps'.
Proof.
  intros [Hs Hb]. induction idxs as [| duration_idx idxs' IH]; simpl;
    intros kept kept' Hk H.
  - inversion H; subst. exact Hk.
  - destruct (blank_duration_idx self topk_size duration_idx) as [j |].
    + bind_as H new_hyp. eapply IH; [| exact H].
      apply Forall_app. split; [exact Hk |]. constructor; [| constructor].
      unfold blank_child in E. bind_as E duration. do 2 bind_inv E.
      inversion E; subst. unfold stamped. simpl.
      assert (Hd : 0 <= duration).
      { pose proof durations_nonneg as Hnn. rewrite Forall_forall in Hnn.
        apply Hnn. eapply nth_error_In. eassumption. }
      split; [exact Hs |].
      eapply Forall_impl; [| exact Hb]. intros stamp Hle. simpl in Hle. lia.
    + eapply IH; eassumption.
Qed.

Lemma stamped_default_expand (time_idx encoded_lengths : Z)
      (hyps kept_hyps hyps' kept_hyps' : list (Hyp S DecState DecOut LMState))
      (stop : bool) :
  Forall (stamped_now time_idx) hyps -> Forall stamped kept_hyps ->
  default_expand self score_hypothesis joint time_idx encoded_lengths
                 hyps kept_hyps = Some (hyps', kept_hyps', stop) ->
  Forall (stamped_now time_idx) hyps' /\ Forall stamped kept_hyps'.
Proof.
  intros Hh Hk. unfold default_expand. intros H.
  bind_as H max_hyp.
  assert (Hmax : stamped_now time_idx max_hyp).
  { rewrite Forall_forall in Hh. apply Hh. eapply max_by_In. eassumption. }
  assert (Hrest : Forall (stamped_now time_idx)
                         (remove_max (key_asc score) hyps)).
  { eapply Forall_incl; [| exact Hh]. intros x Hx.
    eapply Permutation_in; [symmetry; eapply remove_max_perm; eassumption |].
    now right. }
  destruct (score_hypothesis max_hyp) as [decoder_output decoder_state].
  destruct (joint time_idx decoder_output) as [logp durations_logp].
  bind_as H [logp_topks logp_topk_idxs].
  bind_as H [durations_logp_topks durations_logp_topk_idxs].
  bind_as H [sum_logp_topks sum_logp_topk_idxs].
  bind_as H [hyps1 kept1].
  bind_as H kept2.
  destruct (termination_check self hyps1 (remove_duplicate_hypotheses kept2))
    as [k st] eqn:Et.
  inversion H; subst hyps' kept_hyps' stop.
  match goal with
  | Hn : nonblank_loop _ _ _ _ _ _ _ _ _ _ = Some _ |- _ =>
      eapply stamped_nonblank_loop in Hn;
        [destruct Hn as [Hh1 Hk1] | exact Hmax | exact Hrest | exact Hk]
  end.
  split; [exact Hh1 |].
  match goal with
  | Hb : blank_loop _ _ _ _ _ _ _ _ = Some _ |- _ =>
      eapply stamped_blank_loop in Hb;
        [rename Hb into Hk2 | exact (proj1 Hmax) | exact Hk1]
  end.
  eapply Forall_incl; [| exact Hk2].
  intros x Hx. apply remove_duplicate_hypotheses_incl.
  eapply termination_check_subset; eassumption.
Qed.

Lemma stamped_default_while (fuel : nat) :
  forall time_idx encoded_lengths
         (hyps kept_hyps out : list (Hyp S DecState DecOut LMState))
         (stopped : bool),
    Forall (stamped_now time_idx) hyps -> Forall stamped kept_hyps ->
    default_while self score_hypothesis joint fuel time_idx encoded_lengths
                  hyps kept_hyps = Returns (out, stopped) ->
    Forall stamped out.
Proof.
  induction fuel as [| fuel' IH]; intros t L hyps kept out stopped Hh Hk H.
  - destruct hyps; simpl in H; [| discriminate]. inversion H; subst. exact Hk.
  - destruct hyps as [| h hs]; simpl in H.
    { inversion H; subst. exact Hk. }
    destruct (default_expand self score_hypothesis joint t L (h :: hs) kept)
      as [[[hyps' kept'] stop] |] eqn:E; [| discriminate].
    apply stamped_default_expand in E; auto. destruct E as [Hh' Hk'].
    destruct stop.
    + inversion H; subst. exact Hk'.
    + eapply IH; [| | exact H]; assumption.
Qed.

(** With non-negative durations the timesteps of a hypothesis of the
    default search never go back: every hypothesis of the result has its
    timesteps in non-decreasing order, none beyond its [last_frame]. *)
Theorem default_timesteps_sorted :
  forall (fuel : nat) (encoded_lengths : Z)
         (nbest_hyps : list (Hyp S DecState DecOut LMState)),
    default_beam_search self initialize_state score_hypothesis joint
                        fuel encoded_lengths = Returns nbest_hyps ->
    Forall (fun h => StronglySorted Z.le (timestep h)
                     /\ Forall (fun s => s <= last_frame h) (timestep h))
           nbest_hyps.
Proof.
  intros fuel T nbest. unfold default_beam_search.
  destruct (frames _ _ _) as [kept | |] eqn:E; simpl; try discriminate.
  intros H. inversion H; subst.
  eapply Forall_incl; [intros x; apply Permutation_in, sort_nbest_perm |].
  revert E.
  apply (frames_invariant (Forall stamped)).
  - intros k t out Hk. unfold default_frame.
    destruct (default_while _ _ _ _ _ _ _ _) as [[o st] | |] eqn:Ew;
      simpl; try discriminate.
    intros Hf. inversion Hf; subst.
    eapply stamped_default_while; [| | exact Ew].
    + apply Forall_forall. intros x Hx. apply filter_In in Hx.
      destruct Hx as [Hx Hlf]. rewrite Forall_forall in Hk.
      split; [now apply Hk | now apply Z.eqb_eq].
    + eapply Forall_incl; [| exact Hk]. intros x Hx.
      apply filter_In in Hx. tauto.
  - constructor; [| constructor]. unfold stamped. simpl.
    split; repeat constructor. discriminate.
Qed.
End DefaultStamps.

(** ** The default search keeps a hypothesis *)

Lemma firstn_NoDup {A} (n : nat) (l : list A) : NoDup l -> NoDup (firstn n l).
Proof.
  intros H. rewrite <- (firstn_skipn n l) in H.
  now apply NoDup_app_remove_r in H.
Qed.

Lemma combine_seq_snd {A} (l : list A) (a : nat) :
  map snd (combine l (seq a (length l))) = seq a (length l).
Proof.
  revert a. induction l as [| x r IH]; intros a; simpl; [reflexivity |].
  now rewrite IH.
Qed.

Lemma topk_idxs_NoDup {S} `{Score S} (k : Z) (l : list S)
      (vals : list S) (idxs : list nat) :
  topk k l = Some (vals, idxs) ->
  NoDup idxs /\ length idxs = Z.to_nat k.
Proof.
  unfold topk.
  destruct (Z.leb_spec 0 k); simpl; [| discriminate].
  destruct (Z.leb_spec k (Z.of_nat (length l))); [| discriminate].
  intros Heq. inversion Heq; subst. split.
  - rewrite <- firstn_map. apply firstn_NoDup.
    eapply Permutation_NoDup.
    + apply Permutation_map. symmetry. apply sorted_by_perm.
    + rewrite combine_seq_snd. apply seq_NoDup.
  - rewrite length_map, length_firstn, sorted_by_length, length_combine,
      length_seq. lia.
Qed.

Section DefaultKeeps.
Context {S : Type} {SC : Score S}.
Variables DecState DecOut LMState : Type.
Variable self : BeamTDTInfer S.
Variable initialize_state : DecState.
Variable score_hypothesis : Hyp S DecState DecOut LMState -> DecOut * DecState.
Variable joint : Z -> DecOut -> list S * list S.

Hypothesis beam_positive : 1 <= beam self.
Hypothesis durations_nonempty : durations self <> [].

Lemma blank_loop_grows (encoded_lengths : Z)
      (max_hyp : Hyp S DecState DecOut LMState)
      (logp durations_logp : list S) (topk_size : nat) (idxs : list nat) :
  forall kept_hyps kept_hyps',
    blank_loop self encoded_lengths max_hyp logp durations_logp topk_size
               idxs kept_hyps = Some kept_hyps' ->
    kept_hyps <> []
    \/ Exists (fun i => blank_duration_idx self topk_size i <> None) idxs ->
    kept_hyps' <> [].
Proof.
  induction idxs as [| duration_idx idxs' IH]; simpl; intros kept kept' H Hor.
  - inversion H; subst. destruct Hor as [Hk | Hex]; [exact Hk |].
    inversion Hex.
  - destruct (blank_duration_idx self topk_size duration_idx) as [j |] eqn:Ej.
    + bind_as H new_hyp. eapply IH; [exact H |]. left.
      destruct kept; discriminate.
    + eapply IH; [exact H |]. destruct Hor as [Hk | Hex]; [now left |].
      inversion Hex; subst; [congruence | now right].
Qed.

Lemma blank_duration_idx_some (idxs : list nat) :
  NoDup idxs -> idxs <> [] ->
  Exists (fun i => blank_duration_idx self (length idxs) i <> None) idxs.
Proof.
  intros Hnd Hne.
  destruct idxs as [| i [| j r]]; [congruence | |].
  - left. unfold blank_duration_idx. simpl.
    destruct (is_zero_idx self i); discriminate.
  - destruct (is_zero_idx self i) eqn:Hi.
    + right. left. unfold blank_duration_idx.
      destruct (is_zero_idx self j) eqn:Hj; [| discriminate].
      exfalso. unfold is_zero_idx in Hi, Hj.
      destruct (zero_duration_idx self) as [z |]; [| discriminate].
      apply Nat.eqb_eq in Hi, Hj. subst.
      inversion Hnd as [| x l Hin _]; subst. apply Hin. now left.
    + left. unfold blank_duration_idx. rewrite Hi. discriminate.
Qed.

Lemma termination_check_nonempty
      (hyps kept_hyps : list (Hyp S DecState DecOut LMState)) :
  kept_hyps <> [] -> fst (termination_check self hyps kept_hyps) <> [].
Proof.
  intros Hk. unfold termination_check.
  destruct (max_by (key_asc score) hyps) as [best |].
  - match goal with
    | |- fst (if ?c then _ else _) <> _ => destruct c eqn:Hc
    end; simpl; [| exact Hk].
    apply Z.leb_le in Hc. intros Hnil. rewrite Hnil in Hc. simpl in Hc. lia.
  - simpl. rewrite py_take_firstn by lia.
    destruct (sorted_by (key_desc score) kept_hyps) as [| x r] eqn:Es.
    + exfalso. apply Hk. apply length_zero_iff_nil.
      rewrite <- (sorted_by_length (key_desc score)), Es. reflexivity.
    + destruct (Z.to_nat (beam self)) eqn:Eb; [lia | discriminate].
Qed.

Lemma default_expand_keeps (time_idx encoded_lengths : Z)
      (hyps kept_hyps hyps' kept_hyps' : list (Hyp S DecState DecOut LMState))
      (stop : bool) :
  default_expand self score_hypothesis joint time_idx encoded_lengths
                 hyps kept_hyps = Some (hyps', kept_hyps', stop) ->
  kept_hyps' <> [].
Proof.
  unfold default_expand. intros H.
  bind_as H max_hyp.
  destruct (score_hypothesis max_hyp) as [decoder_output decoder_state].
  destruct (joint time_idx decoder_output) as [logp durations_logp].
  bind_as H [logp_topks logp_topk_idxs].
  bind_as H [durations_logp_topks durations_logp_topk_idxs].
  bind_as H [sum_logp_topks sum_logp_topk_idxs].
  bind_as H [hyps1 kept1].
  bind_as H kept2.
  pose proof (termination_check_nonempty hyps1
                (kept_hyps := remove_duplicate_hypotheses kept2)) as Hne.
  destruct (termination_check self hyps1 (remove_duplicate_hypotheses kept2))
    as [k st] eqn:Et.
  inversion H; subst hyps' kept_hyps' stop. simpl in Hne. apply Hne.
  apply remove_duplicate_hypotheses_nonempty.
  match goal with
  | Hb : blank_loop _ _ _ _ _ _ _ _ = Some _ |- _ =>
      eapply blank_loop_grows; [exact Hb |]
  end.
  right.
  match goal with
  | Ht : topk (durations_beam_k self) _ = Some _ |- _ =>
      apply topk_idxs_NoDup in Ht; destruct Ht as [Hnd Hlen]
  end.
  apply blank_duration_idx_some; [exact Hnd |].
  intros Hnil. rewrite Hnil in Hlen. simpl in Hlen.
  assert (1 <= durations_beam_k self).
  { unfold durations_beam_k.
    destruct (durations self); [congruence | simpl length; lia]. }
  lia.
Qed.

Lemma default_while_keeps (fuel : nat) :
  forall time_idx encoded_lengths
         (hyps kept_hyps out : list (Hyp S DecState DecOut LMState))
         (stopped : bool),
    hyps <> [] \/ kept_hyps <> [] ->
    default_while self score_hypothesis joint fuel time_idx encoded_lengths
                  hyps kept_hyps = Returns (out, stopped) ->
    out <> [].
Proof.
  induction fuel as [| fuel' IH]; intros t L hyps kept out stopped Hor H.
  - destruct hyps; simpl in H; [| discriminate]. inversion H; subst.
    destruct Hor; [congruence | assumption].
  - destruct hyps as [| h hs]; simpl in H.
    { inversion H; subst. destruct Hor; [congruence | assumption]. }
    destruct (default_expand self score_hypothesis joint t L (h :: hs) kept)
      as [[[hyps' kept'] stop] |] eqn:E; [| discriminate].
    apply default_expand_keeps in E.
    destruct stop.
    + inversion H; subst. exact E.
    + eapply IH; [| exact H]. now right.
Qed.

Lemma default_frame_keeps (fuel : nat) (encoded_lengths time_idx : Z)
      (kept_hyps out : list (Hyp S DecState DecOut LMState)) :
  kept_hyps <> [] ->
  Forall (fun h => time_idx <= last_frame h) kept_hyps ->
  default_frame self score_hypothesis joint fuel encoded_lengths kept_hyps
                time_idx = Returns out ->
  out <> [].
Proof.
  intros Hne Hge. unfold default_frame.
  destruct (default_while _ _ _ _ _ _ _ _) as [[o st] | |] eqn:E;
    simpl; try discriminate.
  intros H. inversion H; subst.
  eapply default_while_keeps; [| exact E].
  destruct kept_hyps as [| x r]; [congruence |].
  inversion Hge as [| x0 r0 Hx _]; subst.
  destruct (Z.eq_dec (last_frame x) time_idx) as [Heq | Hneq].
  - left. simpl. apply Z.eqb_eq in Heq. rewrite Heq. discriminate.
  - right. simpl.
    assert (Hlt : (time_idx <? last_frame x) = true) by (apply Z.ltb_lt; lia).
    rewrite Hlt. discriminate.
Qed.

Hypothesis zero_idx_first :
  zero_duration_idx self = index_of_zero (durations self).
Hypothesis min_idx_least :
  exists v, argmin_nonzero (durations self)
            = Some (min_non_zero_duration_idx self, v).
Hypothesis table_plain : plain_durations (durations self).

Lemma default_beam_search_keeps (fuel : nat) (encoded_lengths : Z)
      (nbest_hyps : list (Hyp S DecState DecOut LMState)) :
  default_beam_search self initialize_state score_hypothesis joint
                      fuel encoded_lengths = Returns nbest_hyps ->
  nbest_hyps <> [].
Proof.
  unfold default_beam_search, range.
  destruct (frames _ _ _) as [kept | |] eqn:E; simpl; try discriminate.
  intros H. inversion H; subst.
  apply (frames_indexed
           (fun t (l : list (Hyp S DecState DecOut LMState)) =>
              l <> [] /\ Forall (fun h => t <= last_frame h) l)) in E.
  - destruct E as [Hne _]. intros Hnil. apply Hne.
    apply length_zero_iff_nil.
    rewrite <- (Permutation_length (sort_nbest_perm self kept)), Hnil.
    reflexivity.
  - intros k t out [Hne Hge] Hf. split.
    + eapply default_frame_keeps; [exact Hne | exact Hge | exact Hf].
    + eapply Forall_impl;
        [| eapply progress_default_frame;
           [exact zero_idx_first | exact min_idx_least | exact table_plain
            | exact Hf]].
      intros h Hh. simpl in Hh. lia.
  - split; [discriminate |]. constructor; [simpl; lia | constructor].
Qed.
End DefaultKeeps.

(** For a decoder built by the constructor over a table of distinct
    non-negative durations below the largest [int64], with a non-zero
    one, and a vocabulary of at least one token, the default search never
    returns an empty N-best list: a best hypothesis exists. *)
Theorem default_search_result_nonempty :
  forall (S : Type) (SC : Score S) (DecState DecOut LMState : Type)
         (KENLM_AVAILABLE : bool) (model_loads : string -> bool)
         (a : InitArgs S) (self : BeamTDTInfer S)
         (initialize_state : DecState)
         (score_hypothesis : Hyp S DecState DecOut LMState -> DecOut * DecState)
         (joint : Z -> DecOut -> list S * list S)
         (fuel : nat) (encoded_lengths : Z)
         (nbest_hyps : list (Hyp S DecState DecOut LMState)),
    init KENLM_AVAILABLE model_loads a = inr self ->
    plain_durations (arg_durations a) ->
    1 <= arg_vocab_size a ->
    default_beam_search self initialize_state score_hypothesis joint
                        fuel encoded_lengths = Returns nbest_hyps ->
    nbest_hyps <> [].
Proof.
  intros S SC DecState DecOut LMState K loads a self initialize_state
         score_hypothesis joint fuel L nbest Hinit Hplain Hvocab.
  destruct (init_fields _ _ _ Hinit) as (HD & _ & HV & Hbs & Hb1 & _ & Hz & Hm).
  rewrite <- HD in Hz, Hm, Hplain.
  assert (Hbeam : 1 <= beam self) by (unfold beam; lia).
  assert (Hdne : durations self <> []).
  { destruct Hplain as (_ & _ & d & Hd & _). intros Hnil.
    rewrite Hnil in Hd. exact Hd. }
  eapply default_beam_search_keeps;
    [exact Hbeam | exact Hdne | exact Hz | exact Hm | exact Hplain].
Qed.

(** ** Calls with the default search *)

Section CallDefault.
Context {S : Type} {SC : Score S}.
Variables DecState DecOut LMState : Type.
Variable self : BeamTDTInfer S.
Variable initialize_state : DecState.
Variable score_hypothesis : Hyp S DecState DecOut LMState -> DecOut * DecState.
Variable compute_ngram_score : LMState -> Z -> S * LMState.
Variable init_lm_state : LMState.
Variable pack_hypotheses :
  list (Hyp S DecState DecOut LMState) -> list (Hyp S DecState DecOut LMState).

Lemma decode_batch_never_raises (fuel : nat)
      (batch : list (@Sample S DecOut)) :
  Forall (fun x =>
            decode_sample self initialize_state score_hypothesis
                          compute_ngram_score init_lm_state pack_hypotheses
                          fuel x <> Raises) batch ->
  decode_batch self initialize_state score_hypothesis compute_ngram_score
               init_lm_state pack_hypotheses fuel batch <> Raises.
Proof.
  induction 1 as [| x batch' Hx _ IH]; simpl; [discriminate |].
  destruct (decode_sample _ _ _ _ _ _ _ x) as [p | |];
    [| congruence | discriminate].
  destruct (decode_batch _ _ _ _ _ _ _ batch') as [ps | |]; simpl;
    [discriminate | congruence | discriminate].
Qed.
End CallDefault.

(** A call with the default search raises nothing.  For a decoder the
    constructor accepts for ['default'] with a beam wider than one, over
    a table of distinct non-negative durations below the largest [int64],
    with a non-zero one, and a vocabulary of at least one token, when
    every utterance of the batch
    comes with at least [vocab_size] token log-probabilities, the blank
    id among their positions, and one duration log-probability per
    duration, and packing keeps a non-empty list non-empty: the outcome
    is a list of results, or the [while] loop of some frame was still
    running when the fuel ran out. *)
Theorem call_default_never_raises :
  forall (S : Type) (SC : Score S) (DecState DecOut LMState : Type)
         (KENLM_AVAILABLE : bool) (model_loads : string -> bool)
         (a : InitArgs S) (self : BeamTDTInfer S)
         (initialize_state : DecState)
         (score_hypothesis : Hyp S DecState DecOut LMState -> DecOut * DecState)
         (compute_ngram_score : LMState -> Z -> S * LMState)
         (init_lm_state : LMState)
         (pack_hypotheses : list (Hyp S DecState DecOut LMState)
                            -> list (Hyp S DecState DecOut LMState))
         (fuel : nat) (m : Modules) (batch : list (@Sample S DecOut)),
    init KENLM_AVAILABLE model_loads a = inr self ->
    arg_search_type a = "default"%string ->
    arg_beam_size a <> 1 ->
    plain_durations (arg_durations a) ->
    1 <= arg_vocab_size a ->
    (forall l, l <> [] -> pack_hypotheses l <> []) ->
    Forall (fun x =>
              forall t d,
                arg_vocab_size a <= Z.of_nat (length (fst (sample_joint x t d)))
                /\ - Z.of_nat (length (fst (sample_joint x t d)))
                   <= arg_blank_idx a
                   < Z.of_nat (length (fst (sample_joint x t d)))
                /\ length (snd (sample_joint x t d))
                   = length (arg_durations a)) batch ->
    fst (call self initialize_state score_hypothesis compute_ngram_score
              init_lm_state pack_hypotheses fuel m batch) <> Raises.
Proof.
  intros S SC DecState DecOut LMState K loads a self initialize_state
         score_hypothesis compute_ngram_score init_lm_state pack_hypotheses
         fuel m batch Hinit Htype Hbeam Hplain Hvocab Hpack Hbatch.
  destruct (init_fields _ _ _ Hinit) as (HD & HB & HV & Hbs & Hb1 & Hs & Hz & Hm).
  destruct (init_search_fields _ _ _ Hinit) as (_ & _ & _ & _ & _ & Hmin & _).
  assert (Hplain' : plain_durations (durations self))
    by (rewrite HD; exact Hplain).
  rewrite <- HD in Hz, Hm.
  assert (Halg : search_algorithm self = DefaultBeamSearch).
  { rewrite Htype in Hs. unfold choose_search in Hs.
    destruct (Z.eqb_spec (arg_beam_size a) 1); [contradiction |].
    simpl in Hs. now inversion Hs. }
  assert (Hcall : fst (call self initialize_state score_hypothesis
                            compute_ngram_score init_lm_state pack_hypotheses
                            fuel m batch)
                  = decode_batch self initialize_state score_hypothesis
                                 compute_ngram_score init_lm_state
                                 pack_hypotheses fuel batch).
  { unfold call. destruct (decode_batch _ _ _ _ _ _ _ batch); reflexivity. }
  rewrite Hcall. apply decode_batch_never_raises.
  eapply Forall_impl; [| exact Hbatch].
  intros x Hx. unfold decode_sample, run_search. rewrite Halg.
  assert (Hnr : default_beam_search self initialize_state score_hypothesis
                                    (sample_joint x) fuel (logitlen x)
                <> Raises).
  { apply default_beam_search_never_raises.
    - rewrite Hbs. exact Hb1.
    - rewrite HV. exact Hvocab.
    - intros t d. rewrite HV. apply Hx.
    - intros t d. rewrite HB. apply Hx.
    - intros t d. rewrite HD. apply Hx.
    - exact Hmin. }
  assert (Hne : forall nbest,
             default_beam_search self initialize_state score_hypothesis
                                 (sample_joint x) fuel (logitlen x)
             = Returns nbest -> nbest <> []).
  { intros nbest. apply default_beam_search_keeps; auto.
    - unfold beam. lia.
    - destruct Hplain' as (_ & _ & d & Hd & _). intros Hnil.
      rewrite Hnil in Hd. exact Hd. }
  destruct (default_beam_search self initialize_state score_hypothesis
                                (sample_joint x) fuel (logitlen x))
    as [nbest | |]; [| congruence | discriminate].
  destruct (return_best_hypothesis self); [| discriminate].
  specialize (Hne nbest eq_refl). apply Hpack in Hne.
  destruct (pack_hypotheses nbest); [congruence | discriminate].
Qed.

(** ** Concrete runs *)

Lemma keep_best_optimal_witness :
  0 <= beam Examples.maes3
  /\ exists dropped,
       remove_duplicate_hypotheses Examples.future3
       = keep_best Examples.maes3 Examples.future3 ++ dropped
       /\ length (keep_best Examples.maes3 Examples.future3)
          = Nat.min (Z.to_nat (beam Examples.maes3))
                    (length (remove_duplicate_hypotheses Examples.future3))
       /\ forall x y, In x (keep_best Examples.maes3 Examples.future3) ->
                      In y dropped -> s_leb (score y) (score x) = true.
Proof.
  assert (Hb : 0 <= beam Examples.maes3) by (vm_compute; discriminate).
  split; [exact Hb |].
  exact (keep_best_optimal Examples.maes3 Examples.future3 Hb).
Defined.

Lemma termination_check_exhausted_witness :
  0 <= beam Examples.default3
  /\ exists out dropped,
       termination_check Examples.default3 [] Examples.future3 = (out, false)
       /\ Permutation Examples.future3 (out ++ dropped)
       /\ length out = Nat.min (Z.to_nat (beam Examples.default3))
                               (length Examples.future3)
       /\ StronglySorted (fun a b => s_leb (score b) (score a) = true) out
       /\ forall x y, In x out -> In y dropped ->
                      s_leb (score y) (score x) = true.
Proof.
  assert (Hb : 0 <= beam Examples.default3) by (vm_compute; discriminate).
  split; [exact Hb |].
  exact (termination_check_exhausted Examples.default3 Examples.future3 Hb).
Defined.

Lemma init_duration_indices_witness :
  init true Examples.every_model_loads Examples.args_default3
  = inr Examples.default3
  /\ int64_table (arg_durations Examples.args_default3)
  /\ nth_error (durations Examples.default3) 0 = Some 0
  /\ exists least,
       nth_error (durations Examples.default3)
                 (min_non_zero_duration_idx Examples.default3) = Some least
       /\ least <> 0
       /\ forall d, In d (durations Examples.default3) -> d <> 0 -> least <= d.
Proof.
  assert (Hi : init true Examples.every_model_loads Examples.args_default3
               = inr Examples.default3) by reflexivity.
  assert (Ht : int64_table (arg_durations Examples.args_default3)).
  { apply Forall_forall. intros d Hd. simpl in Hd.
    unfold int64_min, int64_max. lia. }
  split; [exact Hi |]. split; [exact Ht |].
  destruct (init_duration_indices true Examples.every_model_loads
                                  Examples.args_default3 Hi Ht)
    as (Hz & _ & _ & Hm & _).
  split.
  - apply (Hz 0%nat). reflexivity.
  - apply Hm.
    + apply Forall_forall. intros d Hd. simpl in Hd. unfold int64_max. lia.
    + exists 1. split; [simpl; tauto | discriminate].
Defined.

Lemma default_frame_advances_witness :
  init true Examples.every_model_loads Examples.args_default3 = inr Examples.default3
  /\ plain_durations (arg_durations Examples.args_default3)
  /\ exists out,
       default_frame Examples.default3 Examples.no_decoder Examples.joint_flat
                     5 1 [default_start_hyp unit unit Examples.default3 tt] 0
       = Returns out
       /\ Forall (fun h => 0 < last_frame h) out.
Proof.
  assert (Hi : init true Examples.every_model_loads Examples.args_default3 = inr Examples.default3)
    by reflexivity.
  assert (Hp : plain_durations (arg_durations Examples.args_default3)).
  { split; [| split].
    - apply Forall_forall. intros d Hd. simpl in Hd. unfold int64_max. lia.
    - repeat constructor; simpl; intuition discriminate.
    - exists 1. split; [simpl; tauto | discriminate]. }
  split; [exact Hi |]. split; [exact Hp |].
  eexists. split; [vm_compute; reflexivity |].
  eapply default_frame_advances with
    (a := Examples.args_default3) (self := Examples.default3)
    (score_hypothesis := Examples.no_decoder) (joint := Examples.joint_flat)
    (fuel := 5%nat) (encoded_lengths := 1)
    (kept_hyps := [default_start_hyp unit unit Examples.default3 tt]);
    [exact Hi | exact Hp | vm_compute; reflexivity].
Defined.

Lemma maes_hypotheses_shaped_witness :
  exists nbest_hyps,
    modified_adaptive_expansion_search Examples.maes3 tt Examples.no_decoder
      Examples.joint_blank Examples.no_lm tt 1 = Returns nbest_hyps
    /\ Forall (fun h => aligned h /\ cached h) nbest_hyps.
Proof.
  eexists. split; [vm_compute; reflexivity |].
  eapply (proj2 (maes_hypotheses_shaped Examples.maes3 tt Examples.no_decoder
                                        Examples.joint_blank Examples.no_lm tt))
    with (encoded_lengths := 1).
  vm_compute. reflexivity.
Defined.

Lemma maes_frame_not_backwards_witness :
  Forall (fun d => 0 <= d) (durations Examples.maes3)
  /\ exists out,
       maes_frame Examples.maes3 Examples.no_decoder Examples.joint_blank
                  Examples.no_lm [Examples.maes_start] 0 = Some out
       /\ Forall (fun h => 0 <= last_frame h) out.
Proof.
  assert (Hd : Forall (fun d => 0 <= d) (durations Examples.maes3))
    by (repeat constructor; discriminate).
  split; [exact Hd |].
  eexists. split; [vm_compute; reflexivity |].
  eapply maes_frame_not_backwards with
    (self := Examples.maes3) (score_hypothesis := Examples.no_decoder)
    (joint := Examples.joint_blank) (compute_ngram_score := Examples.no_lm)
    (kept_hyps := [Examples.maes_start]);
    [exact Hd | vm_compute; reflexivity].
Defined.

Lemma default_hypotheses_aligned_witness :
  exists nbest_hyps,
    default_beam_search Examples.default3 tt Examples.no_decoder
                        Examples.joint_flat 5 1 = Returns nbest_hyps
    /\ Forall aligned nbest_hyps.
Proof.
  eexists. split; [vm_compute; reflexivity |].
  eapply (proj2 (default_hypotheses_aligned
                   (LMState := unit) Examples.default3 tt Examples.no_decoder
                   Examples.joint_flat))
    with (fuel := 5%nat) (encoded_lengths := 1).
  vm_compute. reflexivity.
Defined.

Lemma compute_ngram_score_natural_log_witness :
  exists word log10_score,
    NgramLM.word_of 0 7 = Some word
    /\ Examples.flat_lm tt word = (log10_score, tt)
    /\ (-1 * (1 / NgramLM.log10 (exp 1)))%R = (log10_score * ln 10)%R.
Proof.
  apply compute_ngram_score_natural_log with
    (BaseScore := Examples.flat_lm) (token_offset := 0)
    (current_lm_state := tt) (label := 7).
  reflexivity.
Defined.

Lemma word_of_labels_witness :
  NgramLM.word_of 100 5 = Some (NgramLM.Chr 105).
Proof.
  destruct (word_of_labels 100) as (_ & Hchr & _).
  apply (Hchr ltac:(discriminate) 5). split; [discriminate | reflexivity].
Defined.

Lemma beam_size_one_call_raises_witness :
  init true Examples.every_model_loads Examples.args_greedy1 = inr Examples.greedy1
  /\ arg_beam_size Examples.args_greedy1 = 1
  /\ [Examples.one_frame] <> []
  /\ search_algorithm Examples.greedy1 = GreedySearch
  /\ call Examples.greedy1 tt Examples.no_decoder Examples.no_lm tt
          (fun l => l) 5 Examples.both_training [Examples.one_frame]
     = (Raises, mkModules false false).
Proof.
  assert (Hi : init true Examples.every_model_loads Examples.args_greedy1 = inr Examples.greedy1)
    by reflexivity.
  split; [exact Hi |]. split; [reflexivity |]. split; [discriminate |].
  eapply beam_size_one_call_raises with
    (KENLM_AVAILABLE := true)
    (model_loads := Examples.every_model_loads) (a := Examples.args_greedy1);
    [exact Hi | reflexivity | discriminate].
Defined.

Lemma select_k_expansions_durations_gamma_monotone_witness :
  (forall a : Z, s_leb (s_sub a 5) (s_sub a 2) = true)
  /\ exists k_expansions k_expansions',
       select_k_expansions_durations
         [Examples.start] [Examples.five_idxs] [Examples.five_logps]
         [[0%nat]] [[0]] 2 = Some k_expansions
       /\ select_k_expansions_durations
            [Examples.start] [Examples.five_idxs] [Examples.five_logps]
            [[0%nat]] [[0]] 5 = Some k_expansions'
       /\ Forall2 (fun row row' =>
                     incl row row' /\ (length row <= length row')%nat)
                  k_expansions k_expansions'.
Proof.
  assert (Hg : forall a : Z, s_leb (s_sub a 5) (s_sub a 2) = true)
    by (intros a; apply Z.leb_le; simpl; lia).
  split; [exact Hg |].
  eexists.
  destruct (@select_k_expansions_durations_gamma_monotone
              Z Score_Z unit unit unit
              [Examples.start] [Examples.five_idxs] [Examples.five_logps]
              [[0%nat]] [[0]] 2 5 _ Hg eq_refl) as (rows' & Hrows' & Hall).
  exists rows'. split; [reflexivity |]. split; [exact Hrows' | exact Hall].
Defined.

Lemma select_k_expansions_durations_raises_witness :
  (select_k_expansions_durations
     [Examples.start] [[]] [[]] [[0%nat]] [[0]] 5 = None
   <-> Exists (fun cands => cands = [])
              (candidate_rows [Examples.start] [[]] [[]] [[0%nat]] [[0]]))
  /\ (forall k_expansions,
         select_k_expansions_durations
           [Examples.start] [[]] [[]] [[0%nat]] [[0]] 5 = Some k_expansions ->
         length k_expansions = length [Examples.start]).
Proof.
  apply select_k_expansions_durations_raises; reflexivity.
Defined.

Lemma maes_search_returns_witness :
  init true Examples.every_model_loads Examples.args_maes3 = inr Examples.maes3
  /\ exists nbest_hyps,
       run_search Examples.maes3 tt Examples.no_decoder Examples.joint_blank
                  Examples.no_lm tt 5 1 = Returns nbest_hyps.
Proof.
  assert (Hi : init true Examples.every_model_loads Examples.args_maes3 = inr Examples.maes3)
    by reflexivity.
  split; [exact Hi |].
  eapply maes_search_returns with
    (KENLM_AVAILABLE := true)
    (model_loads := Examples.every_model_loads) (a := Examples.args_maes3) (V1 := 5%nat).
  - exact Hi.
  - reflexivity.
  - discriminate.
  - discriminate.
  - reflexivity.
  - simpl. lia.
  - intros t d. reflexivity.
  - intros t d. reflexivity.
  - simpl. lia.
  - simpl. lia.
Defined.

Lemma default_search_never_raises_witness :
  init true Examples.every_model_loads Examples.args_default3 = inr Examples.default3
  /\ default_beam_search Examples.default3 tt Examples.no_decoder
                         Examples.joint_flat 5 1 <> Raises.
Proof.
  assert (Hi : init true Examples.every_model_loads Examples.args_default3 = inr Examples.default3)
    by reflexivity.
  split; [exact Hi |].
  eapply default_search_never_raises with
    (KENLM_AVAILABLE := true)
    (model_loads := Examples.every_model_loads) (a := Examples.args_default3) (LMState := unit).
  - exact Hi.
  - simpl. lia.
  - intros t d. simpl. lia.
  - intros t d. simpl. lia.
  - intros t d. reflexivity.
Defined.

Lemma maes_single_duration_raises_witness :
  exists self,
    init true Examples.every_model_loads Examples.args_single_duration = inr self
    /\ run_search self tt Examples.no_decoder Examples.joint_single
                  Examples.no_lm tt 5 1 = Raises.
Proof.
  eexists. split; [reflexivity |].
  eapply maes_single_duration_raises with
    (KENLM_AVAILABLE := true)
    (model_loads := Examples.every_model_loads) (a := Examples.args_single_duration).
  - reflexivity.
  - reflexivity.
  - discriminate.
  - simpl. lia.
  - intros t d. reflexivity.
  - lia.
Defined.

Lemma default_search_consumes_frames_witness :
  init true Examples.every_model_loads Examples.args_default3 = inr Examples.default3
  /\ plain_durations (arg_durations Examples.args_default3)
  /\ exists nbest_hyps,
       default_beam_search Examples.default3 tt Examples.no_decoder
                           Examples.joint_flat 5 1 = Returns nbest_hyps
       /\ Forall (fun h => 1 <= last_frame h) nbest_hyps.
Proof.
  assert (Hi : init true Examples.every_model_loads Examples.args_default3 = inr Examples.default3)
    by reflexivity.
  assert (Hp : plain_durations (arg_durations Examples.args_default3)).
  { split; [| split].
    - apply Forall_forall. intros d Hd. simpl in Hd. unfold int64_max. lia.
    - repeat constructor; simpl; intuition discriminate.
    - exists 1. split; [simpl; tauto | discriminate]. }
  split; [exact Hi |]. split; [exact Hp |].
  eexists. split; [vm_compute; reflexivity |].
  eapply default_search_consumes_frames with
    (a := Examples.args_default3) (self := Examples.default3)
    (initialize_state := tt) (score_hypothesis := Examples.no_decoder)
    (joint := Examples.joint_flat) (fuel := 5%nat) (encoded_lengths := 1);
    [exact Hi | exact Hp | vm_compute; reflexivity].
Defined.

Lemma prefix_search_unchanged_witness :
  0 <= 0
  /\ prefix_search Examples.maes3 Examples.joint_blank Examples.no_lm
                   [Examples.hyp_b1; Examples.hyp_b] 0 0
     = Some [Examples.hyp_b1; Examples.hyp_b].
Proof.
  split; [lia |].
  apply (proj2 (prefix_search_unchanged Examples.maes3 Examples.joint_blank
                  Examples.no_lm 0 0 [Examples.hyp_b1; Examples.hyp_b])).
  lia.
Defined.

Lemma sort_nbest_sorted_witness :
  Forall (fun h : Examples.ZHyp => y_sequence h <> []) Examples.future3
  /\ Permutation (sort_nbest Examples.default3 Examples.future3)
                 Examples.future3
  /\ StronglySorted (fun a b => s_leb (score b) (score a) = true)
                    (sort_nbest Examples.default3 Examples.future3).
Proof.
  assert (Hy : Forall (fun h : Examples.ZHyp => y_sequence h <> [])
                      Examples.future3)
    by (repeat constructor; discriminate).
  split; [exact Hy |].
  exact (sort_nbest_sorted Examples.default3 Hy).
Defined.

Lemma maes_frame_growth_witness :
  exists out,
    maes_frame Examples.maes3 Examples.no_decoder Examples.joint_blank
               Examples.no_lm [Examples.maes_start] 0 = Some out
    /\ Forall (fun h =>
                 exists h0 ext,
                   In h0 [Examples.maes_start]
                   /\ y_sequence h = y_sequence h0 ++ ext
                   /\ timestep h = timestep h0 ++ repeat 0 (length ext)
                   /\ (length ext
                       <= Z.to_nat (maes_num_steps Examples.maes3))%nat)
              out.
Proof.
  eexists. split; [vm_compute; reflexivity |].
  eapply maes_frame_growth with
    (self := Examples.maes3) (score_hypothesis := Examples.no_decoder)
    (joint := Examples.joint_blank) (compute_ngram_score := Examples.no_lm)
    (kept_hyps := [Examples.maes_start]).
  vm_compute. reflexivity.
Defined.

Lemma maes_timesteps_sorted_witness :
  0 <= 1
  /\ exists nbest_hyps,
       modified_adaptive_expansion_search Examples.maes3 tt
         Examples.no_decoder Examples.joint_blank Examples.no_lm tt 1
       = Returns nbest_hyps
       /\ Forall (fun h => StronglySorted Z.le (timestep h)
                           /\ Forall (fun s => s < 1) (timestep h))
                 nbest_hyps.
Proof.
  split; [lia |].
  eexists. split; [vm_compute; reflexivity |].
  eapply (proj2 (maes_timesteps_sorted Examples.maes3 tt Examples.no_decoder
                                       Examples.joint_blank Examples.no_lm tt))
    with (encoded_lengths := 1); [lia | vm_compute; reflexivity].
Defined.

Lemma default_timesteps_sorted_witness :
  Forall (fun d => 0 <= d) (durations Examples.default3)
  /\ exists nbest_hyps,
       default_beam_search Examples.default3 tt Examples.no_decoder
                           Examples.joint_flat 5 1 = Returns nbest_hyps
       /\ Forall (fun h => StronglySorted Z.le (timestep h)
                           /\ Forall (fun s => s <= last_frame h)
                                     (timestep h))
                 nbest_hyps.
Proof.
  assert (Hd : Forall (fun d => 0 <= d) (durations Examples.default3))
    by (repeat constructor; discriminate).
  split; [exact Hd |].
  eexists. split; [vm_compute; reflexivity |].
  eapply default_timesteps_sorted with
    (self := Examples.default3) (initialize_state := tt)
    (score_hypothesis := Examples.no_decoder) (joint := Examples.joint_flat)
    (fuel := 5%nat) (encoded_lengths := 1);
    [exact Hd | vm_compute; reflexivity].
Defined.

Lemma default_search_result_nonempty_witness :
  init true Examples.every_model_loads Examples.args_default3 = inr Examples.default3
  /\ plain_durations (arg_durations Examples.args_default3)
  /\ 1 <= arg_vocab_size Examples.args_default3
  /\ exists nbest_hyps,
       default_beam_search Examples.default3 tt Examples.no_decoder
                           Examples.joint_flat 5 1 = Returns nbest_hyps
       /\ nbest_hyps <> [].
Proof.
  assert (Hi : init true Examples.every_model_loads Examples.args_default3 = inr Examples.default3)
    by reflexivity.
  assert (Hp : plain_durations (arg_durations Examples.args_default3)).
  { split; [| split].
    - apply Forall_forall. intros d Hd. simpl in Hd. unfold int64_max. lia.
    - repeat constructor; simpl; intuition discriminate.
    - exists 1. split; [simpl; tauto | discriminate]. }
  assert (Hv : 1 <= arg_vocab_size Examples.args_default3) by (simpl; lia).
  split; [exact Hi |]. split; [exact Hp |]. split; [exact Hv |].
  eexists. split; [vm_compute; reflexivity |].
  eapply default_search_result_nonempty with
    (a := Examples.args_default3) (self := Examples.default3)
    (initialize_state := tt) (score_hypothesis := Examples.no_decoder)
    (joint := Examples.joint_flat) (fuel := 5%nat) (encoded_lengths := 1);
    [exact Hi | exact Hp | exact Hv | vm_compute; reflexivity].
Defined.

Lemma call_default_never_raises_witness :
  init true Examples.every_model_loads Examples.args_default3 = inr Examples.default3
  /\ plain_durations (arg_durations Examples.args_default3)
  /\ fst (call Examples.default3 tt Examples.no_decoder Examples.no_lm tt
               (fun l => l) 5 Examples.both_training [Examples.one_frame])
     <> Raises.
Proof.
  assert (Hi : init true Examples.every_model_loads Examples.args_default3 = inr Examples.default3)
    by reflexivity.
  assert (Hp : plain_durations (arg_durations Examples.args_default3)).
  { split; [| split].
    - apply Forall_forall. intros d Hd. simpl in Hd. unfold int64_max. lia.
    - repeat constructor; simpl; intuition discriminate.
    - exists 1. split; [simpl; tauto | discriminate]. }
  split; [exact Hi |]. split; [exact Hp |].
  eapply call_default_never_raises with
    (KENLM_AVAILABLE := true)
    (model_loads := Examples.every_model_loads) (a := Examples.args_default3).
  - exact Hi.
  - reflexivity.
  - discriminate.
  - exact Hp.
  - simpl. lia.
  - intros l Hl. exact Hl.
  - constructor; [| constructor]. intros t d. simpl. repeat split; lia.
Defined.
